(** * xdcc-cli: the search core (search.go)

    A shallow embedding of [search.go]: the record [XdccFileInfo], the size
    decoder [parseFileSize], the row decoder [parseFields], the xdcc.eu
    provider's [Search] and the registry's concurrent [Search], followed by
    the properties of the specification that concern them.

    Go strings are byte strings: they are modelled by [string] (a list of
    8-bit [ascii]).  Go's [int] and [int64] are modelled by [Z] (64-bit
    targets).  A Go function returning [(T, error)] returns a pair whose
    second component is [None] for a nil error.  A call that does not return
    (a run-time panic, [log.Fatal]) is an [outcome] of its own. *)

From Stdlib Require Import ZArith List String Ascii Bool Lia.
From Stdlib Require Import Floats.SpecFloat.
Import ListNotations.

Local Open Scope string_scope.
Local Open Scope Z_scope.

(** ** Errors, panics and process exit *)

(** The two sentinel errors of package strconv. *)
Inductive strconv_err := ErrSyntax | ErrRange.

(** The error values that reach this file: [errors.New msg], strconv's
    [*NumError], and errors of the network and HTML layers. *)
Inductive error :=
| errors_New (msg : string)
| NumError (Func Num : string) (Err : strconv_err)
| ExternalError (msg : string).

(** How a call ends: it returns a value, it panics, or it ends the process
    ([os.Exit], reached through [log.Fatal]). *)
Inductive outcome (A : Type) :=
| Ret (a : A)
| Panic (msg : string)
| Exit (code : Z).
Arguments Ret {A} a.
Arguments Panic {A} msg.
Arguments Exit {A} code.

Definition bind {A B} (m : outcome A) (k : A -> outcome B) : outcome B :=
  match m with
  | Ret a => k a
  | Panic msg => Panic msg
  | Exit c => Exit c
  end.

Notation "x <- m ;; k" := (bind m (fun x => k))
  (at level 61, m at next level, right associativity).

(** ** Byte strings *)

Module GoString.

Definition byte_in (lo hi c : ascii) : bool :=
  (N_of_ascii lo <=? N_of_ascii c)%N && (N_of_ascii c <=? N_of_ascii hi)%N.

Definition is_digit (c : ascii) : bool := byte_in "0" "9" c.

Definition digit_val (c : ascii) : Z :=
  Z.of_N (N_of_ascii c) - Z.of_N (N_of_ascii "0").

(** [lower c] of strconv: [c | ('x' - 'X')]. *)
Definition lower (c : ascii) : ascii :=
  ascii_of_N (N.lor (N_of_ascii c) 32).

Definition len (s : string) : Z := Z.of_nat (String.length s).

(** [s[len(s)-1]] and [s[:len(s)-1]] of a non-empty string. *)
Fixpoint last_byte (c : ascii) (s : string) : ascii :=
  match s with
  | EmptyString => c
  | String d s' => last_byte d s'
  end.

Fixpoint but_last (c : ascii) (s : string) : string :=
  match s with
  | EmptyString => EmptyString
  | String d s' => String c (but_last d s')
  end.

(** [strings.HasPrefix]. *)
Fixpoint HasPrefix (s p : string) : bool :=
  match p, s with
  | EmptyString, _ => true
  | String a p', String b s' => Ascii.eqb a b && HasPrefix s' p'
  | String _ _, EmptyString => false
  end.

Fixpoint drop (n : nat) (s : string) : string :=
  match n, s with
  | O, _ => s
  | S n', String _ s' => drop n' s'
  | S _, EmptyString => EmptyString
  end.

(** [strings.Replace s old new n] for a non-empty [old]: the first [n]
    non-overlapping occurrences of [old], from the left, are replaced by
    [new]; all of them when [n < 0].  [skip] counts the bytes of an
    occurrence that are still to be passed over. *)
Fixpoint replace_from (old new : string) (n : Z) (skip : nat) (s : string)
  : string :=
  match skip with
  | S k =>
      match s with
      | EmptyString => EmptyString
      | String _ s' => replace_from old new n k s'
      end
  | O =>
      if (n =? 0) then s
      else if HasPrefix s old then
        new ++
        match s with
        | EmptyString => EmptyString
        | String _ s' =>
            replace_from old new (n - 1) (Nat.pred (String.length old)) s'
        end
      else
        match s with
        | EmptyString => EmptyString
        | String c s' => String c (replace_from old new n O s')
        end
  end.

Definition Replace (s old new : string) (n : Z) : string :=
  if String.eqb old new then s
  else replace_from old new n O s.

(** [strings.Join]. *)
Fixpoint Join (elems : list string) (sep : string) : string :=
  match elems with
  | [] => ""
  | [e] => e
  | e :: rest => e ++ sep ++ Join rest sep
  end.

End GoString.

(** ** Package strconv

    [strconv] is Go's standard library; [Atoi] and [ParseFloat] are modelled
    after its sources (atoi.go, atof.go).  Where the library keeps a
    truncated mantissa and a flag and falls back to exact decimal
    arithmetic, the model keeps the exact mantissa: both give the float
    nearest to the number written, ties to even. *)

Module Strconv.
Import GoString.

Definition syntaxError (fn s : string) : error := NumError fn s ErrSyntax.
Definition rangeError (fn s : string) : error := NumError fn s ErrRange.

(** *** Integers *)

Definition IntSize : Z := 64.
Definition maxUint64 : Z := 2 ^ 64 - 1.

(** The digit loop of [ParseUint s 10 64]. *)
Fixpoint parseUint_loop (s0 s : string) (n : Z) : Z * option error :=
  match s with
  | EmptyString => (n, None)
  | String c s' =>
      if negb (is_digit c) then (0, Some (syntaxError "ParseUint" s0))
      else if (maxUint64 / 10 + 1 <=? n) then
        (maxUint64, Some (rangeError "ParseUint" s0))
      else
        let n1 := n * 10 + digit_val c in
        if (maxUint64 <? n1) then
          (maxUint64, Some (rangeError "ParseUint" s0))
        else parseUint_loop s0 s' n1
  end.

Definition ParseUint (s : string) : Z * option error :=
  match s with
  | EmptyString => (0, Some (syntaxError "ParseUint" s))
  | _ => parseUint_loop s s 0
  end.

(** [ParseInt s 10 0], with the function name [fn] of the caller in its
    errors. *)
Definition ParseInt (fn s0 : string) : Z * option error :=
  match s0 with
  | EmptyString => (0, Some (syntaxError fn s0))
  | String c s' =>
      let neg := Ascii.eqb c "-" in
      let s := if Ascii.eqb c "+" || neg then s' else s0 in
      match ParseUint s with
      | (_, Some (NumError _ _ ErrSyntax)) => (0, Some (syntaxError fn s0))
      | (un, _) =>
          let cutoff := 2 ^ (IntSize - 1) in
          if negb neg && (cutoff <=? un) then
            (cutoff - 1, Some (rangeError fn s0))
          else if neg && (cutoff <? un) then
            (- cutoff, Some (rangeError fn s0))
          else ((if neg then - un else un), None)
      end
  end.

(** [strconv.Atoi].  Its fast path (inputs shorter than 19 bytes) accepts
    the same strings with the same values as [ParseInt]. *)
Definition Atoi (s : string) : Z * option error := ParseInt "Atoi" s.

(** *** Floating point, bitSize 32 *)

Definition prec32 : Z := 24.
Definition emax32 : Z := 128.
Definition prec64 : Z := 53.
Definition emax64 : Z := 1024.

Fixpoint commonPrefixLenIgnoreCase (s prefix : string) : nat :=
  match s, prefix with
  | String c s', String p prefix' =>
      let c' := if byte_in "A" "Z" c then lower c else c in
      if Ascii.eqb c' p then S (commonPrefixLenIgnoreCase s' prefix')
      else O
  | _, _ => O
  end.

(** [special]: the float and the number of bytes read. *)
Definition special_inf (sign : bool) (nsign : nat) (s : string)
  : option (spec_float * nat) :=
  let n := commonPrefixLenIgnoreCase s "infinity" in
  let n := if (3 <? n)%nat && (n <? 8)%nat then 3%nat else n in
  if (n =? 3)%nat || (n =? 8)%nat
  then Some (S754_infinity sign, (nsign + n)%nat)
  else None.

Definition special (s : string) : option (spec_float * nat) :=
  match s with
  | EmptyString => None
  | String c s' =>
      if Ascii.eqb c "+" then special_inf false 1 s'
      else if Ascii.eqb c "-" then special_inf true 1 s'
      else if Ascii.eqb c "i" || Ascii.eqb c "I" then special_inf false 0 s
      else if Ascii.eqb c "n" || Ascii.eqb c "N" then
        if (commonPrefixLenIgnoreCase s "nan" =? 3)%nat
        then Some (S754_nan, 3%nat) else None
      else None
  end.

(** [underscoreOK]: underscores only between digits, or between a base
    prefix and a digit.  [saw] is the last byte class seen. *)
Inductive saw_class := SawStart | SawDigit | SawUnderscore | SawOther.

Definition saw_eqb (a b : saw_class) : bool :=
  match a, b with
  | SawStart, SawStart | SawDigit, SawDigit
  | SawUnderscore, SawUnderscore | SawOther, SawOther => true
  | _, _ => false
  end.

Fixpoint underscoreOK_loop (hex : bool) (saw : saw_class) (s : string)
  : bool :=
  match s with
  | EmptyString => negb (saw_eqb saw SawUnderscore)
  | String c s' =>
      if is_digit c || (hex && byte_in "a" "f" (lower c)) then
        underscoreOK_loop hex SawDigit s'
      else if Ascii.eqb c "_" then
        if saw_eqb saw SawDigit then underscoreOK_loop hex SawUnderscore s'
        else false
      else if saw_eqb saw SawUnderscore then false
      else underscoreOK_loop hex SawOther s'
  end.

Definition underscoreOK (s : string) : bool :=
  let s := match s with
           | String c s' =>
               if Ascii.eqb c "-" || Ascii.eqb c "+" then s' else s
           | _ => s
           end in
  match s with
  | String c0 (String c1 s') =>
      if Ascii.eqb c0 "0" &&
         (Ascii.eqb (lower c1) "b" || Ascii.eqb (lower c1) "o"
          || Ascii.eqb (lower c1) "x")
      then underscoreOK_loop (Ascii.eqb (lower c1) "x") SawDigit s'
      else underscoreOK_loop false SawStart s
  | _ => underscoreOK_loop false SawStart s
  end.

(** The state of the mantissa loop of [readFloat]. *)
Record mant_state := {
  mantissa : Z;      (* all digits read, leading zeros apart *)
  nd : Z;            (* number of those digits *)
  dp : Z;            (* position of the point *)
  sawdot : bool;
  sawdigits : bool;
  underscores : bool
}.

Definition mant_init : mant_state :=
  {| mantissa := 0; nd := 0; dp := 0;
     sawdot := false; sawdigits := false; underscores := false |}.

Fixpoint readMantissa (base : Z) (st : mant_state) (s : string)
  : mant_state * string :=
  match s with
  | EmptyString => (st, s)
  | String c s' =>
      if Ascii.eqb c "_" then
        readMantissa base
          {| mantissa := mantissa st; nd := nd st; dp := dp st;
             sawdot := sawdot st; sawdigits := sawdigits st;
             underscores := true |} s'
      else if Ascii.eqb c "." then
        if sawdot st then (st, s)
        else
          readMantissa base
            {| mantissa := mantissa st; nd := nd st; dp := nd st;
               sawdot := true; sawdigits := sawdigits st;
               underscores := underscores st |} s'
      else if is_digit c then
        if Ascii.eqb c "0" && (nd st =? 0) then
          readMantissa base
            {| mantissa := mantissa st; nd := nd st; dp := dp st - 1;
               sawdot := sawdot st; sawdigits := true;
               underscores := underscores st |} s'
        else
          readMantissa base
            {| mantissa := mantissa st * base + digit_val c;
               nd := nd st + 1; dp := dp st;
               sawdot := sawdot st; sawdigits := true;
               underscores := underscores st |} s'
      else if (base =? 16) && byte_in "a" "f" (lower c) then
        readMantissa base
          {| mantissa :=
               mantissa st * 16
               + (Z.of_N (N_of_ascii (lower c)) - Z.of_N (N_of_ascii "a")
                  + 10);
             nd := nd st + 1; dp := dp st;
             sawdot := sawdot st; sawdigits := true;
             underscores := underscores st |} s'
      else (st, s)
  end.

(** The digits of the exponent: the value (no longer updated once it
    reaches 10000), whether an underscore was seen, and the rest. *)
Fixpoint readExpDigits (e : Z) (us : bool) (s : string)
  : Z * bool * string :=
  match s with
  | EmptyString => (e, us, s)
  | String c s' =>
      if Ascii.eqb c "_" then readExpDigits e true s'
      else if is_digit c then
        readExpDigits (if e <? 10000 then e * 10 + digit_val c else e) us s'
      else (e, us, s)
  end.

(** What [readFloat] returns when it succeeds: the sign, the exact
    mantissa, the exponent of 10 (of 2 when [rf_hex]), and the bytes that
    were not read. *)
Record read_float := {
  rf_neg : bool;
  rf_mantissa : Z;
  rf_exp : Z;
  rf_hex : bool;
  rf_rest : string
}.

Definition readFloat (s : string) : option read_float :=
  match s with
  | EmptyString => None
  | String c0 s0 =>
      let neg := Ascii.eqb c0 "-" in
      let s1 := if Ascii.eqb c0 "+" || neg then s0 else s in
      let hex :=
        match s1 with
        | String a (String b (String _ _)) =>
            Ascii.eqb a "0" && Ascii.eqb (lower b) "x"
        | _ => false
        end in
      let base := if hex then 16 else 10 in
      let expChar := (if hex then "p" else "e")%char in
      let '(st, s2) := readMantissa base mant_init (if hex then drop 2 s1 else s1) in
      if negb (sawdigits st) then None
      else
        let dp0 := if sawdot st then dp st else nd st in
        let dp1 := if hex then dp0 * 4 else dp0 in
        let ndMant := if hex then nd st * 4 else nd st in
        let finish (dp2 : Z) (us : bool) (rest : string) :=
          let i := (String.length s - String.length rest)%nat in
          if us && negb (underscoreOK (substring 0 i s)) then None
          else Some {| rf_neg := neg; rf_mantissa := mantissa st;
                       rf_exp := if mantissa st =? 0 then 0
                                 else dp2 - ndMant;
                       rf_hex := hex; rf_rest := rest |} in
        match s2 with
        | String c s3 =>
            if Ascii.eqb (lower c) expChar then
              match s3 with
              | EmptyString => None
              | String d s4 =>
                  let esign := if Ascii.eqb d "-" then -1 else 1 in
                  let s5 := if Ascii.eqb d "+" || Ascii.eqb d "-"
                            then s4 else s3 in
                  match s5 with
                  | EmptyString => None
                  | String d' _ =>
                      if negb (is_digit d') then None
                      else
                        let '(e, us, rest) :=
                          readExpDigits 0 (underscores st) s5 in
                        finish (dp1 + e * esign) us rest
                  end
              end
            else if hex then None
            else finish dp1 (underscores st) s2
        | EmptyString =>
            if hex then None else finish dp1 (underscores st) s2
        end
  end.

(** The binary32 value nearest to [m * 10^e] (decimal) or [m * 2^e]
    (hexadecimal), ties to even; an infinity when it is out of range. *)
Definition round32 (neg : bool) (m e : Z) (hex : bool) : spec_float :=
  match m with
  | Zpos p =>
      if hex then binary_round prec32 emax32 neg p e
      else if 0 <=? e then
        binary_round prec32 emax32 neg (p * Z.to_pos (10 ^ e)) 0
      else
        SFdiv prec32 emax32 (S754_finite neg p 0)
          (S754_finite false (Z.to_pos (10 ^ (- e))) 0)
  | _ => S754_zero neg
  end.

(** [strconv.ParseFloat s 32].  The float returned is a binary32 value
    held in a float64. *)
Definition ParseFloat32 (s : string) : spec_float * option error :=
  match special s with
  | Some (f, n) =>
      if (n =? String.length s)%nat then (f, None)
      else (S754_zero false, Some (syntaxError "ParseFloat" s))
  | None =>
      match readFloat s with
      | None => (S754_zero false, Some (syntaxError "ParseFloat" s))
      | Some r =>
          match rf_rest r with
          | EmptyString =>
              let f := round32 (rf_neg r) (rf_mantissa r) (rf_exp r)
                         (rf_hex r) in
              match f with
              | S754_infinity _ => (f, Some (rangeError "ParseFloat" s))
              | _ => (f, None)
              end
          | _ => (S754_zero false, Some (syntaxError "ParseFloat" s))
          end
      end
  end.

End Strconv.

(** ** Conversions between numeric types *)

Module Conv.
Import Strconv.

Definition minInt64 : Z := - 2 ^ 63.
Definition maxInt64 : Z := 2 ^ 63 - 1.

(** An int64 from any integer, by wrap-around. *)
Definition wrap64 (z : Z) : Z := (z + 2 ^ 63) mod 2 ^ 64 - 2 ^ 63.

(** An untyped integer constant used as a float64. *)
Definition float64_of_const (z : Z) : spec_float :=
  binary_normalize prec64 emax64 z 0 false.

(** Float64 multiplication. *)
Definition mul64 (x y : spec_float) : spec_float := SFmul prec64 emax64 x y.

(** The integer part of a float, the fraction discarded (towards zero);
    [None] for an infinity and for NaN. *)
Definition truncate (f : spec_float) : option Z :=
  match f with
  | S754_zero _ => Some 0
  | S754_finite s m e =>
      let a := if 0 <=? e then Zpos m * 2 ^ e else Zpos m / 2 ^ (- e) in
      Some (if s then - a else a)
  | _ => None
  end.

(** The floats whose integer part an int64 holds. *)
Definition representable (f : spec_float) : bool :=
  match truncate f with
  | Some z => (minInt64 <=? z) && (z <=? maxInt64)
  | None => false
  end.

Section Platform.
(** The Go specification leaves the value of [int64(f)] to the
    implementation when an int64 cannot represent [f]; the choice of the
    target is a parameter. *)
Variable unrepresentable : spec_float -> Z.

(** The conversion [int64(f)] of a float64 [f]. *)
Definition int64_of_float64 (f : spec_float) : Z :=
  match truncate f with
  | Some z =>
      if (minInt64 <=? z) && (z <=? maxInt64) then z
      else wrap64 (unrepresentable f)
  | None => wrap64 (unrepresentable f)
  end.
End Platform.

(** What the amd64 instruction CVTTSD2SQ gives for such a float. *)
Definition amd64 (_ : spec_float) : Z := minInt64.

End Conv.

(** ** search.go *)

Record XdccFileInfo := {
  Network : string;
  Channel : string;
  BotName : string;
  Name : string;
  Gets : Z;
  Url : string;
  Command : string;
  Size : Z;
  Slot : string
}.

(** [XdccFileInfo{}]. *)
Definition XdccFileInfo_zero : XdccFileInfo :=
  {| Network := ""; Channel := ""; BotName := ""; Name := ""; Gets := 0;
     Url := ""; Command := ""; Size := 0; Slot := "" |}.

Definition set_Network (v : string) (f : XdccFileInfo) : XdccFileInfo :=
  {| Network := v; Channel := Channel f; BotName := BotName f;
     Name := Name f; Gets := Gets f; Url := Url f; Command := Command f;
     Size := Size f; Slot := Slot f |}.
Definition set_Channel (v : string) (f : XdccFileInfo) : XdccFileInfo :=
  {| Network := Network f; Channel := v; BotName := BotName f;
     Name := Name f; Gets := Gets f; Url := Url f; Command := Command f;
     Size := Size f; Slot := Slot f |}.
Definition set_BotName (v : string) (f : XdccFileInfo) : XdccFileInfo :=
  {| Network := Network f; Channel := Channel f; BotName := v;
     Name := Name f; Gets := Gets f; Url := Url f; Command := Command f;
     Size := Size f; Slot := Slot f |}.
Definition set_Name (v : string) (f : XdccFileInfo) : XdccFileInfo :=
  {| Network := Network f; Channel := Channel f; BotName := BotName f;
     Name := v; Gets := Gets f; Url := Url f; Command := Command f;
     Size := Size f; Slot := Slot f |}.
Definition set_Gets (v : Z) (f : XdccFileInfo) : XdccFileInfo :=
  {| Network := Network f; Channel := Channel f; BotName := BotName f;
     Name := Name f; Gets := v; Url := Url f; Command := Command f;
     Size := Size f; Slot := Slot f |}.
Definition set_Url (v : string) (f : XdccFileInfo) : XdccFileInfo :=
  {| Network := Network f; Channel := Channel f; BotName := BotName f;
     Name := Name f; Gets := Gets f; Url := v; Command := Command f;
     Size := Size f; Slot := Slot f |}.
Definition set_Command (v : string) (f : XdccFileInfo) : XdccFileInfo :=
  {| Network := Network f; Channel := Channel f; BotName := BotName f;
     Name := Name f; Gets := Gets f; Url := Url f; Command := v;
     Size := Size f; Slot := Slot f |}.
Definition set_Size (v : Z) (f : XdccFileInfo) : XdccFileInfo :=
  {| Network := Network f; Channel := Channel f; BotName := BotName f;
     Name := Name f; Gets := Gets f; Url := Url f; Command := Command f;
     Size := v; Slot := Slot f |}.
Definition set_Slot (v : string) (f : XdccFileInfo) : XdccFileInfo :=
  {| Network := Network f; Channel := Channel f; BotName := BotName f;
     Name := Name f; Gets := Gets f; Url := Url f; Command := Command f;
     Size := Size f; Slot := v |}.

(** Modelled from the spec: the constants [KiloByte], [MegaByte] and
    [GigaByte] are declared outside search.go; the specification gives the
    multipliers as 1024, 1024^2 and 1024^3 bytes. *)
Definition KiloByte : Z := 1024.
Definition MegaByte : Z := KiloByte * 1024.
Definition GigaByte : Z := MegaByte * 1024.

Definition XdccEuURL : string := "https://www.xdcc.eu/search.php".
Definition xdccEuNumberOfEntries : nat := 7.
Definition MaxProviders : nat := 100.
Definition MaxResults : nat := 1024.

(** Run-time panics of slicing and indexing. *)
Definition slice_panic : string := "slice bounds out of range".
Definition index_panic : string := "index out of range".

(** [fields[i]]. *)
Definition index (fields : list string) (i : nat) : outcome string :=
  match nth_error fields i with
  | Some s => Ret s
  | None => Panic index_panic
  end.

(** [s[:len(s)-1]]. *)
Definition slice_but_last (s : string) : outcome string :=
  match s with
  | EmptyString => Panic slice_panic
  | String c s' => Ret (GoString.but_last c s')
  end.

Section Platform.
Variable unrepresentable : spec_float -> Z.

Definition int64 (f : spec_float) : Z :=
  Conv.int64_of_float64 unrepresentable f.

Definition parseFileSize (sizeStr : string) : Z * option error :=
  match sizeStr with
  | EmptyString => (-1, Some (errors_New "empty string"))
  | String c s =>
      let lastChar := GoString.last_byte c s in
      let sizePart := GoString.but_last c s in
      match Strconv.ParseFloat32 sizePart with
      | (_, Some err) => (-1, Some err)
      | (size, None) =>
          if Ascii.eqb lastChar "G" then
            (int64 (Conv.mul64 size (Conv.float64_of_const GigaByte)), None)
          else if Ascii.eqb lastChar "M" then
            (int64 (Conv.mul64 size (Conv.float64_of_const MegaByte)), None)
          else if Ascii.eqb lastChar "K" then
            (int64 (Conv.mul64 size (Conv.float64_of_const KiloByte)), None)
          else (-1, Some (errors_New ("unable to parse: " ++ sizeStr)))
      end
  end.

(** The method [parseFields] of [XdccEuProvider]: a pointer to a record
    and a nil error, or a nil pointer and an error. *)
Definition parseFields (fields : list string)
  : outcome (option XdccFileInfo * option error) :=
  if negb (List.length fields =? xdccEuNumberOfEntries)%nat then
    Ret (None,
         Some (errors_New "unespected number of search entry fields"))
  else
    let fInfo := XdccFileInfo_zero in
    f0 <- index fields 0 ;;
    let fInfo := set_Network f0 fInfo in
    f1 <- index fields 1 ;;
    let fInfo := set_Channel f1 fInfo in
    f2 <- index fields 2 ;;
    let fInfo := set_BotName f2 fInfo in
    f3 <- index fields 3 ;;
    let fInfo := set_Slot f3 fInfo in
    f4 <- index fields 4 ;;
    digits <- slice_but_last f4 ;;
    let fInfo :=
      match Strconv.Atoi digits with
      | (gets, None) => set_Gets gets fInfo
      | (_, Some _) => fInfo
      end in
    f5 <- index fields 5 ;;
    let fInfo := set_Size (fst (parseFileSize f5)) fInfo in
    f6 <- index fields 6 ;;
    let fInfo := set_Name f6 fInfo in
    Ret (Some fInfo, None).

End Platform.

(** *** The xdcc.eu provider *)

(** The interface [XdccSearchProvider]: a value of it is its method. *)
Record XdccSearchProvider := {
  Search : list string -> outcome (list XdccFileInfo * option error)
}.

(** A child of a row, as [Search] sees it: [si.Text()] and the value of
    [si.Find("a").First().Attr("href")], if it exists. *)
Record Cell := {
  Text : string;
  AnchorHref : option string
}.

(** A [tr] element, by its children; a document, by its [tr] elements in
    document order. *)
Definition Row := list Cell.
Definition Document := list Row.

Record Response := {
  StatusCode : Z;
  Status : string;
  Body : string
}.

Inductive get_result :=
| GetOk (res : Response)
| GetErr (err : error).

(** [Selection.Each]: the callback on every element with its index, in
    order.  The callback updates the variables it captured, here [st]. *)
Fixpoint Each_from {A T : Type} (f : nat -> A -> T -> outcome T)
  (i : nat) (l : list A) (st : T) : outcome T :=
  match l with
  | [] => Ret st
  | a :: l' => st' <- f i a st ;; Each_from f (S i) l' st'
  end.

Definition Each {A T : Type} (f : nat -> A -> T -> outcome T)
  (l : list A) (st : T) : outcome T := Each_from f 0 l st.

(** [log.Fatal] and [log.Fatalf]: print and [os.Exit(1)]. *)
Definition log_Fatal {A : Type} : outcome A := Exit 1.

Definition nil_panic : string := "nil pointer dereference".

Section Provider.
Variable unrepresentable : spec_float -> Z.

(** The world outside the program: [strings.TrimSpace] and
    [strings.Fields] (Unicode white space), [http.Get], and
    [goquery.NewDocumentFromReader] on a response body. *)
Variable TrimSpace : string -> string.
Variable Fields : string -> list string.
Variable http_Get : string -> get_result.
Variable NewDocumentFromReader : string -> Document * option error.

(** The callback on the children of a row; it captures [fields] and
    [url]. *)
Definition cell_callback (i : nat) (si : Cell) (st : list string * string)
  : outcome (list string * string) :=
  let '(fields, url) := st in
  let url :=
    if (i =? 1)%nat then
      match AnchorHref si with
      | Some value => value
      | None => url
      end
    else url in
  Ret ((fields ++ [TrimSpace (Text si)])%list, url).

(** The callback on the rows; it captures [fileInfos]. *)
Definition row_callback (j : nat) (s : Row) (fileInfos : list XdccFileInfo)
  : outcome (list XdccFileInfo) :=
  if (j =? 0)%nat then Ret fileInfos
  else
    st <- Each cell_callback s ([], "") ;;
    let '(fields, url) := st in
    r <- parseFields unrepresentable fields ;;
    match r with
    | (_, Some _) => Ret fileInfos
    | (None, None) => Panic nil_panic
    | (Some info, None) =>
        let info :=
          set_Url (GoString.Replace url "irc://" "http://" 1) info in
        let info :=
          set_Command
            ("/msg " ++ BotName info ++ " xdcc send " ++ Slot info) info in
        Ret (fileInfos ++ [info])%list
    end.

(** Lines 141 to 166: from the document to the result. *)
Definition searchDocument (doc : Document)
  : outcome (list XdccFileInfo * option error) :=
  fileInfos <- Each row_callback doc [] ;;
  Ret (fileInfos, None).

(** The method [Search] of [XdccEuProvider]. *)
Definition XdccEuProvider_Search (keywords : list string)
  : outcome (list XdccFileInfo * option error) :=
  let keywordString := GoString.Join keywords " " in
  let searchkey := GoString.Join (Fields keywordString) "+" in
  match http_Get (XdccEuURL ++ "?searchkey=" ++ searchkey) with
  | GetErr err =>
      _ <- @log_Fatal unit ;;
      Ret ([], Some err)
  | GetOk res =>
      if negb (StatusCode res =? 200) then
        _ <- @log_Fatal unit ;;
        Ret ([], None)
      else
        match NewDocumentFromReader (Body res) with
        | (_, Some err) =>
            _ <- @log_Fatal unit ;;
            Ret ([], Some err)
        | (doc, None) => searchDocument doc
        end
  end.

Definition XdccEuProvider : XdccSearchProvider :=
  {| Search := XdccEuProvider_Search |}.

End Provider.

(** *** The registry *)

Record XdccProviderRegistry := {
  providerList : list XdccSearchProvider
}.

Definition NewProviderRegistry : XdccProviderRegistry :=
  {| providerList := [] |}.

Definition AddProvider (registry : XdccProviderRegistry)
  (provider : XdccSearchProvider) : XdccProviderRegistry :=
  {| providerList := (providerList registry ++ [provider])%list |}.

(** [XdccProviderRegistry.Search] runs one goroutine per provider; the
    goroutines and the caller share [allResults] and the wait group [wg].
    The model is a transition system over the program points of every
    goroutine, one shared-memory access per step.  The [append] of line
    61 is one read and one write of the slice as a whole: the model
    decides what the wait group and the program points decide, and says
    nothing of the words of a slice header or of an element written by
    two goroutines at once. *)
Module RegistrySearch.

(** Where a goroutine of line 54 stands. *)
Inductive goroutine :=
| AtCall (p : XdccSearchProvider)       (* line 55, before [p.Search] *)
| AtLoad (res : list XdccFileInfo)      (* line 61, before reading [allResults] *)
| AtStore (new : list XdccFileInfo)     (* line 61, before writing [allResults] *)
| AtDone                                (* line 63, before [wg.Done()] *)
| ReturnedAtErr                         (* ended by the [return] of line 58 *)
| Finished.                             (* ended after line 63 *)

(** Where the caller stands. *)
Inductive caller :=
| AtLoop (rest : list XdccSearchProvider)  (* line 53, providers left to start *)
| AtWait                                   (* line 66 *)
| Returned (res : list XdccFileInfo * option error).  (* line 67 *)

Record state := {
  allResults : list XdccFileInfo;
  wg : Z;
  goroutines : list goroutine;
  main : caller
}.

(** A run ends the whole process when a goroutine panics or exits. *)
Inductive config :=
| Running (st : state)
| Crashed (panic : option string) (code : Z).

(** Lines 49 to 52. *)
Definition init (registry : XdccProviderRegistry) : state :=
  {| allResults := [];
     wg := Z.of_nat (List.length (providerList registry));
     goroutines := [];
     main := AtLoop (providerList registry) |}.

Section Steps.
Variable keywords : list string.

(** One step of one goroutine on the shared variables: the goroutine
    afterwards, [allResults] and [wg] afterwards. *)
Inductive goroutine_step (results : list XdccFileInfo) (counter : Z)
  : goroutine -> goroutine -> list XdccFileInfo -> Z -> Prop :=
| step_call_err p res err :
    Search p keywords = Ret (res, Some err) ->
    goroutine_step results counter (AtCall p) ReturnedAtErr results counter
| step_call_ok p res :
    Search p keywords = Ret (res, None) ->
    goroutine_step results counter (AtCall p) (AtLoad res) results counter
| step_load res :
    goroutine_step results counter
      (AtLoad res) (AtStore (results ++ res)%list) results counter
| step_store new :
    goroutine_step results counter (AtStore new) AtDone new counter
| step_done :
    goroutine_step results counter AtDone Finished results (counter - 1).

Inductive step : config -> config -> Prop :=
| step_go st p rest :
    main st = AtLoop (p :: rest) ->
    step (Running st)
      (Running {| allResults := allResults st; wg := wg st;
                  goroutines := (goroutines st ++ [AtCall p])%list;
                  main := AtLoop rest |})
| step_loop_end st :
    main st = AtLoop [] ->
    step (Running st)
      (Running {| allResults := allResults st; wg := wg st;
                  goroutines := goroutines st; main := AtWait |})
| step_wait st :
    main st = AtWait ->
    wg st = 0 ->
    step (Running st)
      (Running {| allResults := allResults st; wg := wg st;
                  goroutines := goroutines st;
                  main := Returned (allResults st, None) |})
| step_goroutine st before g after g' results' counter' :
    goroutines st = (before ++ g :: after)%list ->
    goroutine_step (allResults st) (wg st) g g' results' counter' ->
    step (Running st)
      (Running {| allResults := results'; wg := counter';
                  goroutines := (before ++ g' :: after)%list;
                  main := main st |})
| step_panic st before p after msg :
    goroutines st = (before ++ AtCall p :: after)%list ->
    Search p keywords = Panic msg ->
    step (Running st) (Crashed (Some msg) 2)
| step_exit st before p after code :
    goroutines st = (before ++ AtCall p :: after)%list ->
    Search p keywords = Exit code ->
    step (Running st) (Crashed None code).

Inductive steps : config -> config -> Prop :=
| steps_refl c : steps c c
| steps_step c1 c2 c3 : steps c1 c2 -> step c2 c3 -> steps c1 c3.

(** The configurations a call of [Search] on [registry] can reach. *)
Definition reachable (registry : XdccProviderRegistry) (c : config)
  : Prop :=
  steps (Running (init registry)) c.

(** The call returns [res] in some run. *)
Definition may_return (registry : XdccProviderRegistry)
  (res : list XdccFileInfo * option error) : Prop :=
  exists st, reachable registry (Running st) /\ main st = Returned res.

End Steps.

End RegistrySearch.

(** ** Auxiliary definitions of the proofs *)

(** The url captured once the cells from index [i] on were visited. *)
Definition href_or (si : option Cell) (url : string) : string :=
  match si with
  | Some si =>
      match AnchorHref si with
      | Some value => value
      | None => url
      end
  | None => url
  end.

Definition url_after (i : nat) (cells : list Cell) (url : string) : string :=
  match i with
  | O => href_or (nth_error cells 1) url
  | S O => href_or (nth_error cells 0) url
  | _ => url
  end.

(** Bookkeeping on the states of the registry's [Search], for a given
    argument [keywords]. *)
Module RegistryInv.
Import RegistrySearch.

Section Inv.
Variable keywords : list string.

(** A goroutine that has not called [wg.Done()]. *)
Definition pending (g : goroutine) : Z :=
  match g with
  | Finished => 0
  | _ => 1
  end.

Definition fails (p : XdccSearchProvider) : bool :=
  match Search p keywords with
  | Ret (_, Some _) => true
  | _ => false
  end.

(** A goroutine that will never call [wg.Done()]. *)
Definition stuck (g : goroutine) : bool :=
  match g with
  | AtCall p => fails p
  | ReturnedAtErr => true
  | _ => false
  end.

Definition sumZ (l : list Z) : Z := fold_right Z.add 0 l.

Definition unstarted (c : caller) : list XdccSearchProvider :=
  match c with
  | AtLoop rest => rest
  | _ => []
  end.

(** The calls of [wg.Done()] that [wg] still stands for. *)
Definition owed (st : state) : Z :=
  Z.of_nat (List.length (unstarted (main st)))
  + sumZ (map pending (goroutines st)).

Definition is_returned (c : caller) : bool :=
  match c with
  | Returned _ => true
  | _ => false
  end.

Definition inv (st : state) : Prop :=
  wg st = owed st /\
  is_returned (main st) = false /\
  (existsb fails (unstarted (main st)) = true
   \/ existsb stuck (goroutines st) = true).

End Inv.
End RegistryInv.

(** Sample values, for the instances of the theorems below. *)
Module Sample.

Definition cell (text : string) : Cell :=
  {| Text := text; AnchorHref := None |}.

Definition linked_cell (text href : string) : Cell :=
  {| Text := text; AnchorHref := Some href |}.

Definition header : Row :=
  map cell ["Network"; "Channel"; "Bot"; "Pack"; "Gets"; "Size"; "Filename"].

Definition row : Row :=
  [cell "irc.example.net";
   linked_cell "#chan" "irc://irc.example.net/chan?x=irc://y";
   cell "bot"; cell "#1"; cell "12x"; cell "1.5M"; cell "file.iso"].

(** The same row with nothing in its Gets cell. *)
Definition row_no_gets : Row :=
  [cell "irc.example.net";
   linked_cell "#chan" "irc://irc.example.net/chan";
   cell "bot"; cell "#1"; cell ""; cell "1.5M"; cell "file.iso"].

Definition short_row : Row :=
  [cell "irc.example.net"; cell "#chan"; cell "bot"; cell "#1";
   cell "12x"; cell "1.5M"].

Definition record : XdccFileInfo :=
  {| Network := "irc.example.net"; Channel := "#chan"; BotName := "bot";
     Name := "file.iso"; Gets := 12;
     Url := "http://irc.example.net/chan?x=irc://y";
     Command := "/msg bot xdcc send #1";
     Size := 1572864; Slot := "#1" |}.

(** A provider whose [Search] returns an error, and one whose [Search]
    returns [res]. *)
Definition failing : XdccSearchProvider :=
  {| Search := fun _ => Ret ([], Some (ExternalError "unreachable")) |}.

Definition fixed (res : list XdccFileInfo) : XdccSearchProvider :=
  {| Search := fun _ => Ret (res, None) |}.

(** A world in which every request fails, one in which every request is
    answered 404, and one in which every answer fails to parse. *)
Definition get_fails (_ : string) : get_result :=
  GetErr (ExternalError "dial tcp: connection refused").

Definition get_status (code : Z) (status body : string) (_ : string)
  : get_result :=
  GetOk {| StatusCode := code; Status := status; Body := body |}.

Definition parse_fails (_ : string) : Document * option error :=
  ([], Some (ExternalError "unexpected EOF")).

Definition parse_to (doc : Document) (_ : string)
  : Document * option error := (doc, None).

Definition no_trim (s : string) : string := s.
Definition one_field (s : string) : list string := [s].

End Sample.

(** Notions of the proofs about floats. *)

(** The record left by [p] right shifts of [{N, false, false}]: quotient,
    round bit, sticky bit. *)
Definition shifted (N : Z) (p : positive) : shr_record :=
  {| shr_m := N / 2 ^ Zpos p;
     shr_r := Z.testbit N (Zpos p - 1);
     shr_s := negb (N mod 2 ^ (Zpos p - 1) =? 0) |}.

(** What [binary_round_aux] returns: a float of the sign given, of at most
    [prec] bits. *)
Definition fits (prec emax : Z) (sx : bool) (f : spec_float) : Prop :=
  match f with
  | S754_zero s | S754_infinity s => s = sx
  | S754_nan => False
  | S754_finite s m e =>
      s = sx /\ Zpos m < 2 ^ prec /\ emin prec emax <= e <= emax - prec
  end.

(** The floats of binary32: 24 bits, exponents from -149 to 104. *)
Definition binary32 (f : spec_float) : Prop :=
  match f with
  | S754_finite _ m e => Zpos m < 2 ^ 24 /\ -149 <= e <= 104
  | _ => True
  end.

(** A float that is no negative number. *)
Definition sign_clear (f : spec_float) : bool :=
  match f with
  | S754_zero s | S754_infinity s | S754_finite s _ _ => negb s
  | S754_nan => true
  end.

(** The multiplier of a unit byte, as [parseFileSize] chooses it. *)
Definition unit_multiplier (c : ascii) : option Z :=
  if Ascii.eqb c "G" then Some GigaByte
  else if Ascii.eqb c "M" then Some MegaByte
  else if Ascii.eqb c "K" then Some KiloByte
  else None.

(** The float64 that [parseFileSize] converts to an int64, when it gets
    that far. *)
Definition size_product (sizeStr : string) : option spec_float :=
  match sizeStr with
  | EmptyString => None
  | String c s =>
      match Strconv.ParseFloat32 (GoString.but_last c s),
            unit_multiplier (GoString.last_byte c s) with
      | (size, None), Some k =>
          Some (Conv.mul64 size (Conv.float64_of_const k))
      | _, _ => None
      end
  end.

(** The integer part of [f * k] in exact arithmetic, [k] positive. *)
Definition scaled_integer_part (f : spec_float) (k : Z) : option Z :=
  match f with
  | S754_zero _ => Some 0
  | S754_finite s m e =>
      let a := if 0 <=? e then Zpos m * 2 ^ e * k
               else Zpos m * k / 2 ^ (- e) in
      Some (if s then - a else a)
  | _ => None
  end.

(** Exact decimal arithmetic, as the specification has it: the integer part
    of [M * 10^E * k], for a prefix of digits [M] scaled by [10^E]. *)
Definition exact_bytes (M E k : Z) : Z :=
  if 0 <=? E then M * 10 ^ E * k else M * k / 10 ^ (- E).

(** Whether the float [f] is the number [M * 10^E], [M] not negative. *)
Definition is_decimal (f : spec_float) (M E : Z) : bool :=
  match f with
  | S754_zero _ => M =? 0
  | S754_finite false m e =>
      Zpos m * 2 ^ Z.max e 0 * 10 ^ Z.max (- E) 0
      =? M * 10 ^ Z.max E 0 * 2 ^ Z.max (- e) 0
  | _ => false
  end.

(** ** Further notions: what the registry's goroutines stand for *)

Module RegistryTrack.
Import RegistrySearch RegistryInv.

Section Track.
Variable keywords : list string.

(** [p.Search(keywords)] returns a result and a nil error. *)
Definition succeeds (p : XdccSearchProvider) : Prop :=
  exists res, Search p keywords = Ret (res, None).

(** A record of the result of a provider of the list. *)
Definition from_sources (providers : list XdccSearchProvider)
  (x : XdccFileInfo) : Prop :=
  exists p res,
    In p providers /\ Search p keywords = Ret (res, None) /\ In x res.

(** The program points at which the goroutine started for [p] can be. *)
Definition tracks (p : XdccSearchProvider) (g : goroutine) : Prop :=
  match g with
  | AtCall p' => p' = p
  | AtLoad res => Search p keywords = Ret (res, None)
  | AtStore _ | AtDone | Finished => succeeds p
  | ReturnedAtErr => exists res err, Search p keywords = Ret (res, Some err)
  end.

(** The records a goroutine is about to write. *)
Definition carries (g : goroutine) : list XdccFileInfo :=
  match g with
  | AtLoad res => res
  | AtStore new => new
  | _ => []
  end.

Definition track_inv (registry : XdccProviderRegistry) (st : state) : Prop :=
  wg st = owed st /\
  (exists started,
     providerList registry = (started ++ unstarted (main st))%list /\
     Forall2 tracks started (goroutines st)) /\
  (forall x, In x (allResults st) -> from_sources (providerList registry) x) /\
  (forall g x, In g (goroutines st) -> In x (carries g) ->
               from_sources (providerList registry) x) /\
  match main st with
  | Returned out => out = (allResults st, None) /\ wg st = 0
  | _ => True
  end.

End Track.
End RegistryTrack.

(** The states of a run on a registry of the single provider [p], whose
    [Search] returns [res]. *)
Module RegistrySingle.
Import RegistrySearch RegistryInv.

Definition alone (p : XdccSearchProvider) (res results : list XdccFileInfo)
  (g : goroutine) : Prop :=
  match g with
  | AtCall p' => p' = p /\ results = []
  | AtLoad r => r = res /\ results = []
  | AtStore new => new = res
  | AtDone | Finished => results = res
  | ReturnedAtErr => False
  end.

Definition single_inv (p : XdccSearchProvider) (res : list XdccFileInfo)
  (st : state) : Prop :=
  (main st = AtLoop [p] /\ goroutines st = [] /\ allResults st = [])
  \/ (unstarted (main st) = [] /\
      exists g, goroutines st = [g] /\ alone p res (allResults st) g).

End RegistrySingle.

(** ** Further notions: rows and cells *)

(** A row that [parseFields] accepts: seven cells. *)
Definition seven_cells (s : Row) : bool :=
  (List.length s =? xdccEuNumberOfEntries)%nat.

(** A row of seven cells whose Gets cell is empty once trimmed. *)
Definition gets_missing (TrimSpace : string -> string) (s : Row) : bool :=
  seven_cells s &&
  match nth_error s 4 with
  | Some si => String.eqb (TrimSpace (Text si)) ""
  | None => false
  end.

(** [old] is found in [s] at none of the first [n] positions. *)
Definition absent_before (old s : string) (n : nat) : Prop :=
  forall k, (k < n)%nat -> GoString.HasPrefix (GoString.drop k s) old = false.

(** A string of decimal digits and its value from the accumulator [acc]. *)
Fixpoint all_digits (s : string) : bool :=
  match s with
  | EmptyString => true
  | String c s' => GoString.is_digit c && all_digits s'
  end.

Fixpoint decimal_from (acc : Z) (s : string) : Z :=
  match s with
  | EmptyString => acc
  | String c s' => decimal_from (acc * 10 + GoString.digit_val c) s'
  end.

Definition decimal_value (s : string) : Z := decimal_from 0 s.

(** ** Notions of the proof that [ParseFloat] rounds to nearest *)

(** The location of a fraction [rho / D] of a unit, [0 <= rho < D]. *)
Definition loc_frac (rho D : Z) : location :=
  if rho =? 0 then loc_Exact else loc_Inexact (2 * rho ?= D).

(** The number that a prefix denotes, as a fraction: [M * 10^E], or
    [M * 2^E] for a hexadecimal prefix. *)
Definition prefix_value (M E : Z) (hex : bool) : Z * Z :=
  let B := if hex then 2 else 10 in
  if 0 <=? E then (M * B ^ E, 1) else (M, B ^ (- E)).

(** The magnitude of a binary32 number in units of 2^-149, the smallest
    positive one. *)
Definition scaled32 (f : spec_float) : Z :=
  match f with
  | S754_finite _ m e => Zpos m * 2 ^ (e + 149)
  | _ => 0
  end.

(** The finite binary32 numbers. *)
Definition finite32 (f : spec_float) : Prop :=
  match f with
  | S754_zero _ => True
  | S754_finite _ m e => Zpos m < 2 ^ 24 /\ -149 <= e <= 104
  | _ => False
  end.

(** How far the magnitude of [g] is from [N / D], in units of
    [2^-149 / D]. *)
Definition distance32 (N D : Z) (g : spec_float) : Z :=
  Z.abs (N * 2 ^ 149 - scaled32 g * D).

(** [f] is a finite binary32 number and no finite binary32 number is
    nearer to [N / D]. *)
Definition nearest32 (N D : Z) (f : spec_float) : Prop :=
  finite32 f /\
  forall g, finite32 g -> distance32 N D f <= distance32 N D g.

(** The sign bit of a float. *)
Definition sign_of (f : spec_float) : option bool :=
  match f with
  | S754_zero s | S754_infinity s | S754_finite s _ _ => Some s
  | S754_nan => None
  end.

(** * Properties *)

(** ** Helper lemmas *)

Lemma length7 {A : Type} (l : list A) :
  List.length l = 7%nat ->
  exists a0 a1 a2 a3 a4 a5 a6, l = [a0; a1; a2; a3; a4; a5; a6].
Proof.
  intros H.
  do 7 (destruct l as [|? l]; [discriminate H|]).
  destruct l; [|discriminate H].
  repeat eexists.
Qed.

Lemma parseFields_wrong_count u (fields : list string) :
  List.length fields <> 7%nat ->
  parseFields u fields =
  Ret (None, Some (errors_New "unespected number of search entry fields")).
Proof.
  intros H. unfold parseFields, xdccEuNumberOfEntries.
  destruct (Nat.eqb_spec (List.length fields) 7) as [E|E]; [contradiction|].
  reflexivity.
Qed.

(** [parseFields] on seven fields, the Gets cell not empty. *)
Lemma parseFields_seven u f0 f1 f2 f3 c g f5 f6 :
  parseFields u [f0; f1; f2; f3; String c g; f5; f6] =
  Ret (Some
         {| Network := f0; Channel := f1; BotName := f2; Name := f6;
            Gets := match Strconv.Atoi (GoString.but_last c g) with
                    | (gets, None) => gets
                    | (_, Some _) => 0
                    end;
            Url := ""; Command := "";
            Size := fst (parseFileSize u f5); Slot := f3 |},
       None).
Proof.
  unfold parseFields. cbn [List.length Nat.eqb xdccEuNumberOfEntries negb].
  cbn [index nth_error bind slice_but_last].
  destruct (Strconv.Atoi (GoString.but_last c g)) as [gets [err|]];
    reflexivity.
Qed.

Lemma parseFields_seven_empty u f0 f1 f2 f3 f5 f6 :
  parseFields u [f0; f1; f2; f3; ""; f5; f6] = Panic slice_panic.
Proof. reflexivity. Qed.

(** Whatever [parseFields] returns on success was read off seven fields. *)
Lemma parseFields_success u fields info err :
  parseFields u fields = Ret (Some info, err) ->
  exists f0 f1 f2 f3 c g f5 f6,
    fields = [f0; f1; f2; f3; String c g; f5; f6].
Proof.
  intros H.
  destruct (Nat.eq_dec (List.length fields) 7) as [E|E].
  - destruct (length7 fields E) as (f0 & f1 & f2 & f3 & f4 & f5 & f6 & ->).
    destruct f4 as [|c g].
    + rewrite parseFields_seven_empty in H. discriminate H.
    + repeat eexists.
  - rewrite (parseFields_wrong_count u fields E) in H. discriminate H.
Qed.

Section ProviderLemmas.
Variable unrepresentable : spec_float -> Z.
Variable TrimSpace : string -> string.

Let cellcb := cell_callback TrimSpace.
Let rowcb := row_callback unrepresentable TrimSpace.

Lemma Each_cells i cells fields url :
  Each_from cellcb i cells (fields, url) =
  Ret ((fields ++ map (fun si => TrimSpace (Text si)) cells)%list,
       url_after i cells url).
Proof.
  revert i fields url.
  induction cells as [|si cells IH]; intros i fields url.
  - cbn. rewrite app_nil_r. destruct i as [|[|i]]; reflexivity.
  - cbn [Each_from cellcb cell_callback bind]. unfold cellcb in IH.
    rewrite IH. rewrite <- app_assoc. cbn [map app].
    destruct i as [|[|i]]; reflexivity.
Qed.

Lemma Each_from_app {A T : Type} (f : nat -> A -> T -> outcome T)
  (l1 l2 : list A) i st :
  Each_from f i (l1 ++ l2) st =
  (st' <- Each_from f i l1 st ;; Each_from f (i + List.length l1) l2 st').
Proof.
  revert i st. induction l1 as [|a l1 IH]; intros i st; cbn.
  - rewrite Nat.add_0_r. reflexivity.
  - destruct (f i a st) as [st'| |]; cbn; try reflexivity.
    rewrite IH. rewrite Nat.add_succ_r. reflexivity.
Qed.

(** Past the header the row callback does not look at the index. *)
Lemma rowcb_index j j' s infos :
  rowcb (S j) s infos = rowcb (S j') s infos.
Proof. reflexivity. Qed.

Lemma Each_rows_index rows j j' infos :
  Each_from rowcb (S j) rows infos = Each_from rowcb (S j') rows infos.
Proof.
  revert j j' infos. induction rows as [|s rows IH]; intros j j' infos.
  - reflexivity.
  - cbn [Each_from]. rewrite (rowcb_index j j').
    destruct (rowcb (S j') s infos) as [st'| |]; cbn; try reflexivity.
    apply IH.
Qed.

Lemma rowcb_wrong_count j (s : Row) infos :
  List.length s <> 7%nat ->
  rowcb j s infos = Ret infos.
Proof.
  intros H. unfold rowcb, row_callback.
  destruct (j =? 0)%nat; [reflexivity|].
  unfold Each. fold cellcb. rewrite Each_cells. cbn [bind app].
  rewrite parseFields_wrong_count by (rewrite length_map; exact H).
  reflexivity.
Qed.

End ProviderLemmas.

Lemma Replace_scheme rest :
  GoString.Replace ("irc://" ++ rest) "irc://" "http://" 1 = "http://" ++ rest.
Proof.
  unfold GoString.Replace. cbn. destruct rest; reflexivity.
Qed.

(** ** The registry: a goroutine that returns at line 58 is never counted
    out of the wait group *)

Module RegistryFacts.
Import RegistrySearch RegistryInv.

Section Facts.
Variable keywords : list string.

Lemma sumZ_app (l1 l2 : list Z) :
  sumZ (l1 ++ l2)%list = sumZ l1 + sumZ l2.
Proof.
  unfold sumZ. induction l1 as [|a l1 IH]; cbn; [reflexivity|].
  rewrite IH. lia.
Qed.

Lemma pending_nonneg l : 0 <= sumZ (map pending l).
Proof.
  unfold sumZ. induction l as [|g l IH]; cbn [map fold_right]; [lia|].
  destruct g; cbn [pending]; lia.
Qed.

Lemma stuck_pending g : stuck keywords g = true -> pending g = 1.
Proof. destruct g; cbn; congruence. Qed.

Lemma stuck_owed l :
  existsb (stuck keywords) l = true -> 1 <= sumZ (map pending l).
Proof.
  induction l as [|g l IH]; cbn [existsb map sumZ fold_right];
    [discriminate|].
  intros H. apply orb_true_iff in H. fold (sumZ (map pending l)).
  destruct H as [H|H].
  - apply stuck_pending in H. rewrite H.
    pose proof (pending_nonneg l). lia.
  - specialize (IH H). destruct g; cbn [pending]; lia.
Qed.

Lemma inv_owed st : inv keywords st -> 1 <= wg st.
Proof.
  intros (Hwg & _ & [H|H]); rewrite Hwg; unfold owed.
  - destruct (unstarted (main st)) as [|p rest]; [discriminate H|].
    pose proof (pending_nonneg (goroutines st)).
    cbn [List.length]. lia.
  - apply stuck_owed in H. lia.
Qed.

Lemma inv_init registry p :
  In p (providerList registry) ->
  fails keywords p = true ->
  inv keywords (init registry).
Proof.
  intros Hin Hf. unfold inv, init, owed; cbn. repeat split.
  - lia.
  - left. apply existsb_exists. exists p. split; assumption.
Qed.

Lemma goroutine_step_inv results counter g g' results' counter' :
  goroutine_step keywords results counter g g' results' counter' ->
  counter' - pending g' = counter - pending g /\
  (stuck keywords g = true -> stuck keywords g' = true).
Proof.
  intros H. destruct H; cbn [pending stuck]; (split; [lia|]);
    intros Hs; try reflexivity; try discriminate Hs.
  unfold fails in Hs. rewrite H in Hs. discriminate Hs.
Qed.

Lemma inv_step st c :
  inv keywords st ->
  step keywords (Running st) c ->
  (exists st', c = Running st' /\ inv keywords st') \/
  (exists panic code, c = Crashed panic code).
Proof.
  intros Hinv Hstep. pose proof (inv_owed st Hinv) as Hpos.
  destruct Hinv as (Hwg & Hret & Hst).
  inversion Hstep
    as [st0 p rest Hm | st0 Hm | st0 Hm Hz
       | st0 before g after g' results' counter' Hg Hgs
       | st0 before p after msg Hg Hp | st0 before p after code Hg Hp];
    subst; try (right; eauto; fail); left;
    eexists; (split; [reflexivity|]).
  - (* a goroutine is started *)
    unfold inv, owed in *; cbn [main goroutines wg] in *.
    rewrite Hm in *. cbn [unstarted List.length existsb] in *.
    rewrite map_app, sumZ_app. cbn [map sumZ fold_right pending].
    repeat split; [lia|].
    rewrite existsb_app. cbn [existsb stuck].
    destruct Hst as [Hst|Hst].
    + apply orb_true_iff in Hst. destruct Hst as [Hst|Hst].
      * right. rewrite Hst. rewrite orb_true_r. reflexivity.
      * left. exact Hst.
    + right. rewrite Hst. reflexivity.
  - (* the loop ends *)
    unfold inv, owed in *; cbn [main goroutines wg] in *.
    rewrite Hm in *. cbn [unstarted List.length existsb] in *.
    repeat split; [lia|].
    destruct Hst as [Hst|Hst]; [discriminate Hst|right; exact Hst].
  - (* the barrier opens: impossible *)
    lia.
  - (* a goroutine moves *)
    apply goroutine_step_inv in Hgs. destruct Hgs as [Hc Hs].
    unfold inv, owed in *; cbn [main goroutines wg] in *.
    rewrite Hg in *. rewrite map_app, sumZ_app in *.
    cbn [map sumZ fold_right] in *.
    repeat split; [lia|assumption|].
    destruct Hst as [Hst|Hst]; [left; exact Hst|right].
    rewrite existsb_app in *. cbn [existsb] in *.
    apply orb_true_iff in Hst. destruct Hst as [Hst|Hst].
    + rewrite Hst. reflexivity.
    + apply orb_true_iff in Hst. destruct Hst as [Hst|Hst].
      * rewrite (Hs Hst). rewrite orb_true_r. reflexivity.
      * rewrite Hst. rewrite !orb_true_r. reflexivity.
Qed.

Lemma crashed_final c panic code :
  steps keywords (Crashed panic code) c -> c = Crashed panic code.
Proof.
  intros H. remember (Crashed panic code) as c0 eqn:E.
  induction H as [c|c1 c2 c3 H12 IH H23]; [reflexivity|].
  specialize (IH E). subst. inversion H23.
Qed.

Lemma inv_steps st c :
  inv keywords st ->
  steps keywords (Running st) c ->
  (exists st', c = Running st' /\ inv keywords st') \/
  (exists panic code, c = Crashed panic code).
Proof.
  intros Hinv H. remember (Running st) as c0 eqn:E.
  induction H as [c|c1 c2 c3 H12 IH H23].
  - left. exists st. split; assumption.
  - destruct (IH E) as [(st2 & -> & Hinv2)|(panic & code & ->)].
    + exact (inv_step st2 c3 Hinv2 H23).
    + inversion H23.
Qed.

(** A registry holding a provider whose [Search] returns an error: no
    run of the registry's [Search] reaches line 67. *)
Lemma failing_provider_blocks registry p res :
  In p (providerList registry) ->
  fails keywords p = true ->
  ~ may_return keywords registry res.
Proof.
  intros Hin Hf (st & Hreach & Hmain).
  destruct (inv_steps _ _ (inv_init registry p Hin Hf) Hreach)
    as [(st' & E & (_ & Hret & _))|(panic & code & E)].
  - injection E as <-. rewrite Hmain in Hret. discriminate Hret.
  - discriminate E.
Qed.

End Facts.
End RegistryFacts.

(** ** Floats: rounding to binary32 and the product with a unit *)

Lemma digits2_pos_bounds m :
  2 ^ (Zpos (digits2_pos m) - 1) <= Zpos m < 2 ^ Zpos (digits2_pos m).
Proof.
  induction m as [m IH|m IH|]; cbn [digits2_pos].
  - rewrite Pos2Z.inj_succ, (Pos2Z.inj_xI m).
    replace (Z.succ (Zpos (digits2_pos m)) - 1)
      with (Z.succ (Zpos (digits2_pos m) - 1)) by lia.
    rewrite !Z.pow_succ_r by lia.
    generalize dependent (2 ^ (Zpos (digits2_pos m) - 1)).
    generalize (2 ^ Zpos (digits2_pos m)). intros; lia.
  - rewrite Pos2Z.inj_succ, (Pos2Z.inj_xO m).
    replace (Z.succ (Zpos (digits2_pos m)) - 1)
      with (Z.succ (Zpos (digits2_pos m) - 1)) by lia.
    rewrite !Z.pow_succ_r by lia.
    generalize dependent (2 ^ (Zpos (digits2_pos m) - 1)).
    generalize (2 ^ Zpos (digits2_pos m)). intros; lia.
  - cbn. lia.
Qed.

Lemma iter_pos_iter {A : Type} (f : A -> A) p x :
  iter_pos f p x = Pos.iter f x p.
Proof.
  revert x. induction p as [p IH|p IH|]; intros x; cbn [iter_pos Pos.iter].
  - rewrite !IH. rewrite <- !Pos.iter_swap. reflexivity.
  - rewrite !IH. reflexivity.
  - reflexivity.
Qed.

Lemma shr_1_nonneg m r s :
  0 <= m ->
  shr_1 (Build_shr_record m r s) = Build_shr_record (m / 2) (Z.odd m) (r || s).
Proof.
  intros Hm. rewrite <- Z.div2_div.
  destruct m as [|[p|p|]|p]; try reflexivity. lia.
Qed.

Lemma shr_iter N p :
  0 <= N ->
  iter_pos shr_1 p (Build_shr_record N false false) = shifted N p.
Proof.
  intros HN. rewrite iter_pos_iter.
  induction p as [|p IH] using Pos.peano_ind.
  - cbn [Pos.iter]. rewrite shr_1_nonneg by exact HN.
    unfold shifted. cbn [orb].
    change (2 ^ 1) with 2. change (1 - 1) with 0. change (2 ^ 0) with 1.
    rewrite Z.mod_1_r, Z.bit0_odd. reflexivity.
  - rewrite Pos.iter_succ, IH. unfold shifted.
    assert (Hpow : 0 < 2 ^ Zpos p) by (apply Z.pow_pos_nonneg; lia).
    rewrite shr_1_nonneg by (apply Z.div_pos; lia).
    rewrite Pos2Z.inj_succ.
    replace (Z.succ (Zpos p) - 1) with (Zpos p) by lia.
    f_equal.
    + rewrite Z.div_div by lia. rewrite Z.pow_succ_r by lia.
      f_equal. lia.
    + rewrite Z.testbit_odd, Z.shiftr_div_pow2 by lia. reflexivity.
    + assert (Hq : 0 < 2 ^ (Zpos p - 1)) by (apply Z.pow_pos_nonneg; lia).
      replace (2 ^ Zpos p) with (2 ^ (Zpos p - 1) * 2).
      2:{ rewrite (Z.mul_comm _ 2), <- Z.pow_succ_r by lia. f_equal. lia. }
      rewrite Z.rem_mul_r by lia.
      rewrite Z.testbit_odd, Z.shiftr_div_pow2 by lia.
      rewrite Zmod_odd.
      pose proof (Z.mod_pos_bound N (2 ^ (Zpos p - 1)) Hq) as Hb.
      destruct (Z.odd (N / 2 ^ (Zpos p - 1))); cbn [orb].
      * symmetry. apply negb_true_iff. apply Z.eqb_neq. lia.
      * replace (N mod 2 ^ (Zpos p - 1) + 2 ^ (Zpos p - 1) * 0)
          with (N mod 2 ^ (Zpos p - 1)) by lia.
        reflexivity.
Qed.

Lemma Zdigits2_nonneg m : 0 <= Zdigits2 m.
Proof. destruct m; cbn; lia. Qed.

Lemma Zdigits2_upper m : 0 <= m -> m < 2 ^ Zdigits2 m.
Proof.
  intros Hm. destruct m as [|p|p]; cbn [Zdigits2]; [reflexivity| |lia].
  apply digits2_pos_bounds.
Qed.

Lemma digits2_pos_unique m d :
  2 ^ (d - 1) <= Zpos m < 2 ^ d -> Zpos (digits2_pos m) = d.
Proof.
  intros [Hlo Hhi]. pose proof (digits2_pos_bounds m) as [Blo Bhi].
  assert (Hd : 0 < d).
  { destruct (Z.ltb_spec 0 d) as [H|H]; [exact H|].
    destruct (Z.eq_dec d 0) as [->|Hn]; [cbn in Hhi; lia|].
    rewrite Z.pow_neg_r in Hhi by lia. lia. }
  destruct (Z.lt_trichotomy (Zpos (digits2_pos m)) d) as [H|[H|H]];
    [|exact H|]; exfalso.
  - assert (2 ^ Zpos (digits2_pos m) <= 2 ^ (d - 1))
      by (apply Z.pow_le_mono_r; lia).
    lia.
  - assert (2 ^ d <= 2 ^ (Zpos (digits2_pos m) - 1))
      by (apply Z.pow_le_mono_r; lia).
    lia.
Qed.

Lemma shr_m_iter_nonneg p r : 0 <= shr_m r -> 0 <= shr_m (iter_pos shr_1 p r).
Proof.
  intros H. rewrite iter_pos_iter.
  apply (Pos.iter_invariant p _ shr_1 (fun r => 0 <= shr_m r)); [|exact H].
  intros [m b s] Hm. cbn [shr_m] in Hm.
  rewrite shr_1_nonneg by exact Hm. cbn [shr_m].
  apply Z.div_pos; lia.
Qed.

Lemma shr_fexp_nonneg prec emax m e l :
  0 <= m -> 0 <= shr_m (fst (shr_fexp prec emax m e l)).
Proof.
  intros Hm. unfold shr_fexp, shr.
  assert (H0 : 0 <= shr_m (shr_record_of_loc m l))
    by (destruct l as [|[]]; exact Hm).
  destruct (fexp prec emax (Zdigits2 m + e) - e); cbn [fst]; try exact H0.
  apply shr_m_iter_nonneg. exact H0.
Qed.

Lemma round_nearest_even_nonneg m l : 0 <= m -> 0 <= round_nearest_even m l.
Proof.
  intros Hm. destruct l as [|[]]; cbn [round_nearest_even]; try lia.
  destruct (Z.even m); lia.
Qed.

(** The second shift of [binary_round_aux] leaves at most [prec] bits. *)
Lemma shr_fexp_exact_bounded prec emax m e r e' :
  0 < prec -> 0 <= m ->
  shr_fexp prec emax m e loc_Exact = (r, e') ->
  0 <= shr_m r < 2 ^ prec /\ emin prec emax <= e'.
Proof.
  intros Hprec Hm H. unfold shr_fexp, shr in H.
  cbn [shr_record_of_loc] in H.
  pose proof (Zdigits2_upper m Hm) as Hup.
  pose proof (Zdigits2_nonneg m) as Hd.
  set (d := Zdigits2 m) in *.
  assert (Hf1 : d + e - prec <= fexp prec emax (d + e))
    by (unfold fexp; lia).
  assert (Hf2 : emin prec emax <= fexp prec emax (d + e))
    by (unfold fexp; lia).
  destruct (fexp prec emax (d + e) - e) as [|p|p] eqn:En;
    injection H as <- <-; cbn [shr_m].
  - split; [|lia]. split; [exact Hm|].
    apply Z.lt_le_trans with (1 := Hup). apply Z.pow_le_mono_r; lia.
  - rewrite shr_iter by exact Hm. cbn [shifted shr_m].
    assert (Hpow : 0 < 2 ^ Zpos p) by (apply Z.pow_pos_nonneg; lia).
    split; [|lia]. split; [apply Z.div_pos; lia|].
    apply Z.div_lt_upper_bound; [exact Hpow|].
    rewrite <- Z.pow_add_r by lia.
    apply Z.lt_le_trans with (1 := Hup). apply Z.pow_le_mono_r; lia.
  - split; [|lia]. split; [exact Hm|].
    apply Z.lt_le_trans with (1 := Hup). apply Z.pow_le_mono_r; lia.
Qed.

Lemma binary_round_aux_fits prec emax sx mx ex lx :
  0 < prec -> 0 <= mx ->
  fits prec emax sx (binary_round_aux prec emax sx mx ex lx).
Proof.
  intros Hprec Hmx. unfold binary_round_aux.
  pose proof (shr_fexp_nonneg prec emax mx ex lx Hmx) as H1.
  destruct (shr_fexp prec emax mx ex lx) as [r1 e1]. cbn [fst] in H1.
  pose proof (round_nearest_even_nonneg (shr_m r1) (loc_of_shr_record r1) H1)
    as H2.
  destruct (shr_fexp prec emax
              (round_nearest_even (shr_m r1) (loc_of_shr_record r1)) e1
              loc_Exact) as [r2 e2] eqn:E2.
  apply shr_fexp_exact_bounded in E2; [|assumption..].
  destruct E2 as [[Hlo Hhi] He].
  destruct (shr_m r2) as [|m|m]; cbn [fits]; [reflexivity| |lia].
  destruct (Z.leb_spec e2 (emax - prec)); cbn [fits]; [|reflexivity].
  repeat split; lia.
Qed.

Lemma binary_round_fits prec emax sx mx ex :
  0 < prec -> fits prec emax sx (binary_round prec emax sx mx ex).
Proof.
  intros Hprec. unfold binary_round.
  destruct (shl_align mx ex _) as [mz ez].
  apply binary_round_aux_fits; lia.
Qed.

Lemma SFdiv_finite_fits prec emax sx mx ex my ey :
  0 < prec ->
  fits prec emax sx
    (SFdiv prec emax (S754_finite sx mx ex) (S754_finite false my ey)).
Proof.
  intros Hprec. cbn [SFdiv]. unfold SFdiv_core_binary.
  set (s := _ - _ - _).
  set (m' := match s with Z0 => _ | Zpos _ => _ | Zneg _ => _ end).
  assert (Hm' : 0 <= m').
  { unfold m'. destruct s; try lia. apply Z.shiftl_nonneg. lia. }
  pose proof (Z.div_pos m' (Zpos my) Hm' eq_refl) as Hq.
  unfold Z.div in Hq.
  destruct (Z.div_eucl m' (Zpos my)) as [q r]. cbn [fst] in Hq.
  rewrite xorb_false_r.
  apply binary_round_aux_fits; assumption.
Qed.

Lemma round32_fits neg m e hex :
  fits Strconv.prec32 Strconv.emax32 neg (Strconv.round32 neg m e hex).
Proof.
  unfold Strconv.round32.
  destruct m as [|p|p]; try reflexivity.
  destruct hex; [apply binary_round_fits; reflexivity|].
  destruct (0 <=? e).
  - apply binary_round_fits; reflexivity.
  - apply SFdiv_finite_fits; reflexivity.
Qed.

Lemma fits_binary32 sx f :
  fits Strconv.prec32 Strconv.emax32 sx f -> binary32 f.
Proof.
  destruct f as [s|s| |s m e]; cbn; try exact (fun _ => I).
  unfold Strconv.prec32, Strconv.emax32, emin. intros (_ & Hm & He).
  split; [exact Hm|lia].
Qed.

Lemma fits_sign_clear prec emax f :
  fits prec emax false f -> sign_clear f = true.
Proof.
  destruct f as [s|s| |s m e]; cbn; try tauto.
  - intros ->. reflexivity.
  - intros ->. reflexivity.
  - intros (-> & _). reflexivity.
Qed.

Lemma ParseFloat32_binary32 s f err :
  Strconv.ParseFloat32 s = (f, err) -> binary32 f.
Proof.
  unfold Strconv.ParseFloat32.
  destruct (Strconv.special s) as [[f0 n]|] eqn:Esp.
  - assert (Hf0 : binary32 f0).
    { unfold Strconv.special in Esp.
      destruct s as [|c s']; [discriminate Esp|].
      unfold Strconv.special_inf in Esp.
      repeat match type of Esp with
             | (if ?b then _ else _) = _ => destruct b
             | Some _ = Some _ => injection Esp as <- <-
             | None = Some _ => discriminate Esp
             end; exact I. }
    destruct (n =? String.length s)%nat; intros H; injection H as <- <-;
      [exact Hf0|exact I].
  - destruct (Strconv.readFloat s) as [r|].
    + destruct (Strconv.rf_rest r).
      * pose proof (round32_fits (Strconv.rf_neg r) (Strconv.rf_mantissa r)
                      (Strconv.rf_exp r) (Strconv.rf_hex r)) as Hf.
        apply fits_binary32 in Hf.
        destruct (Strconv.round32 _ _ _ _); intros H; injection H as <- <-;
          exact Hf.
      * intros H; injection H as <- <-. exact I.
    + intros H; injection H as <- <-. exact I.
Qed.

(** The sign that [readFloat] reads is the leading minus sign. *)
Lemma readFloat_neg c s r :
  Strconv.readFloat (String c s) = Some r ->
  Strconv.rf_neg r = Ascii.eqb c "-".
Proof.
  unfold Strconv.readFloat.
  set (neg := Ascii.eqb c "-").
  set (s1 := if (Ascii.eqb c "+" || neg)%bool then s else String c s).
  set (hex := match s1 with
              | String a (String b (String _ _)) => _
              | _ => false
              end).
  destruct (Strconv.readMantissa _ _ _) as [st s2].
  destruct (negb (Strconv.sawdigits st)); [discriminate|].
  intros H.
  repeat match type of H with
         | match ?x with _ => _ end = Some _ => destruct x
         | (if ?b then _ else _) = Some _ => destruct b
         | (let '(_, _) := ?x in _) = Some _ => destruct x
         | None = Some _ => discriminate H
         | Some _ = Some _ => injection H as <-
         end; reflexivity.
Qed.

Lemma ParseFloat32_sign_clear c s f err :
  Strconv.ParseFloat32 (String c s) = (f, err) ->
  Ascii.eqb c "-" = false ->
  sign_clear f = true.
Proof.
  intros H Hc. unfold Strconv.ParseFloat32 in H.
  destruct (Strconv.special (String c s)) as [[f0 n]|] eqn:Esp.
  - assert (Hf0 : sign_clear f0 = true).
    { unfold Strconv.special in Esp. rewrite Hc in Esp.
      unfold Strconv.special_inf in Esp.
      repeat match type of Esp with
             | (if ?b then _ else _) = _ => destruct b
             | Some _ = Some _ => injection Esp as <- <-
             | None = Some _ => discriminate Esp
             end; reflexivity. }
    destruct (n =? _)%nat; injection H as <- <-; [exact Hf0|reflexivity].
  - destruct (Strconv.readFloat (String c s)) as [r|] eqn:Er.
    + apply readFloat_neg in Er. rewrite Hc in Er.
      destruct (Strconv.rf_rest r).
      * rewrite Er in H.
        pose proof (round32_fits false (Strconv.rf_mantissa r)
                      (Strconv.rf_exp r) (Strconv.rf_hex r)) as Hf.
        apply fits_sign_clear in Hf.
        destruct (Strconv.round32 _ _ _ _); injection H as <- <-; exact Hf.
      * injection H as <- <-. reflexivity.
    + injection H as <- <-. reflexivity.
Qed.

Lemma truncate_sign_clear f z :
  sign_clear f = true -> Conv.truncate f = Some z -> 0 <= z.
Proof.
  destruct f as [s|s| |s m e]; cbn [Conv.truncate sign_clear];
    try discriminate.
  - intros _ H. injection H as <-. lia.
  - intros Hs H. apply negb_true_iff in Hs. subst s.
    assert (Ha : 0 <= if 0 <=? e then Zpos m * 2 ^ e else Zpos m / 2 ^ (- e)).
    { destruct (Z.leb_spec 0 e).
      + apply Z.mul_nonneg_nonneg; [lia|]. apply Z.pow_nonneg. lia.
      + apply Z.div_pos; [lia|]. apply Z.pow_pos_nonneg; lia. }
    injection H as <-. exact Ha.
Qed.

Lemma mul64_sign_clear f mc ec :
  sign_clear f = true ->
  sign_clear (Conv.mul64 f (S754_finite false mc ec)) = true.
Proof.
  unfold Conv.mul64.
  destruct f as [s|s| |s m e]; cbn [SFmul sign_clear]; intros Hs;
    try (rewrite xorb_false_r; exact Hs); try reflexivity.
  apply negb_true_iff in Hs. subst s. cbn [xorb].
  apply (fits_sign_clear Strconv.prec64 Strconv.emax64).
  apply binary_round_aux_fits; [reflexivity|lia].
Qed.

Lemma Zdigits2_unique x d :
  0 < x -> 2 ^ (d - 1) <= x < 2 ^ d -> Zdigits2 x = d.
Proof.
  intros Hx H. destruct x as [|p|p]; try lia.
  cbn [Zdigits2]. apply digits2_pos_unique. exact H.
Qed.

(** Shifting out zeros is exact. *)
Lemma shr_exact q n e j :
  0 <= q -> 0 <= j <= n ->
  shr (Build_shr_record (q * 2 ^ n) false false) e j
  = (Build_shr_record (q * 2 ^ (n - j)) false false, e + j).
Proof.
  intros Hq Hj. unfold shr. destruct j as [|p|p]; try lia.
  - rewrite Z.sub_0_r, Z.add_0_r. reflexivity.
  - assert (H2 : 0 < 2 ^ n) by (apply Z.pow_pos_nonneg; lia).
    rewrite shr_iter by (apply Z.mul_nonneg_nonneg; lia).
    unfold shifted. f_equal. f_equal.
    + replace n with ((n - Zpos p) + Zpos p) at 1 by lia.
      rewrite Z.pow_add_r by lia. rewrite Z.mul_assoc.
      apply Z.div_mul. apply Z.pow_nonzero; lia.
    + apply Z.mul_pow2_bits_low. lia.
    + apply negb_false_iff. apply Z.eqb_eq.
      replace n with ((n - (Zpos p - 1)) + (Zpos p - 1)) by lia.
      rewrite Z.pow_add_r by lia. rewrite Z.mul_assoc.
      apply Z.mod_mul. apply Z.pow_nonzero; lia.
Qed.

(** The float64 product of a binary32 number and a power of two between
    2^10 and 2^30 is that number with its exponent moved: no bit is lost. *)
Lemma mul64_pow2 s m e ek :
  Zpos m < 2 ^ 24 -> -149 <= e <= 104 -> -42 <= ek <= -22 ->
  exists m1 t,
    Conv.mul64 (S754_finite s m e) (S754_finite false 4503599627370496 ek)
    = S754_finite s m1 (e + ek + 52 - t)
    /\ Zpos m1 = Zpos m * 2 ^ t /\ 29 <= t <= 52.
Proof.
  intros Hm He Hek.
  pose proof (digits2_pos_bounds m) as [Dlo Dhi].
  set (dm := Zpos (digits2_pos m)) in *.
  assert (Hdm : 1 <= dm <= 24).
  { split; [unfold dm; lia|].
    destruct (Z.leb_spec dm 24) as [H|H]; [exact H|].
    assert (2 ^ 24 <= 2 ^ (dm - 1)) by (apply Z.pow_le_mono_r; lia). lia. }
  unfold Conv.mul64. cbn [SFmul]. rewrite xorb_false_r.
  unfold binary_round_aux, shr_fexp.
  rewrite Pos2Z.inj_mul.
  change (Zpos 4503599627370496) with (2 ^ 52).
  assert (Hd1 : Zdigits2 (Zpos m * 2 ^ 52) = dm + 52).
  { apply Zdigits2_unique; [lia|].
    replace (dm + 52 - 1) with (dm - 1 + 52) by lia.
    rewrite !Z.pow_add_r by lia. split.
    - apply Z.mul_le_mono_nonneg_r; lia.
    - apply Z.mul_lt_mono_pos_r; lia. }
  rewrite Hd1.
  assert (Hf1 : fexp Strconv.prec64 Strconv.emax64 (dm + 52 + (e + ek))
                - (e + ek) = dm - 1).
  { unfold fexp, emin, Strconv.prec64, Strconv.emax64. lia. }
  rewrite Hf1. cbn [shr_record_of_loc].
  rewrite shr_exact by lia.
  cbn [shr_m loc_of_shr_record round_nearest_even].
  set (t := 52 - (dm - 1)).
  assert (Hpos : 0 < Zpos m * 2 ^ t).
  { apply Z.mul_pos_pos; [lia|]. apply Z.pow_pos_nonneg; lia. }
  assert (Hd2 : Zdigits2 (Zpos m * 2 ^ t) = 53).
  { apply Zdigits2_unique; [exact Hpos|].
    assert (Ht : 0 <= t) by (unfold t; lia).
    assert (H2t : 0 < 2 ^ t) by (apply Z.pow_pos_nonneg; lia).
    replace (53 - 1) with (dm - 1 + t) by (unfold t; lia).
    replace (2 ^ 53) with (2 ^ (dm + t)) by (f_equal; unfold t; lia).
    rewrite !Z.pow_add_r by lia. split.
    - apply Z.mul_le_mono_nonneg_r; lia.
    - apply Z.mul_lt_mono_pos_r; lia. }
  rewrite Hd2.
  assert (Hf2 : fexp Strconv.prec64 Strconv.emax64 (53 + (e + ek + (dm - 1)))
                - (e + ek + (dm - 1)) = 0).
  { unfold fexp, emin, Strconv.prec64, Strconv.emax64. lia. }
  rewrite Hf2. cbn [shr shr_m].
  destruct (Zpos m * 2 ^ t) as [|m1|m1] eqn:Em1; try lia.
  destruct (Z.leb_spec (e + ek + (dm - 1))
              (Strconv.emax64 - Strconv.prec64)) as [Hle|Hgt].
  - exists m1, t. split; [|split; [symmetry; exact Em1|unfold t; lia]].
    f_equal. unfold t. lia.
  - unfold Strconv.emax64, Strconv.prec64 in Hgt. lia.
Qed.

(** ... so the integer part of the product is read off the binary32
    number. *)
Lemma truncate_mul64_pow2 s m e ek :
  Zpos m < 2 ^ 24 -> -149 <= e <= 104 -> -42 <= ek <= -22 ->
  Conv.truncate
    (Conv.mul64 (S754_finite s m e) (S754_finite false 4503599627370496 ek))
  = Conv.truncate (S754_finite s m (e + (ek + 52))).
Proof.
  intros Hm He Hek.
  destruct (mul64_pow2 s m e ek Hm He Hek) as (m1 & t & -> & Hm1 & Ht).
  unfold Conv.truncate. rewrite Hm1. f_equal.
  assert (Heq : (if 0 <=? e + ek + 52 - t
                 then Zpos m * 2 ^ t * 2 ^ (e + ek + 52 - t)
                 else Zpos m * 2 ^ t / 2 ^ (- (e + ek + 52 - t)))
                = if 0 <=? e + (ek + 52)
                  then Zpos m * 2 ^ (e + (ek + 52))
                  else Zpos m / 2 ^ (- (e + (ek + 52)))).
  { destruct (Z.leb_spec 0 (e + ek + 52 - t)) as [H1|H1];
      destruct (Z.leb_spec 0 (e + (ek + 52))) as [H2|H2]; try lia.
    - rewrite <- Z.mul_assoc, <- Z.pow_add_r by lia. f_equal. f_equal. lia.
    - replace t with (e + (ek + 52) + - (e + ek + 52 - t)) at 1 by lia.
      rewrite Z.pow_add_r by lia. rewrite Z.mul_assoc.
      apply Z.div_mul. apply Z.pow_nonzero; lia.
    - replace (- (e + ek + 52 - t)) with (- (e + (ek + 52)) + t) by lia.
      rewrite Z.pow_add_r by lia.
      apply Z.div_mul_cancel_r; apply Z.pow_nonzero; lia. }
  rewrite Heq. reflexivity.
Qed.

(** ** [ParseFloat] rounds to the nearest binary32 number

    The right shifts of [binary_round_aux] keep, in the round and the
    sticky bit, the place of what they drop: a record stands for a
    number [m + rho / D], and [round_nearest_even] picks an integer
    nearest to it.  The binary32 numbers around are multiples of the
    unit of that integer, or lie below the binade. *)

Lemma iter_xO p q : Zpos (Pos.iter xO p q) = Zpos p * 2 ^ Zpos q.
Proof.
  induction q as [|q IH] using Pos.peano_ind.
  - cbn [Pos.iter]. rewrite Pos2Z.inj_xO. change (2 ^ 1) with 2. lia.
  - rewrite Pos.iter_succ, Pos2Z.inj_xO, IH, Pos2Z.inj_succ.
    rewrite Z.pow_succ_r by lia. lia.
Qed.

Lemma loc_of_record_of_loc m l :
  loc_of_shr_record (shr_record_of_loc m l) = l
  /\ shr_m (shr_record_of_loc m l) = m.
Proof. destruct l as [|[]]; split; reflexivity. Qed.

(** One right shift of a record that stands for [m + rho / D]. *)
Lemma shr_1_frac rec rho D :
  0 <= shr_m rec -> 0 <= rho < D ->
  loc_of_shr_record rec = loc_frac rho D ->
  shr_m (shr_1 rec) = shr_m rec / 2
  /\ loc_of_shr_record (shr_1 rec)
     = loc_frac (shr_m rec mod 2 * D + rho) (2 * D).
Proof.
  destruct rec as [m r s]. cbn [shr_m]. intros Hm Hrho Hloc.
  rewrite shr_1_nonneg by exact Hm. cbn [shr_m]. split; [reflexivity|].
  assert (Hs : (r || s)%bool = negb (rho =? 0)).
  { unfold loc_frac in Hloc. destruct (rho =? 0); destruct r, s;
      cbn in Hloc |- *; congruence. }
  rewrite Hs. rewrite Zmod_odd. unfold loc_frac.
  destruct (Z.odd m); destruct (Z.eqb_spec rho 0) as [H0|H0];
    cbn [negb loc_of_shr_record].
  - subst rho.
    destruct (Z.eqb_spec (1 * D + 0) 0); [lia|].
    replace (2 * (1 * D + 0) ?= 2 * D) with Eq
      by (symmetry; apply Z.compare_eq_iff; lia).
    reflexivity.
  - destruct (Z.eqb_spec (1 * D + rho) 0); [lia|].
    replace (2 * (1 * D + rho) ?= 2 * D) with Gt
      by (symmetry; apply Z.compare_gt_iff; lia).
    reflexivity.
  - subst rho. reflexivity.
  - destruct (Z.eqb_spec (0 * D + rho) 0); [lia|].
    replace (2 * (0 * D + rho) ?= 2 * D) with Lt
      by (symmetry; apply Z.compare_lt_iff; lia).
    reflexivity.
Qed.

Lemma shr_iter_frac p rec rho D :
  0 <= shr_m rec -> 0 <= rho < D ->
  loc_of_shr_record rec = loc_frac rho D ->
  shr_m (iter_pos shr_1 p rec) = shr_m rec / 2 ^ Zpos p
  /\ loc_of_shr_record (iter_pos shr_1 p rec)
     = loc_frac (shr_m rec mod 2 ^ Zpos p * D + rho) (2 ^ Zpos p * D).
Proof.
  intros Hm Hrho Hloc. rewrite iter_pos_iter.
  induction p as [|p IH] using Pos.peano_ind.
  - cbn [Pos.iter]. change (2 ^ 1) with 2.
    apply shr_1_frac; assumption.
  - rewrite Pos.iter_succ. destruct IH as [IHm IHl].
    assert (Hpow : 0 < 2 ^ Zpos p) by (apply Z.pow_pos_nonneg; lia).
    pose proof (Z.mod_pos_bound (shr_m rec) (2 ^ Zpos p) Hpow) as Hb.
    destruct (shr_1_frac (Pos.iter shr_1 rec p)
                (shr_m rec mod 2 ^ Zpos p * D + rho) (2 ^ Zpos p * D))
      as [Sm Sl].
    { rewrite IHm. apply Z.div_pos; lia. }
    { split; [apply Z.add_nonneg_nonneg; [apply Z.mul_nonneg_nonneg|]; lia|].
      assert (shr_m rec mod 2 ^ Zpos p * D <= (2 ^ Zpos p - 1) * D)
        by (apply Z.mul_le_mono_nonneg_r; lia).
      lia. }
    { exact IHl. }
    rewrite Sm, Sl, IHm. rewrite Pos2Z.inj_succ, Z.pow_succ_r by lia.
    split.
    + rewrite Z.div_div by lia. f_equal. lia.
    + f_equal; [|lia].
      rewrite (Z.mul_comm 2 (2 ^ Zpos p)).
      rewrite (Z.rem_mul_r (shr_m rec) (2 ^ Zpos p) 2) by lia.
      lia.
Qed.

Lemma fexp32 x :
  fexp Strconv.prec32 Strconv.emax32 x = Z.max (x - 24) (-149).
Proof. reflexivity. Qed.

(** The first shift of [binary_round_aux], the exponent too small. *)
Lemma shr_fexp_frac mx ex rho D :
  0 <= mx -> 0 <= rho < D ->
  ex <= Z.max (Zdigits2 mx + ex - 24) (-149) ->
  exists rec,
    shr_fexp Strconv.prec32 Strconv.emax32 mx ex (loc_frac rho D)
    = (rec, Z.max (Zdigits2 mx + ex - 24) (-149))
    /\ shr_m rec = mx / 2 ^ (Z.max (Zdigits2 mx + ex - 24) (-149) - ex)
    /\ loc_of_shr_record rec
       = loc_frac
           (mx mod 2 ^ (Z.max (Zdigits2 mx + ex - 24) (-149) - ex) * D + rho)
           (2 ^ (Z.max (Zdigits2 mx + ex - 24) (-149) - ex) * D).
Proof.
  intros Hmx Hrho He. unfold shr_fexp, shr. rewrite fexp32.
  set (e1 := Z.max (Zdigits2 mx + ex - 24) (-149)) in *.
  destruct (loc_of_record_of_loc mx (loc_frac rho D)) as [Hl Hm].
  destruct (e1 - ex) as [|p|p] eqn:En; try lia.
  - exists (shr_record_of_loc mx (loc_frac rho D)).
    split; [f_equal; lia|]. rewrite Hm, Hl.
    change (2 ^ 0) with 1. rewrite Z.div_1_r, Z.mod_1_r.
    split; [reflexivity|]. f_equal; lia.
  - exists (iter_pos shr_1 p (shr_record_of_loc mx (loc_frac rho D))).
    split; [f_equal; lia|].
    rewrite <- Hm at 2 4.
    apply shr_iter_frac; [rewrite Hm; exact Hmx|exact Hrho|exact Hl].
Qed.

(** [round_nearest_even] gives the integer nearest to [m + rho / D]. *)
Lemma round_nearest_even_frac m rho D k :
  0 <= rho < D ->
  m <= round_nearest_even m (loc_frac rho D) <= m + 1
  /\ Z.abs (m * D + rho - round_nearest_even m (loc_frac rho D) * D)
     <= Z.abs (m * D + rho - k * D).
Proof.
  intros Hrho.
  assert (Hk : k <= m \/ m + 1 <= k) by lia.
  assert (Hlow : k <= m -> k * D <= m * D)
    by (intros; apply Z.mul_le_mono_nonneg_r; lia).
  assert (Hhigh : m + 1 <= k -> (m + 1) * D <= k * D)
    by (intros; apply Z.mul_le_mono_nonneg_r; lia).
  unfold loc_frac, round_nearest_even.
  destruct (Z.eqb_spec rho 0) as [H0|H0].
  - split; [lia|]. subst rho. lia.
  - destruct (Z.compare_spec (2 * rho) D) as [He|Hl|Hg].
    + destruct (Z.even m); (split; [lia|]); lia.
    + split; lia.
    + split; lia.
Qed.

Lemma Zdigits2_le m p : 0 <= m < 2 ^ p -> 0 <= p -> Zdigits2 m <= p.
Proof.
  intros [Hm Hlt] Hp. destruct m as [|q|q]; cbn [Zdigits2]; try lia.
  pose proof (digits2_pos_bounds q) as [Dlo _].
  destruct (Z.leb_spec (Zpos (digits2_pos q)) p) as [H|H]; [exact H|].
  assert (2 ^ p <= 2 ^ (Zpos (digits2_pos q) - 1))
    by (apply Z.pow_le_mono_r; lia).
  lia.
Qed.

(** The second shift of [binary_round_aux]: it moves the carry of the
    rounding, if there is one, and loses nothing. *)
Lemma shr_fexp_carry m2 e1 :
  0 <= m2 <= 2 ^ 24 -> -149 <= e1 ->
  exists rec e3,
    shr_fexp Strconv.prec32 Strconv.emax32 m2 e1 loc_Exact = (rec, e3)
    /\ e1 <= e3 /\ shr_m rec * 2 ^ (e3 - e1) = m2
    /\ 0 <= shr_m rec < 2 ^ 24.
Proof.
  intros Hm He. unfold shr_fexp, shr. rewrite fexp32.
  cbn [shr_record_of_loc].
  destruct (Z.eq_dec m2 (2 ^ 24)) as [->|Hne].
  - change (Zdigits2 (2 ^ 24)) with 25.
    replace (Z.max (25 + e1 - 24) (-149) - e1) with 1 by lia.
    exists (iter_pos shr_1 1 (Build_shr_record (2 ^ 24) false false)),
      (e1 + 1).
    split; [reflexivity|]. split; [lia|].
    replace (e1 + 1 - e1) with 1 by lia. cbn. split; lia.
  - assert (Hd : Zdigits2 m2 <= 24) by (apply Zdigits2_le; lia).
    exists (Build_shr_record m2 false false), e1.
    split.
    + destruct (Z.max (Zdigits2 m2 + e1 - 24) (-149) - e1) as [|p|p] eqn:En;
        try reflexivity. lia.
    + cbn [shr_m]. rewrite Z.sub_diag. change (2 ^ 0) with 1.
      split; [lia|]. split; lia.
Qed.

(** Among the multiples of [2^b] with fewer than 24 bits, and whatever
    [b], none is nearer to [T / D1 * 2^a] than [m2 * 2^a], when [m2] is the
    integer nearest to [T / D1] and [T / D1] has 24 bits unless [a] is 0. *)
Lemma grid_nearest T D1 m2 a m' b :
  0 < D1 -> 0 <= a -> 0 <= b -> 0 <= m' < 2 ^ 24 ->
  (0 < a -> 2 ^ 23 * D1 <= T) ->
  (forall k, Z.abs (T - m2 * D1) <= Z.abs (T - k * D1)) ->
  Z.abs (T * 2 ^ a - m2 * 2 ^ a * D1)
  <= Z.abs (T * 2 ^ a - m' * 2 ^ b * D1).
Proof.
  intros HD Ha Hb Hm' Hnorm Hnear.
  assert (H2a : 0 < 2 ^ a) by (apply Z.pow_pos_nonneg; lia).
  assert (Hscale : forall k,
             Z.abs (T * 2 ^ a - k * 2 ^ a * D1)
             = Z.abs (T - k * D1) * 2 ^ a).
  { intros k. replace (T * 2 ^ a - k * 2 ^ a * D1)
      with ((T - k * D1) * 2 ^ a) by ring.
    rewrite Z.abs_mul, (Z.abs_eq (2 ^ a)) by lia. reflexivity. }
  rewrite Hscale.
  destruct (Z.le_gt_cases a b) as [Hab|Hab].
  - replace (m' * 2 ^ b) with (m' * 2 ^ (b - a) * 2 ^ a).
    2:{ rewrite <- Z.mul_assoc, <- Z.pow_add_r by lia. do 2 f_equal. lia. }
    rewrite Hscale. apply Z.mul_le_mono_nonneg_r; [lia|]. apply Hnear.
  - specialize (Hnorm ltac:(lia)).
    pose proof (Hnear (2 ^ 23)) as H23.
    rewrite (Z.abs_eq (T - 2 ^ 23 * D1)) in H23 by lia.
    assert (H2b : 0 < 2 ^ b) by (apply Z.pow_pos_nonneg; lia).
    assert (Hg : m' * 2 ^ b < 2 ^ 23 * 2 ^ a).
    { replace (2 ^ a) with (2 * 2 ^ (a - 1))
        by (rewrite <- Z.pow_succ_r by lia; f_equal; lia).
      assert (2 ^ b <= 2 ^ (a - 1)) by (apply Z.pow_le_mono_r; lia).
      assert (m' * 2 ^ b <= (2 ^ 24 - 1) * 2 ^ b)
        by (apply Z.mul_le_mono_nonneg_r; lia).
      assert ((2 ^ 24 - 1) * 2 ^ b <= (2 ^ 24 - 1) * 2 ^ (a - 1))
        by (apply Z.mul_le_mono_nonneg_l; lia).
      lia. }
    assert (Hg' : m' * 2 ^ b * D1 <= 2 ^ 23 * 2 ^ a * D1)
      by (apply Z.mul_le_mono_nonneg_r; lia).
    assert (Ht : 2 ^ 23 * D1 * 2 ^ a <= T * 2 ^ a)
      by (apply Z.mul_le_mono_nonneg_r; lia).
    assert (Hl : Z.abs (T - m2 * D1) * 2 ^ a
                 <= (T - 2 ^ 23 * D1) * 2 ^ a)
      by (apply Z.mul_le_mono_nonneg_r; lia).
    rewrite (Z.abs_eq (T * 2 ^ a - m' * 2 ^ b * D1)) by lia. lia.
Qed.

(** Cancelling the denominators: from the scale of the rounding to the
    scale of the number written. *)
Lemma distance_transfer A D1 N Dd R G :
  0 < D1 -> 0 < Dd ->
  A * Dd = N * D1 ->
  Z.abs (A - R * D1) <= Z.abs (A - G * D1) ->
  Z.abs (N - R * Dd) <= Z.abs (N - G * Dd).
Proof.
  intros HD1 HDd Heq H.
  apply (Z.mul_le_mono_pos_l _ _ D1 HD1).
  rewrite <- (Z.abs_eq D1) at 1 2 by lia. rewrite <- !Z.abs_mul.
  replace (D1 * (N - R * Dd)) with ((A - R * D1) * Dd)
    by (rewrite Z.mul_sub_distr_r, Heq; ring).
  replace (D1 * (N - G * Dd)) with ((A - G * D1) * Dd)
    by (rewrite Z.mul_sub_distr_r, Heq; ring).
  rewrite !Z.abs_mul, (Z.abs_eq Dd) by lia.
  apply Z.mul_le_mono_nonneg_r; lia.
Qed.

(** [binary_round_aux] at the precision of binary32, on [mx + rho / D]
    units of [2^ex] that stand for [N / Dd]: the finite binary32 number
    nearest to [N / Dd], or an infinity. *)
Lemma binary_round_aux_nearest sx mx ex rho D N Dd :
  0 <= mx -> 0 <= rho < D -> 0 < Dd ->
  ex <= Z.max (Zdigits2 mx + ex - 24) (-149) ->
  (mx * D + rho) * 2 ^ (Z.max (Zdigits2 mx + ex - 24) (-149) + 149) * Dd
  = N * 2 ^ 149
    * (2 ^ (Z.max (Zdigits2 mx + ex - 24) (-149) - ex) * D) ->
  binary_round_aux Strconv.prec32 Strconv.emax32 sx mx ex (loc_frac rho D)
  = S754_infinity sx
  \/ (nearest32 N Dd
        (binary_round_aux Strconv.prec32 Strconv.emax32 sx mx ex
           (loc_frac rho D))
      /\ sign_of (binary_round_aux Strconv.prec32 Strconv.emax32 sx mx ex
                    (loc_frac rho D)) = Some sx).
Proof.
  intros Hmx Hrho HDd He Heq.
  pose proof (Zdigits2_upper mx Hmx) as Hup.
  pose proof (Zdigits2_nonneg mx) as Hd0.
  set (d := Zdigits2 mx) in *.
  set (e1 := Z.max (d + ex - 24) (-149)) in *.
  destruct (shr_fexp_frac mx ex rho D Hmx Hrho He) as (rec1 & E1 & Hm1 & Hl1).
  fold d in E1, Hm1, Hl1. fold e1 in E1, Hm1, Hl1.
  unfold binary_round_aux. rewrite E1, Hl1.
  set (n := e1 - ex) in *.
  assert (Hn : 0 <= n) by (unfold n; lia).
  assert (H2n : 0 < 2 ^ n) by (apply Z.pow_pos_nonneg; lia).
  set (D1 := 2 ^ n * D) in *.
  set (rho1 := mx mod 2 ^ n * D + rho) in *.
  set (m1 := shr_m rec1) in *.
  assert (HD1 : 0 < D1) by (unfold D1; apply Z.mul_pos_pos; lia).
  pose proof (Z.mod_pos_bound mx (2 ^ n) H2n) as Hmod.
  assert (Hrho1 : 0 <= rho1 < D1).
  { unfold rho1, D1. split.
    - apply Z.add_nonneg_nonneg; [apply Z.mul_nonneg_nonneg|]; lia.
    - assert (mx mod 2 ^ n * D <= (2 ^ n - 1) * D)
        by (apply Z.mul_le_mono_nonneg_r; lia).
      lia. }
  assert (HT : m1 * D1 + rho1 = mx * D + rho).
  { unfold rho1, D1. rewrite Hm1.
    rewrite (Z.div_mod mx (2 ^ n)) at 3 by lia. ring. }
  assert (Hm1lo : 0 <= m1) by (rewrite Hm1; apply Z.div_pos; lia).
  assert (Hm1hi : m1 < 2 ^ 24).
  { rewrite Hm1. apply Z.div_lt_upper_bound; [exact H2n|].
    rewrite <- Z.pow_add_r by lia.
    apply Z.lt_le_trans with (1 := Hup). apply Z.pow_le_mono_r; lia. }
  assert (Hnorm : 0 < e1 + 149 -> 2 ^ 23 * D1 <= m1 * D1 + rho1).
  { intros Hpos.
    assert (En : n = d - 24) by lia.
    assert (Hmx0 : 0 < mx).
    { destruct (Z.eq_dec mx 0) as [H0|H0]; [|lia].
      unfold d in En. rewrite H0 in En. cbn in En. lia. }
    assert (Hlo : 2 ^ (d - 1) <= mx).
    { unfold d. destruct mx as [|p|p]; try lia.
      apply digits2_pos_bounds. }
    assert (2 ^ 23 <= m1).
    { rewrite Hm1. apply Z.div_le_lower_bound; [exact H2n|].
      rewrite <- Z.pow_add_r by lia.
      replace (n + 23) with (d - 1) by lia. exact Hlo. }
    assert (2 ^ 23 * D1 <= m1 * D1)
      by (apply Z.mul_le_mono_nonneg_r; lia).
    lia. }
  set (m2 := round_nearest_even m1 (loc_frac rho1 D1)).
  assert (Hm2 : m1 <= m2 <= m1 + 1)
    by (apply (round_nearest_even_frac m1 rho1 D1 0 Hrho1)).
  assert (Hnear : forall k,
             Z.abs (m1 * D1 + rho1 - m2 * D1)
             <= Z.abs (m1 * D1 + rho1 - k * D1))
    by (intros k; apply (round_nearest_even_frac m1 rho1 D1 k Hrho1)).
  destruct (shr_fexp_carry m2 e1) as (rec3 & e3 & E3 & He3 & Hm3 & Hb3);
    [lia|unfold e1; lia|].
  rewrite E3.
  assert (He1 : 0 <= e1 + 149) by (unfold e1; lia).
  (* the magnitude of the result in units of 2^-149 *)
  assert (Hval : shr_m rec3 * 2 ^ (e3 + 149) = m2 * 2 ^ (e1 + 149)).
  { rewrite <- Hm3. rewrite <- Z.mul_assoc, <- Z.pow_add_r by lia.
    do 2 f_equal. lia. }
  assert (Hall : forall g, finite32 g ->
             Z.abs (N * 2 ^ 149 - m2 * 2 ^ (e1 + 149) * Dd)
             <= distance32 N Dd g).
  { intros g Hg. unfold distance32.
    apply (distance_transfer ((m1 * D1 + rho1) * 2 ^ (e1 + 149)) D1);
      [exact HD1|exact HDd|rewrite HT; exact Heq|].
    destruct g as [s|s| |s m' e']; cbn [finite32 scaled32] in *;
      try contradiction.
    - replace (0 * D1) with (0 * 2 ^ 0 * D1) by lia.
      apply grid_nearest; try assumption; lia.
    - destruct Hg as [Hg1 Hg2].
      apply grid_nearest; try assumption; lia. }
  destruct (shr_m rec3) as [|m3|m3] eqn:Em3; try lia.
  - right. split; [|reflexivity]. split; [exact I|].
    intros g Hg. unfold distance32 at 1. cbn [scaled32].
    replace (0 * Dd) with (m2 * 2 ^ (e1 + 149) * Dd) by (rewrite <- Hval; lia).
    apply Hall. exact Hg.
  - unfold Strconv.emax32, Strconv.prec32.
    destruct (Z.leb_spec e3 (128 - 24)) as [Hle|Hgt]; [right|left; reflexivity].
    split; [|reflexivity]. split.
    + cbn [finite32]. split; [lia|lia].
    + intros g Hg. unfold distance32 at 1. cbn [scaled32].
      rewrite Hval. apply Hall. exact Hg.
Qed.

Lemma pow2_prod a b c d :
  0 <= a -> 0 <= b -> 0 <= c -> 0 <= d -> a + b = c + d ->
  2 ^ a * 2 ^ b = 2 ^ c * 2 ^ d.
Proof.
  intros. rewrite <- !Z.pow_add_r by lia. f_equal. lia.
Qed.

Lemma Zdigits2_shift p q :
  Zdigits2 (Zpos p * 2 ^ Zpos q) = Zpos (digits2_pos p) + Zpos q.
Proof.
  pose proof (digits2_pos_bounds p) as [Dlo Dhi].
  assert (0 < 2 ^ Zpos q) by (apply Z.pow_pos_nonneg; lia).
  apply Zdigits2_unique; [lia|].
  replace (Zpos (digits2_pos p) + Zpos q - 1)
    with (Zpos (digits2_pos p) - 1 + Zpos q) by lia.
  rewrite !Z.pow_add_r by lia. split.
  - apply Z.mul_le_mono_nonneg_r; lia.
  - apply Z.mul_lt_mono_pos_r; lia.
Qed.

(** [binary_round] at the precision of binary32 on [p * 2^ex]. *)
Lemma binary_round_nearest sx p ex :
  binary_round Strconv.prec32 Strconv.emax32 sx p ex = S754_infinity sx
  \/ (nearest32 (fst (prefix_value (Zpos p) ex true))
        (snd (prefix_value (Zpos p) ex true))
        (binary_round Strconv.prec32 Strconv.emax32 sx p ex)
      /\ sign_of (binary_round Strconv.prec32 Strconv.emax32 sx p ex)
         = Some sx).
Proof.
  unfold binary_round. rewrite fexp32.
  set (d := Zpos (digits2_pos p)).
  set (F := Z.max (d + ex - 24) (-149)).
  assert (HF : -149 <= F) by (unfold F; lia).
  assert (Hfrac : 0 < snd (prefix_value (Zpos p) ex true)
                  /\ fst (prefix_value (Zpos p) ex true) * 2 ^ Z.max (- ex) 0
                     = Zpos p * 2 ^ Z.max ex 0
                       * snd (prefix_value (Zpos p) ex true)).
  { unfold prefix_value. cbv beta zeta iota.
    destruct (Z.leb_spec 0 ex) as [H|H]; cbn [fst snd].
    - rewrite Z.max_r, Z.max_l by lia. split; [lia|].
      rewrite Z.pow_0_r. ring.
    - rewrite Z.max_l, Z.max_r by lia. split; [apply Z.pow_pos_nonneg; lia|].
      rewrite Z.pow_0_r. ring. }
  destruct Hfrac as [HDd Hfrac].
  set (N := fst (prefix_value (Zpos p) ex true)) in *.
  set (Dd := snd (prefix_value (Zpos p) ex true)) in *.
  assert (Hmain : forall mz ez,
             ez <= ex -> -149 <= F ->
             Zpos mz = Zpos p * 2 ^ (ex - ez) ->
             Z.max (Zdigits2 (Zpos mz) + ez - 24) (-149) = F ->
             ez <= F ->
             binary_round_aux Strconv.prec32 Strconv.emax32 sx (Zpos mz) ez
               loc_Exact = S754_infinity sx
             \/ (nearest32 N Dd
                   (binary_round_aux Strconv.prec32 Strconv.emax32 sx
                      (Zpos mz) ez loc_Exact)
                 /\ sign_of
                      (binary_round_aux Strconv.prec32 Strconv.emax32 sx
                         (Zpos mz) ez loc_Exact) = Some sx)).
  { intros mz ez Hez _ Hmz HeF Hle.
    change loc_Exact with (loc_frac 0 1).
    apply binary_round_aux_nearest; try lia. rewrite HeF.
    rewrite Hmz.
    assert (H1 : 2 ^ (ex - ez) * 2 ^ (F + 149) * 2 ^ Z.max (- ex) 0
                 = 2 ^ 149 * 2 ^ (F - ez) * 2 ^ Z.max ex 0).
    { rewrite <- !Z.pow_add_r by lia. f_equal. lia. }
    assert (H2 : 0 < 2 ^ Z.max (- ex) 0) by (apply Z.pow_pos_nonneg; lia).
    apply (Z.mul_cancel_r _ _ (2 ^ Z.max (- ex) 0)); [lia|].
    transitivity (Zpos p * Dd
                  * (2 ^ (ex - ez) * 2 ^ (F + 149) * 2 ^ Z.max (- ex) 0));
      [ring|].
    rewrite H1.
    transitivity (N * 2 ^ Z.max (- ex) 0 * (2 ^ 149 * 2 ^ (F - ez)));
      [rewrite Hfrac|]; ring. }
  unfold shl_align.
  destruct (F - ex) as [|q|q] eqn:Eq.
  - apply Hmain; try lia.
    + rewrite Z.sub_diag. cbn. lia.
    + cbn [Zdigits2]. reflexivity.
  - apply Hmain; try lia.
    + rewrite Z.sub_diag. cbn. lia.
    + cbn [Zdigits2]. reflexivity.
  - apply Hmain; try lia.
    + rewrite iter_xO. do 2 f_equal. lia.
    + rewrite iter_xO, Zdigits2_shift. fold d. unfold F. f_equal. lia.
Qed.

Lemma new_location_frac D r :
  0 < D -> new_location D r = loc_frac r D.
Proof.
  intros HD. unfold new_location, new_location_even, new_location_odd,
    loc_frac.
  destruct (Z.even D) eqn:Ev; [reflexivity|].
  destruct (r =? 0); [reflexivity|]. f_equal.
  assert (Hodd : Z.odd D = true) by (rewrite <- Z.negb_even, Ev; reflexivity).
  apply Z.odd_spec in Hodd. destruct Hodd as [h Hh].
  destruct (Z.compare_spec (2 * r + 1) D), (Z.compare_spec (2 * r) D);
    try reflexivity; lia.
Qed.

Lemma Zdigits2_lower k x : 0 <= k -> 2 ^ k <= x -> k + 1 <= Zdigits2 x.
Proof.
  intros Hk Hx.
  assert (0 < 2 ^ k) by (apply Z.pow_pos_nonneg; lia).
  pose proof (Zdigits2_upper x ltac:(lia)) as Hu.
  pose proof (Zdigits2_nonneg x) as Hn.
  destruct (Z.lt_ge_cases k (Zdigits2 x)) as [|Hge]; [lia|].
  pose proof (Z.pow_le_mono_r 2 (Zdigits2 x) k ltac:(lia) Hge). lia.
Qed.

(** The quotient of two positive integers, as [SFdiv] computes it at the
    precision of binary32. *)
Lemma SFdiv_nearest sx p q :
  SFdiv Strconv.prec32 Strconv.emax32 (S754_finite sx p 0)
    (S754_finite false q 0) = S754_infinity sx
  \/ (nearest32 (Zpos p) (Zpos q)
        (SFdiv Strconv.prec32 Strconv.emax32 (S754_finite sx p 0)
           (S754_finite false q 0))
      /\ sign_of (SFdiv Strconv.prec32 Strconv.emax32 (S754_finite sx p 0)
                    (S754_finite false q 0)) = Some sx).
Proof.
  cbn [SFdiv]. unfold SFdiv_core_binary. rewrite fexp32, xorb_false_r.
  cbn [Zdigits2]. rewrite !Z.add_0_r, Z.sub_diag.
  pose proof (digits2_pos_bounds p) as [Plo Phi].
  pose proof (digits2_pos_bounds q) as [Qlo Qhi].
  set (d1 := Zpos (digits2_pos p)) in *.
  set (d2 := Zpos (digits2_pos q)) in *.
  set (e' := Z.min (Z.max (d1 - d2 - 24) (-149)) 0).
  assert (He' : -149 <= e' <= 0) by (unfold e'; lia).
  set (m' := match 0 - e' with Z0 => _ | Zpos _ => _ | Zneg _ => _ end).
  assert (Hm' : m' = Zpos p * 2 ^ (- e')).
  { unfold m'. destruct (0 - e') as [|s|s] eqn:Es; try lia.
    - replace (- e') with 0 by lia. rewrite Z.pow_0_r. lia.
    - rewrite Z.shiftl_mul_pow2 by lia. do 2 f_equal. lia. }
  assert (Hpow : 0 < 2 ^ (- e')) by (apply Z.pow_pos_nonneg; lia).
  pose proof (Z.div_eucl_eq m' (Zpos q) ltac:(lia)) as Heq.
  pose proof (Z.mod_pos_bound m' (Zpos q) ltac:(lia)) as Hr.
  pose proof (Z.div_pos m' (Zpos q) ltac:(nia) ltac:(lia)) as Hq.
  assert (Hdig : Z.max (d1 - d2 - 24) (-149) = -149
                 \/ 2 ^ 23 <= m' / Zpos q).
  { destruct (Z.le_gt_cases (d1 - d2 - 24) (-149)) as [Hc|Hc]; [left; lia|].
    right. apply Z.div_le_lower_bound; [lia|].
    assert (Hs : 24 - d1 + d2 <= - e') by (unfold e'; lia).
    assert (Hd1 : 1 <= d1) by (unfold d1; lia).
    assert (Hd2 : 1 <= d2) by (unfold d2; lia).
    rewrite Hm'.
    assert (Hstep : 2 ^ d2 * 2 ^ 23 <= 2 ^ (d1 - 1) * 2 ^ (- e')).
    { rewrite <- !Z.pow_add_r by lia. apply Z.pow_le_mono_r; lia. }
    assert (0 < 2 ^ (d1 - 1)) by (apply Z.pow_pos_nonneg; lia).
    assert (Zpos q * 2 ^ 23 <= 2 ^ d2 * 2 ^ 23) by lia.
    assert (2 ^ (d1 - 1) * 2 ^ (- e') <= Zpos p * 2 ^ (- e'))
      by (apply Z.mul_le_mono_nonneg_r; lia).
    lia. }
  unfold Z.div, Z.modulo in Heq, Hr, Hq, Hdig.
  destruct (Z.div_eucl m' (Zpos q)) as [qq r]. cbn [fst snd] in *.
  rewrite new_location_frac by lia.
  assert (Hex : e' <= Z.max (Zdigits2 qq + e' - 24) (-149)).
  { destruct Hdig as [Hc|Hc].
    - unfold e'. rewrite Hc. lia.
    - pose proof (Zdigits2_lower 23 qq ltac:(lia) Hc). lia. }
  apply binary_round_aux_nearest; try lia.
  set (e1 := Z.max (Zdigits2 qq + e' - 24) (-149)) in *.
  replace (qq * Zpos q + r) with m' by lia. rewrite Hm'.
  assert (H1 : 2 ^ (- e') * 2 ^ (e1 + 149) = 2 ^ 149 * 2 ^ (e1 - e')).
  { rewrite <- !Z.pow_add_r by lia. f_equal. lia. }
  transitivity (Zpos p * Zpos q * (2 ^ (- e') * 2 ^ (e1 + 149))); [ring|].
  rewrite H1. ring.
Qed.

Lemma scaled32_nonneg g : 0 <= scaled32 g.
Proof.
  destruct g as [s|s| |s m e]; cbn [scaled32]; try lia.
Qed.

Lemma prefix_value_pos M E hex : 0 < snd (prefix_value M E hex).
Proof.
  unfold prefix_value. cbv zeta.
  destruct (0 <=? E) eqn:HE; cbn [snd]; [lia|].
  apply Z.leb_gt in HE.
  destruct hex; apply Z.pow_pos_nonneg; lia.
Qed.

Lemma nearest32_zero N D s : N <= 0 -> 0 < D -> nearest32 N D (S754_zero s).
Proof.
  intros HN HD. split; [exact I|]. intros g _.
  unfold distance32. cbn [scaled32].
  pose proof (scaled32_nonneg g).
  pose proof (Z.pow_pos_nonneg 2 149 ltac:(lia) ltac:(lia)).
  assert (N * 2 ^ 149 <= 0) by nia.
  assert (0 <= scaled32 g * D) by nia.
  lia.
Qed.

(** [round32] gives the binary32 number nearest to the number read, with
    its sign, or overflows. *)
Lemma round32_nearest neg M E hex :
  Strconv.round32 neg M E hex = S754_infinity neg
  \/ (nearest32 (fst (prefix_value M E hex)) (snd (prefix_value M E hex))
        (Strconv.round32 neg M E hex)
      /\ sign_of (Strconv.round32 neg M E hex) = Some neg).
Proof.
  assert (Hz : M <= 0 ->
               nearest32 (fst (prefix_value M E hex))
                 (snd (prefix_value M E hex)) (S754_zero neg)).
  { intros HM. apply nearest32_zero; [|apply prefix_value_pos].
    unfold prefix_value. cbv zeta.
    destruct (0 <=? E) eqn:HE; cbn [fst]; [|exact HM].
    apply Z.leb_le in HE.
    assert (0 <= (if hex then 2 else 10) ^ E)
      by (apply Z.pow_nonneg; destruct hex; lia).
    nia. }
  destruct M as [|p|p]; cbn [Strconv.round32].
  - right. split; [apply Hz; lia|reflexivity].
  - destruct hex.
    + apply binary_round_nearest.
    + destruct (Z.leb_spec 0 E) as [HE|HE].
      * pose proof (binary_round_nearest neg (p * Z.to_pos (10 ^ E)) 0) as H.
        assert (Hp : 0 < 10 ^ E) by (apply Z.pow_pos_nonneg; lia).
        assert (Hv : prefix_value (Zpos (p * Z.to_pos (10 ^ E))) 0 true
                     = prefix_value (Zpos p) E false).
        { unfold prefix_value. cbv zeta. cbn [Z.leb Z.compare].
          destruct (Z.leb_spec 0 E); [|lia].
          rewrite Pos2Z.inj_mul, Z2Pos.id, Z.pow_0_r by lia.
          f_equal. lia. }
        rewrite Hv in H. exact H.
      * pose proof (SFdiv_nearest neg p (Z.to_pos (10 ^ (- E)))) as H.
        assert (Hp : 0 < 10 ^ (- E)) by (apply Z.pow_pos_nonneg; lia).
        rewrite Z2Pos.id in H by lia.
        unfold prefix_value. cbv zeta.
        destruct (Z.leb_spec 0 E); [lia|]. cbn [fst snd]. exact H.
  - right. split; [apply Hz; lia|reflexivity].
Qed.

(** What [ParseFloat32] returns without an error is an infinity or a NaN
    spelled out, or the binary32 number nearest to the number that
    [readFloat] reads. *)
Lemma ParseFloat32_nearest s f :
  Strconv.ParseFloat32 s = (f, None) ->
  Strconv.special s = Some (f, String.length s)
  \/ (Strconv.special s = None /\
      exists r, Strconv.readFloat s = Some r /\ Strconv.rf_rest r = "" /\
        nearest32
          (fst (prefix_value (Strconv.rf_mantissa r) (Strconv.rf_exp r)
                  (Strconv.rf_hex r)))
          (snd (prefix_value (Strconv.rf_mantissa r) (Strconv.rf_exp r)
                  (Strconv.rf_hex r))) f
        /\ sign_of f = Some (Strconv.rf_neg r)).
Proof.
  unfold Strconv.ParseFloat32.
  destruct (Strconv.special s) as [[f' n]|] eqn:Sp.
  - destruct (Nat.eqb_spec n (String.length s)) as [->|]; [|discriminate].
    intros H. injection H as ->. left. reflexivity.
  - destruct (Strconv.readFloat s) as [r|] eqn:Rd; [|discriminate].
    destruct (Strconv.rf_rest r) eqn:Rest; [|discriminate].
    pose proof (round32_nearest (Strconv.rf_neg r) (Strconv.rf_mantissa r)
                  (Strconv.rf_exp r) (Strconv.rf_hex r)) as [Hinf|Hn].
    + rewrite Hinf. discriminate.
    + intros H. right. split; [reflexivity|]. exists r.
      split; [reflexivity|]. split; [exact Rest|].
      assert (f = Strconv.round32 (Strconv.rf_neg r) (Strconv.rf_mantissa r)
                    (Strconv.rf_exp r) (Strconv.rf_hex r)) as ->.
      { destruct (Strconv.round32 _ _ _ _); congruence. }
      exact Hn.
Qed.

(** The rounding is to the nearest.  The prefix 0.1 is read as 1 / 10 and
    rounded to 13421773 * 2^-27; the binary32 numbers next to it, below and
    above, are not what [nearest32] accepts. *)
Example nearest32_one_tenth :
  Strconv.readFloat "0.1"
  = Some {| Strconv.rf_neg := false; Strconv.rf_mantissa := 1;
            Strconv.rf_exp := -1; Strconv.rf_hex := false;
            Strconv.rf_rest := EmptyString |}
  /\ prefix_value 1 (-1) false = (1, 10)
  /\ Strconv.ParseFloat32 "0.1" = (S754_finite false 13421773 (-27), None)
  /\ ~ nearest32 1 10 (S754_finite false 13421772 (-27))
  /\ ~ nearest32 1 10 (S754_finite false 13421774 (-27)).
Proof.
  assert (Hf : finite32 (S754_finite false 13421773 (-27)))
    by (cbn; lia).
  split; [reflexivity|]. split; [reflexivity|]. split; [reflexivity|].
  split; intros [_ H]; apply H in Hf; vm_compute in Hf; apply Hf;
    reflexivity.
Qed.

(** ** The size decoder *)

Lemma snoc_last prefix c :
  exists a s,
    prefix ++ String c "" = String a s
    /\ GoString.last_byte a s = c /\ GoString.but_last a s = prefix.
Proof.
  induction prefix as [|b p IH].
  - exists c, "". repeat split.
  - destruct IH as (a & s & E & Hl & Hb).
    exists b, (String a s). cbn [append]. rewrite E.
    cbn [GoString.last_byte GoString.but_last]. rewrite Hl, Hb.
    repeat split.
Qed.

Lemma parseFileSize_decoded u s p :
  size_product s = Some p ->
  parseFileSize u s = (Conv.int64_of_float64 u p, None).
Proof.
  unfold size_product, parseFileSize, unit_multiplier, int64.
  destruct s as [|c s]; [discriminate|].
  destruct (Strconv.ParseFloat32 (GoString.but_last c s)) as [f [err|]];
    [discriminate|].
  destruct (Ascii.eqb (GoString.last_byte c s) "G");
    [intros H; injection H as <-; reflexivity|].
  destruct (Ascii.eqb (GoString.last_byte c s) "M");
    [intros H; injection H as <-; reflexivity|].
  destruct (Ascii.eqb (GoString.last_byte c s) "K");
    [intros H; injection H as <-; reflexivity|].
  discriminate.
Qed.

Lemma parseFileSize_undecoded u s :
  size_product s = None ->
  fst (parseFileSize u s) = -1 /\ snd (parseFileSize u s) <> None.
Proof.
  unfold size_product, parseFileSize, unit_multiplier.
  destruct s as [|c s]; [intros _; split; [reflexivity|discriminate]|].
  destruct (Strconv.ParseFloat32 (GoString.but_last c s)) as [f [err|]];
    [intros _; split; [reflexivity|discriminate]|].
  destruct (Ascii.eqb (GoString.last_byte c s) "G"); [discriminate|].
  destruct (Ascii.eqb (GoString.last_byte c s) "M"); [discriminate|].
  destruct (Ascii.eqb (GoString.last_byte c s) "K"); [discriminate|].
  intros _; split; [reflexivity|discriminate].
Qed.

(** The three multipliers as float64: 2^52 with the exponents -22, -32 and
    -42. *)
Lemma unit_multiplier_float c k :
  unit_multiplier c = Some k ->
  exists j,
    (j = 10 \/ j = 20 \/ j = 30) /\ k = 2 ^ j
    /\ Conv.float64_of_const k = S754_finite false 4503599627370496 (j - 52).
Proof.
  unfold unit_multiplier.
  destruct (Ascii.eqb c "G");
    [intros H; injection H as <-; exists 30; repeat split; auto|].
  destruct (Ascii.eqb c "M");
    [intros H; injection H as <-; exists 20; repeat split; auto|].
  destruct (Ascii.eqb c "K");
    [intros H; injection H as <-; exists 10; repeat split; auto|].
  discriminate.
Qed.

(** The integer part of the float64 product is the integer part of the
    exact product. *)
Lemma truncate_product f c k :
  binary32 f ->
  unit_multiplier c = Some k ->
  Conv.truncate (Conv.mul64 f (Conv.float64_of_const k))
  = scaled_integer_part f k.
Proof.
  intros Hf Hk.
  destruct (unit_multiplier_float c k Hk) as (j & Hj & -> & ->).
  destruct f as [s|s| |s m e]; try reflexivity.
  destruct Hf as [Hm He].
  rewrite truncate_mul64_pow2 by lia.
  replace (j - 52 + 52) with j by lia.
  unfold Conv.truncate, scaled_integer_part. f_equal.
  assert (H2j : 0 < 2 ^ j) by (apply Z.pow_pos_nonneg; lia).
  assert (Heq : (if 0 <=? e + j then Zpos m * 2 ^ (e + j)
                 else Zpos m / 2 ^ (- (e + j)))
                = if 0 <=? e then Zpos m * 2 ^ e * 2 ^ j
                  else Zpos m * 2 ^ j / 2 ^ (- e)).
  { destruct (Z.leb_spec 0 (e + j)) as [H1|H1];
      destruct (Z.leb_spec 0 e) as [H2|H2]; try lia.
    - rewrite <- Z.mul_assoc, <- Z.pow_add_r by lia. reflexivity.
    - replace (2 ^ j) with (2 ^ (e + j) * 2 ^ (- e))
        by (rewrite <- Z.pow_add_r by lia; f_equal; lia).
      rewrite Z.mul_assoc.
      symmetry. apply Z.div_mul. apply Z.pow_nonzero; lia.
    - replace (2 ^ (- e)) with (2 ^ (- (e + j)) * 2 ^ j)
        by (rewrite <- Z.pow_add_r by lia; f_equal; lia).
      symmetry. apply Z.div_mul_cancel_r; apply Z.pow_nonzero; lia. }
  rewrite Heq. reflexivity.
Qed.

(** ** Checks of the model on known values *)

(** The binary32 neighbours of well-known decimals: 0.1 is 0x3DCCCCCD,
    2^24 + 1 rounds to 2^24, the largest finite number, the smallest
    subnormal, and out of range beyond. *)
Example ParseFloat32_known_values :
  Strconv.ParseFloat32 "0.1" = (S754_finite false 13421773 (-27), None) /\
  Strconv.ParseFloat32 "16777217" = (S754_finite false 8388608 1, None) /\
  Strconv.ParseFloat32 "3.4028235e38"
  = (S754_finite false 16777215 104, None) /\
  Strconv.ParseFloat32 "1e-45" = (S754_finite false 1 (-149), None) /\
  Strconv.ParseFloat32 "1e39"
  = (S754_infinity false, Some (Strconv.rangeError "ParseFloat" "1e39")) /\
  Strconv.ParseFloat32 "0x1.8p1" = (S754_finite false 12582912 (-22), None) /\
  Strconv.ParseFloat32 "1_000" = (S754_finite false 16384000 (-14), None) /\
  Strconv.ParseFloat32 "+Inf" = (S754_infinity false, None) /\
  Strconv.ParseFloat32 "1e"
  = (S754_zero false, Some (Strconv.syntaxError "ParseFloat" "1e")).
Proof. repeat split; vm_compute; reflexivity. Qed.

Example Atoi_known_values :
  Strconv.Atoi "12" = (12, None) /\
  Strconv.Atoi "-7" = (-7, None) /\
  Strconv.Atoi "" = (0, Some (Strconv.syntaxError "Atoi" "")) /\
  Strconv.Atoi "1x" = (0, Some (Strconv.syntaxError "Atoi" "1x")) /\
  Strconv.Atoi "9223372036854775808"
  = (9223372036854775807,
     Some (Strconv.rangeError "Atoi" "9223372036854775808")).
Proof. repeat split; vm_compute; reflexivity. Qed.

(** The provider on a page of a header, a row and a row of six cells. *)
Example XdccEuProvider_Search_sample :
  XdccEuProvider_Search Conv.amd64 Sample.no_trim Sample.one_field
    (Sample.get_status 200 "200 OK" "<table>")
    (Sample.parse_to [Sample.header; Sample.row; Sample.short_row])
    ["ubuntu"; "iso"]
  = Ret ([Sample.record], None).
Proof. vm_compute. reflexivity. Qed.

(** The registry's [Search] can return when every source succeeds: a run
    of one source. *)
Example registry_of_one_source_returns :
  RegistrySearch.may_return ["ubuntu"]
    {| providerList := [Sample.fixed [Sample.record]] |}
    ([Sample.record], None).
Proof.
  unfold RegistrySearch.may_return, RegistrySearch.reachable.
  eexists. split.
  - eapply RegistrySearch.steps_step.
    + eapply RegistrySearch.steps_step.
      * eapply RegistrySearch.steps_step.
        -- eapply RegistrySearch.steps_step.
           ++ eapply RegistrySearch.steps_step.
              ** eapply RegistrySearch.steps_step.
                 --- eapply RegistrySearch.steps_step.
                     +++ apply RegistrySearch.steps_refl.
                     +++ apply RegistrySearch.step_go with (rest := []).
                         reflexivity.
                 --- apply RegistrySearch.step_goroutine
                       with (before := []) (after := [])
                            (g := RegistrySearch.AtCall
                                    (Sample.fixed [Sample.record]));
                       [reflexivity|].
                     apply RegistrySearch.step_call_ok. reflexivity.
              ** apply RegistrySearch.step_goroutine
                   with (before := []) (after := [])
                        (g := RegistrySearch.AtLoad [Sample.record]);
                   [reflexivity|].
                 apply RegistrySearch.step_load.
           ++ apply RegistrySearch.step_goroutine
                with (before := []) (after := [])
                     (g := RegistrySearch.AtStore [Sample.record]);
                [reflexivity|].
              apply RegistrySearch.step_store.
        -- apply RegistrySearch.step_goroutine
             with (before := []) (after := []) (g := RegistrySearch.AtDone);
             [reflexivity|].
           apply RegistrySearch.step_done.
      * apply RegistrySearch.step_loop_end. reflexivity.
    + apply RegistrySearch.step_wait; reflexivity.
  - reflexivity.
Qed.

(** ** The claims *)

(** C1. The specification asks that [Search] on a registry of two sources,
    one whose [Search] returns an error and one that succeeds with K
    records, returns those K records.  In the code the goroutine of the
    failing source returns at line 58 without [wg.Done()], so that the
    counter of the wait group never reaches zero: in no run does the
    registry's [Search] return, whatever the result. *)
Theorem Search_with_failing_source_never_returns
  keywords registry failing succeeding res0 err res out :
  Search failing keywords = Ret (res0, Some err) ->
  Search succeeding keywords = Ret (res, None) ->
  providerList registry = [failing; succeeding]
  \/ providerList registry = [succeeding; failing] ->
  ~ RegistrySearch.may_return keywords registry out.
Proof.
  intros Hf _ Hreg.
  apply (RegistryFacts.failing_provider_blocks keywords registry failing).
  - destruct Hreg as [-> | ->]; cbn; auto.
  - unfold RegistryInv.fails. rewrite Hf. reflexivity.
Qed.

Lemma Search_with_failing_source_never_returns_witness :
  ~ RegistrySearch.may_return ["ubuntu"; "iso"]
      {| providerList := [Sample.failing; Sample.fixed [Sample.record]] |}
      ([Sample.record], None).
Proof.
  apply (Search_with_failing_source_never_returns ["ubuntu"; "iso"]
           {| providerList := [Sample.failing; Sample.fixed [Sample.record]] |}
           Sample.failing (Sample.fixed [Sample.record])
           [] (ExternalError "unreachable") [Sample.record]).
  - reflexivity.
  - reflexivity.
  - left. reflexivity.
Defined.

(** C2. [parseFileSize] on the examples of the specification: "2.5G" is
    2.5 * 1024^3 bytes, "750M" is 750 * 1024^2 bytes, "512K" is 512 * 1024
    bytes; the empty string, "10X" and "abcG" are errors. *)
Theorem parseFileSize_examples u :
  parseFileSize u "2.5G" = (5 * 1024 ^ 3 / 2, None) /\
  parseFileSize u "750M" = (750 * 1024 ^ 2, None) /\
  parseFileSize u "512K" = (512 * 1024, None) /\
  parseFileSize u "" = (-1, Some (errors_New "empty string")) /\
  parseFileSize u "10X" = (-1, Some (errors_New "unable to parse: 10X")) /\
  parseFileSize u "abcG" = (-1, Some (Strconv.syntaxError "ParseFloat" "abc")).
Proof. repeat split; vm_compute; reflexivity. Qed.

(** C3 as stated fails: a size cell with a minus sign decodes without
    error, and the record carries a negative size that is not -1. *)
Lemma parseFields_negative_size :
  ~ (forall u fields info,
       parseFields u fields = Ret (Some info, None) ->
       0 <= Size info \/ Size info = -1).
Proof.
  intros H.
  destruct (H Conv.amd64
              ["irc.example.net"; "#chan"; "bot"; "#1"; "12x"; "-2.5G";
               "file.iso"] _ eq_refl) as [Hs|Hs];
    vm_compute in Hs; [apply Hs; reflexivity|discriminate Hs].
Qed.

(** C3, amended.  In every record that [parseFields] returns, SizeBytes is
    -1 when the size cell does not decode (empty cell, prefix that is no
    number, unknown unit); when it decodes, SizeBytes is the int64 of the
    product prefix * multiplier, and it is a non-negative byte count
    whenever the cell does not begin with a minus sign and the product is
    within the range of an int64. *)
Theorem parseFields_size_decoded_or_sentinel u fields info :
  parseFields u fields = Ret (Some info, None) ->
  exists cell,
    nth_error fields 5 = Some cell /\
    match size_product cell with
    | None => Size info = -1
    | Some p =>
        Size info = Conv.int64_of_float64 u p /\
        (Conv.representable p = true ->
         GoString.HasPrefix cell "-" = false ->
         0 <= Size info)
    end.
Proof.
  intros H.
  destruct (parseFields_success u fields info None H)
    as (f0 & f1 & f2 & f3 & c & g & f5 & f6 & ->).
  rewrite parseFields_seven in H. injection H as <-.
  exists f5. split; [reflexivity|]. cbn [Size].
  destruct (size_product f5) as [p|] eqn:Ep.
  - rewrite (parseFileSize_decoded u f5 p Ep). cbn [fst].
    split; [reflexivity|]. intros Hrep Hminus.
    unfold Conv.int64_of_float64. unfold Conv.representable in Hrep.
    destruct (Conv.truncate p) as [z|] eqn:Ez; [|discriminate Hrep].
    rewrite Hrep.
    apply (truncate_sign_clear p z); [|exact Ez].
    unfold size_product in Ep. destruct f5 as [|a s]; [discriminate Ep|].
    destruct (Strconv.ParseFloat32 (GoString.but_last a s))
      as [f [err|]] eqn:Ef; [discriminate Ep|].
    destruct (unit_multiplier (GoString.last_byte a s)) as [k|] eqn:Ek;
      [|discriminate Ep].
    injection Ep as <-.
    destruct (unit_multiplier_float _ k Ek) as (j & _ & _ & ->).
    apply mul64_sign_clear.
    destruct s as [|b s'].
    + (* a unit and no prefix *)
      cbn in Ef. discriminate Ef.
    + cbn [GoString.but_last] in Ef.
      apply (ParseFloat32_sign_clear a _ f None Ef).
      cbn [GoString.HasPrefix] in Hminus.
      rewrite andb_true_r in Hminus.
      rewrite Ascii.eqb_sym. exact Hminus.
  - apply (parseFileSize_undecoded u) in Ep. apply Ep.
Qed.

Lemma parseFields_size_decoded_or_sentinel_witness :
  exists cell,
    nth_error
      ["irc.example.net"; "#chan"; "bot"; "#1"; "12x"; "1.5M"; "file.iso"] 5
    = Some cell /\
    match size_product cell with
    | None => 1572864 = -1
    | Some p =>
        1572864 = Conv.int64_of_float64 Conv.amd64 p /\
        (Conv.representable p = true ->
         GoString.HasPrefix cell "-" = false ->
         0 <= 1572864)
    end.
Proof.
  exact (parseFields_size_decoded_or_sentinel Conv.amd64
           ["irc.example.net"; "#chan"; "bot"; "#1"; "12x"; "1.5M";
            "file.iso"]
           {| Network := "irc.example.net"; Channel := "#chan";
              BotName := "bot"; Name := "file.iso"; Gets := 12;
              Url := ""; Command := ""; Size := 1572864; Slot := "#1" |}
           eq_refl).
Defined.

(** C4 as stated fails: [parseFields] returns a record for seven fields
    whose bot, slot and file name are empty. *)
Lemma parseFields_accepts_empty_names :
  ~ (forall u fields info,
       parseFields u fields = Ret (Some info, None) ->
       Name info <> "" /\ BotName info <> "" /\ Slot info <> "").
Proof.
  intros H.
  destruct (H Conv.amd64 ["irc.example.net"; "#chan"; ""; ""; "12x"; "1.5M"; ""]
              _ eq_refl) as (Hname & _).
  apply Hname. reflexivity.
Qed.

(** C4, amended.  In every record that [parseFields] returns, FileName,
    BotName and Slot are the fields 6, 2 and 3 as they were given: each is
    non-empty exactly when its field is. *)
Theorem parseFields_names_are_the_fields u fields info :
  parseFields u fields = Ret (Some info, None) ->
  nth_error fields 6 = Some (Name info) /\
  nth_error fields 2 = Some (BotName info) /\
  nth_error fields 3 = Some (Slot info).
Proof.
  intros H.
  destruct (parseFields_success u fields info None H)
    as (f0 & f1 & f2 & f3 & c & g & f5 & f6 & ->).
  rewrite parseFields_seven in H. injection H as <-.
  repeat split.
Qed.

Lemma parseFields_names_are_the_fields_witness :
  nth_error ["irc.example.net"; "#chan"; "bot"; "#1"; "12x"; "1.5M"; "file.iso"] 6
  = Some "file.iso".
Proof.
  exact (proj1 (parseFields_names_are_the_fields Conv.amd64
                  ["irc.example.net"; "#chan"; "bot"; "#1"; "12x"; "1.5M";
                   "file.iso"]
                  {| Network := "irc.example.net"; Channel := "#chan";
                     BotName := "bot"; Name := "file.iso"; Gets := 12;
                     Url := ""; Command := ""; Size := 1572864;
                     Slot := "#1" |}
                  eq_refl)).
Defined.

(** C5. The specification asks that a failing [Search] of a source returns
    a non-nil error and never ends the process.  The code calls [log.Fatal]
    on each of its three failures: the process exits with status 1 and
    nothing is returned. *)
Theorem XdccEuProvider_Search_failure_exits
  u trim fields get parse keywords :
  let url :=
    XdccEuURL ++ "?searchkey="
    ++ GoString.Join (fields (GoString.Join keywords " ")) "+" in
  (exists err, get url = GetErr err)
  \/ (exists res, get url = GetOk res /\ StatusCode res <> 200)
  \/ (exists res doc err,
        get url = GetOk res /\ parse (Body res) = (doc, Some err)) ->
  XdccEuProvider_Search u trim fields get parse keywords = Exit 1.
Proof.
  intros url H. unfold XdccEuProvider_Search. fold url.
  destruct H as [(err & ->) | [(res & -> & Hs) | (res & doc & err & -> & Hp)]].
  - reflexivity.
  - destruct (Z.eqb_spec (StatusCode res) 200) as [E|E]; [contradiction|].
    reflexivity.
  - destruct (negb (StatusCode res =? 200)); [reflexivity|].
    rewrite Hp. reflexivity.
Qed.

Lemma XdccEuProvider_Search_failure_exits_witness :
  XdccEuProvider_Search Conv.amd64 Sample.no_trim Sample.one_field
    Sample.get_fails Sample.parse_fails ["ubuntu"; "iso"] = Exit 1
  /\ XdccEuProvider_Search Conv.amd64 Sample.no_trim Sample.one_field
       (Sample.get_status 404 "404 Not Found" "") Sample.parse_fails
       ["ubuntu"; "iso"] = Exit 1
  /\ XdccEuProvider_Search Conv.amd64 Sample.no_trim Sample.one_field
       (Sample.get_status 200 "200 OK" "<html") Sample.parse_fails
       ["ubuntu"; "iso"] = Exit 1.
Proof.
  split; [|split];
    apply (XdccEuProvider_Search_failure_exits Conv.amd64 Sample.no_trim
             Sample.one_field).
  - left. eexists. reflexivity.
  - right. left. eexists. split; [reflexivity|]. cbn. discriminate.
  - right. right. do 3 eexists. split; reflexivity.
Defined.

(** C6. The specification asks that every row of seven cells is parsed,
    GetCount staying 0 when the Gets cell does not convert.  On a row whose
    Gets cell is empty the code slices [fields[4][:-1]] and panics: neither
    [parseFields] nor the provider's [Search] returns. *)
Theorem parseFields_empty_gets_cell_aborts u :
  parseFields u
    ["irc.example.net"; "#chan"; "bot"; "#1"; ""; "1.5M"; "file.iso"]
  = Panic slice_panic
  /\ searchDocument u Sample.no_trim
       [Sample.header; Sample.row; Sample.row_no_gets]
     = Panic slice_panic.
Proof. split; vm_compute; reflexivity. Qed.

(** C7. A row of seven cells whose second cell holds an anchor with an
    href [irc://rest]: the record appended for it has the URL [http://rest]
    (the href with its first [irc://] replaced, [rest] untouched) and the
    command ["/msg " + BotName + " xdcc send " + Slot].  A record is
    appended whenever the Gets cell is not empty. *)
Theorem row_url_and_command u trim j (s : Row) infos c1 rest :
  List.length s = 7%nat ->
  nth_error s 1 = Some c1 ->
  AnchorHref c1 = Some ("irc://" ++ rest) ->
  (forall infos',
     row_callback u trim (S j) s infos = Ret infos' ->
     exists info,
       infos' = (infos ++ [info])%list /\
       Url info = GoString.Replace ("irc://" ++ rest) "irc://" "http://" 1 /\
       Url info = "http://" ++ rest /\
       Command info = "/msg " ++ BotName info ++ " xdcc send " ++ Slot info)
  /\ (forall c4,
        nth_error s 4 = Some c4 -> trim (Text c4) <> "" ->
        exists infos', row_callback u trim (S j) s infos = Ret infos').
Proof.
  intros Hlen Hc1 Href.
  destruct (length7 s Hlen) as (a0 & a1 & a2 & a3 & a4 & a5 & a6 & ->).
  cbn in Hc1. injection Hc1 as ->.
  unfold row_callback, Each. cbn [Nat.eqb].
  rewrite Each_cells. cbn [bind app map url_after href_or nth_error].
  rewrite Href.
  destruct (trim (Text a4)) as [|c g] eqn:E4.
  - rewrite parseFields_seven_empty. cbn [bind]. split.
    + intros infos' H. discriminate H.
    + intros c4 H4 Hne. injection H4 as <-. contradiction.
  - rewrite parseFields_seven. cbn [bind]. split.
    + intros infos' H. injection H as <-. eexists. split; [reflexivity|].
      cbn [Url Command BotName Slot set_Url set_Command].
      split; [reflexivity|]. split; [apply Replace_scheme|reflexivity].
    + intros c4 _ _. eexists. reflexivity.
Qed.

Lemma row_url_and_command_witness :
  exists info,
    [info] = ([] ++ [info])%list /\
    Url info
    = GoString.Replace ("irc://" ++ "irc.example.net/chan?x=irc://y")
        "irc://" "http://" 1 /\
    Url info = "http://" ++ "irc.example.net/chan?x=irc://y" /\
    Command info = "/msg " ++ BotName info ++ " xdcc send " ++ Slot info.
Proof.
  destruct (proj1 (row_url_and_command Conv.amd64 Sample.no_trim 0 Sample.row
                     [] (Sample.linked_cell "#chan"
                           "irc://irc.example.net/chan?x=irc://y")
                     "irc.example.net/chan?x=irc://y"
                     eq_refl eq_refl eq_refl)
              [Sample.record] eq_refl) as (info & H & Hrest).
  exists info. split; [|exact Hrest].
  cbn in H. injection H as <-. reflexivity.
Defined.

(** C8. A row whose number of cells is not 7 leaves no trace: the result
    of the provider is the one it gives for the document without that row,
    and a document of nothing but such a row gives the empty result with a
    nil error. *)
Theorem searchDocument_drops_other_widths u trim header before (s : Row) after :
  List.length s <> 7%nat ->
  searchDocument u trim (header :: before ++ s :: after)
  = searchDocument u trim (header :: before ++ after)
  /\ searchDocument u trim [header; s] = Ret ([], None).
Proof.
  intros Hlen. unfold searchDocument, Each. split.
  - f_equal. cbn [Each_from row_callback Nat.eqb bind].
    rewrite !Each_from_app. cbn [Nat.add].
    destruct (Each_from (row_callback u trim) 1 before [])
      as [infos| |]; cbn [bind]; try reflexivity.
    cbn [Each_from]. rewrite rowcb_wrong_count by exact Hlen. cbn [bind].
    apply Each_rows_index.
  - cbn [Each_from].
    change (row_callback u trim 0 header []) with (@Ret (list XdccFileInfo) []).
    cbn [bind].
    rewrite (rowcb_wrong_count u trim 1 s) by exact Hlen. reflexivity.
Qed.

Lemma searchDocument_drops_other_widths_witness :
  searchDocument Conv.amd64 Sample.no_trim
    (Sample.header :: [Sample.row] ++ Sample.short_row :: [Sample.row])
  = searchDocument Conv.amd64 Sample.no_trim
      (Sample.header :: [Sample.row] ++ [Sample.row])
  /\ searchDocument Conv.amd64 Sample.no_trim
       [Sample.header; Sample.short_row] = Ret ([], None).
Proof.
  apply (searchDocument_drops_other_widths Conv.amd64 Sample.no_trim
           Sample.header [Sample.row] Sample.short_row [Sample.row]).
  cbn. discriminate.
Defined.

(** C9. On seven fields the fifth of which, the Gets cell, is the empty
    string, [parseFields] panics on the slice [fields[4][:len(fields[4])-1]]:
    it returns neither a record nor an error. *)
Theorem parseFields_empty_gets_panics u fields :
  List.length fields = 7%nat ->
  nth_error fields 4 = Some "" ->
  parseFields u fields = Panic slice_panic.
Proof.
  intros Hlen H4.
  destruct (length7 fields Hlen) as (f0 & f1 & f2 & f3 & f4 & f5 & f6 & ->).
  cbn in H4. injection H4 as ->.
  apply parseFields_seven_empty.
Qed.

Lemma parseFields_empty_gets_panics_witness :
  parseFields Conv.amd64
    ["irc.example.net"; "#chan"; "bot"; "#1"; ""; "700M"; "file.iso"]
  = Panic slice_panic.
Proof.
  apply (parseFields_empty_gets_panics Conv.amd64
           ["irc.example.net"; "#chan"; "bot"; "#1"; ""; "700M"; "file.iso"]);
    reflexivity.
Defined.

(** C10 as stated fails: the prefix 0.1 is no binary32 number and is
    rounded, yet "0.1K" gives 102 bytes, the integer part of 0.1 * 1024. *)
Lemma rounded_prefix_with_exact_bytes :
  ~ (forall u prefix c k r f,
       unit_multiplier c = Some k ->
       Strconv.readFloat prefix = Some r ->
       Strconv.rf_rest r = "" ->
       Strconv.rf_hex r = false ->
       Strconv.rf_neg r = false ->
       Strconv.ParseFloat32 prefix = (f, None) ->
       is_decimal f (Strconv.rf_mantissa r) (Strconv.rf_exp r) = false ->
       fst (parseFileSize u (prefix ++ String c ""))
       <> exact_bytes (Strconv.rf_mantissa r) (Strconv.rf_exp r) k).
Proof.
  intros H.
  apply (H Conv.amd64 "0.1" "K"%char KiloByte
           {| Strconv.rf_neg := false; Strconv.rf_mantissa := 1;
              Strconv.rf_exp := -1; Strconv.rf_hex := false;
              Strconv.rf_rest := "" |}
           (S754_finite false 13421773 (-27)));
    reflexivity.
Qed.

(** C10, amended.  [parseFileSize] parses the prefix at 32-bit precision.
    A prefix that [ParseFloat] accepts is the spelling of an infinity or of
    a NaN, or a number that [readFloat] reads, and then the float [f] that
    is multiplied is the finite binary32 number nearest to that number,
    with its sign: no finite binary32 number is nearer, so that [f] is the
    prefix itself when the prefix is a binary32 number.  The byte count is
    the integer part of [f] times the multiplier, the float64 product
    losing nothing.  The count can differ from exact decimal arithmetic, as
    for "16777217K", which gives 16777216 * 1024. *)
Theorem parseFileSize_rounds_prefix_to_nearest_binary32 u prefix c k f :
  unit_multiplier c = Some k ->
  Strconv.ParseFloat32 prefix = (f, None) ->
  binary32 f /\
  (Strconv.special prefix = Some (f, String.length prefix)
   \/ (Strconv.special prefix = None /\
       exists r,
         Strconv.readFloat prefix = Some r /\ Strconv.rf_rest r = "" /\
         nearest32
           (fst (prefix_value (Strconv.rf_mantissa r) (Strconv.rf_exp r)
                   (Strconv.rf_hex r)))
           (snd (prefix_value (Strconv.rf_mantissa r) (Strconv.rf_exp r)
                   (Strconv.rf_hex r))) f
         /\ sign_of f = Some (Strconv.rf_neg r))) /\
  (forall z,
     scaled_integer_part f k = Some z ->
     Conv.minInt64 <= z <= Conv.maxInt64 ->
     parseFileSize u (prefix ++ String c "") = (z, None)) /\
  parseFileSize u "16777217K" = (16777216 * 1024, None) /\
  16777216 * 1024 <> exact_bytes 16777217 0 KiloByte.
Proof.
  intros Hk Hf.
  pose proof (ParseFloat32_binary32 prefix f None Hf) as Hb.
  split; [exact Hb|].
  split; [exact (ParseFloat32_nearest prefix f Hf)|].
  split; [|split; [reflexivity|discriminate]].
  intros z Hz Hrange.
  destruct (snoc_last prefix c) as (a & s & E & Hl & Hp).
  rewrite E.
  rewrite (parseFileSize_decoded u (String a s)
             (Conv.mul64 f (Conv.float64_of_const k)))
    by (unfold size_product; rewrite Hl, Hp, Hf, Hk; reflexivity).
  f_equal. unfold Conv.int64_of_float64.
  rewrite (truncate_product f c k Hb Hk), Hz.
  destruct (Z.leb_spec Conv.minInt64 z); [|lia].
  destruct (Z.leb_spec z Conv.maxInt64); [|lia].
  reflexivity.
Qed.

Lemma parseFileSize_rounds_prefix_to_nearest_binary32_witness :
  nearest32 16777217 1 (S754_finite false 8388608 1) /\
  parseFileSize Conv.amd64 ("16777217" ++ "K") = (17179869184, None).
Proof.
  destruct (parseFileSize_rounds_prefix_to_nearest_binary32 Conv.amd64
              "16777217" "K"%char KiloByte (S754_finite false 8388608 1)
              eq_refl eq_refl) as (_ & Hn & Hz & _).
  split.
  - destruct Hn as [Hs|(_ & r & Hr & _ & Hn & _)].
    + vm_compute in Hs. discriminate Hs.
    + vm_compute in Hr. injection Hr as <-. exact Hn.
  - apply Hz.
    + reflexivity.
    + unfold Conv.minInt64, Conv.maxInt64. lia.
Defined.

(** * More of search.go *)

Module RegistryTrackFacts.
Import RegistrySearch RegistryInv RegistryTrack.

Section Facts.
Variable keywords : list string.

Lemma Forall2_app_cons_inv {A B : Type} (R : A -> B -> Prop) l (before : list B) g after :
  Forall2 R l (before ++ g :: after) ->
  exists l1 p l2,
    l = (l1 ++ p :: l2)%list /\ Forall2 R l1 before /\ R p g /\ Forall2 R l2 after.
Proof.
  intros H. apply Forall2_app_inv_r in H.
  destruct H as (l1 & l' & H1 & H2 & ->).
  inversion H2 as [|p g' l2 after' Hp H3]; subst.
  exists l1, p, l2. repeat split; assumption.
Qed.

Lemma sum_pending_zero gs :
  sumZ (map pending gs) = 0 -> Forall (fun g => g = Finished) gs.
Proof.
  induction gs as [|g gs IH]; intros H; constructor.
  - cbn [map sumZ fold_right] in H. fold (sumZ (map pending gs)) in H.
    pose proof (RegistryFacts.pending_nonneg gs).
    destruct g; cbn [pending] in H; try lia. reflexivity.
  - apply IH. cbn [map sumZ fold_right] in H.
    fold (sumZ (map pending gs)) in H.
    pose proof (RegistryFacts.pending_nonneg gs).
    destruct g; cbn [pending] in H; lia.
Qed.

Lemma track_inv_init registry : track_inv keywords registry (init registry).
Proof.
  unfold track_inv, init, owed; cbn. repeat split.
  - lia.
  - exists []. split; [reflexivity|constructor].
  - intros x [].
  - intros g x [].
Qed.

Lemma track_inv_step registry st st' :
  track_inv keywords registry st ->
  step keywords (Running st) (Running st') ->
  track_inv keywords registry st'.
Proof.
  intros (Hwg & (started & Hl & Ht) & Hres & Hcar & Hmain) Hstep.
  inversion Hstep
    as [st0 p rest Hm | st0 Hm | st0 Hm Hz
       | st0 before g after g' results' counter' Hg Hgs
       | | ]; subst; unfold track_inv, owed in *;
    cbn [main goroutines wg allResults] in *;
    refine (conj _ (conj _ (conj _ (conj _ _)))).
  - (* a goroutine is started *)
    rewrite Hm in *. cbn [unstarted List.length] in *.
    rewrite map_app, RegistryFacts.sumZ_app.
    cbn [map sumZ fold_right pending]. lia.
  - rewrite Hm in *. cbn [unstarted] in *.
    exists (started ++ [p])%list. split.
    + rewrite <- app_assoc. exact Hl.
    + apply Forall2_app; [exact Ht|]. constructor; [reflexivity|constructor].
  - exact Hres.
  - intros g x Hin Hx. apply in_app_or in Hin. destruct Hin as [Hin|Hin].
    + exact (Hcar g x Hin Hx).
    + destruct Hin as [<-|[]]. destruct Hx.
  - exact I.
  - (* the loop ends *)
    rewrite Hm in *. cbn [unstarted List.length] in *. lia.
  - rewrite Hm in *. cbn [unstarted] in *.
    exists started. split; assumption.
  - exact Hres.
  - exact Hcar.
  - exact I.
  - (* the barrier opens *)
    rewrite Hm in *. cbn [unstarted List.length] in *. lia.
  - rewrite Hm in *. cbn [unstarted] in *.
    exists started. split; assumption.
  - exact Hres.
  - exact Hcar.
  - split; [reflexivity|exact Hz].
  - (* a goroutine moves *)
    pose proof (RegistryFacts.goroutine_step_inv keywords _ _ _ _ _ _ Hgs)
      as [Hc _].
    rewrite Hg in *. rewrite map_app, RegistryFacts.sumZ_app in *.
    cbn [map sumZ fold_right] in *. lia.
  - rewrite Hg in Ht.
    destruct (Forall2_app_cons_inv _ _ _ _ _ Ht)
      as (l1 & p & l2 & -> & Ht1 & Hp & Ht2).
    exists (l1 ++ p :: l2)%list. split; [exact Hl|].
    apply Forall2_app; [exact Ht1|]. constructor; [|exact Ht2].
    destruct Hgs as [p0 res err Hs|p0 res Hs|res|new|];
      cbn [tracks] in *.
    + subst p0. eauto.
    + subst p0. exact Hs.
    + exists res. exact Hp.
    + exact Hp.
    + exact Hp.
  - intros x Hx.
    destruct Hgs as [p0 res err Hs|p0 res Hs|res|new|]; auto.
    apply (Hcar (AtStore new) x); [|exact Hx].
    rewrite Hg. apply in_or_app. right. left. reflexivity.
  - intros g0 x Hin0 Hx. rewrite Hg in Hcar, Ht.
    destruct (Forall2_app_cons_inv _ _ _ _ _ Ht)
      as (l1 & p & l2 & -> & Ht1 & Hp & Ht2).
    assert (Hin : In p (providerList registry)).
    { rewrite Hl. apply in_or_app. left. apply in_or_app. right. left.
      reflexivity. }
    apply in_app_or in Hin0.
    destruct Hin0 as [Hin0|[<-|Hin0]].
    + apply (Hcar g0 x); [|exact Hx]. apply in_or_app. left. exact Hin0.
    + destruct Hgs as [p0 res err Hs|p0 res Hs|res|new|];
        cbn [carries tracks] in *; try contradiction.
      * subst p0. exists p, res. repeat split; assumption.
      * apply in_app_or in Hx. destruct Hx as [Hx|Hx]; [auto|].
        apply (Hcar (AtLoad res) x); [|exact Hx].
        apply in_or_app. right. left. reflexivity.
    + apply (Hcar g0 x); [|exact Hx]. apply in_or_app. right. right.
      exact Hin0.
  - destruct (main st) as [rest| |out]; try exact I.
    destruct Hmain as [-> Hz]. cbn [unstarted List.length] in Hwg.
    rewrite Hg in Hwg. rewrite map_app, RegistryFacts.sumZ_app in Hwg.
    cbn [map sumZ fold_right] in Hwg.
    fold (sumZ (map pending after)) in Hwg.
    pose proof (RegistryFacts.pending_nonneg before).
    pose proof (RegistryFacts.pending_nonneg after).
    destruct Hgs; cbn [pending] in *; lia.
Qed.

Lemma track_inv_reachable registry st :
  reachable keywords registry (Running st) ->
  track_inv keywords registry st.
Proof.
  unfold reachable. intros H.
  remember (Running (init registry)) as c0 eqn:E0.
  remember (Running st) as c eqn:E. revert st E.
  induction H as [c|c1 c2 c3 H12 IH H23]; intros st E.
  - subst c. injection E as <-. apply track_inv_init.
  - subst c3. destruct c2 as [st2|panic code].
    + apply (track_inv_step registry st2 st); [|exact H23].
      apply IH; [exact E0|reflexivity].
    + inversion H23.
Qed.

End Facts.
End RegistryTrackFacts.

(** ** Runs of the registry's [Search] *)

Module RegistryRuns.
Import RegistrySearch RegistryInv RegistryTrack.

Section Runs.
Variable keywords : list string.

Lemma steps_trans c1 c2 c3 :
  steps keywords c1 c2 -> steps keywords c2 c3 -> steps keywords c1 c3.
Proof.
  intros H12 H23. induction H23 as [c|c2 c3 c4 H23 IH H34].
  - exact H12.
  - eapply steps_step; [apply IH; exact H12|exact H34].
Qed.

Lemma steps_head c1 c2 c3 :
  step keywords c1 c2 -> steps keywords c2 c3 -> steps keywords c1 c3.
Proof.
  intros H12 H23. eapply steps_trans; [|exact H23].
  eapply steps_step; [apply steps_refl|exact H12].
Qed.

(** The loop of line 53 run to its end before any goroutine moves. *)
Lemma steps_start_all rest results counter gs :
  steps keywords
    (Running {| allResults := results; wg := counter; goroutines := gs;
                main := AtLoop rest |})
    (Running {| allResults := results; wg := counter;
                goroutines := (gs ++ map AtCall rest)%list;
                main := AtWait |}).
Proof.
  revert gs. induction rest as [|p rest IH]; intros gs.
  - cbn [map]. rewrite app_nil_r. eapply steps_head; [|apply steps_refl].
    apply (step_loop_end keywords
             {| allResults := results; wg := counter; goroutines := gs;
                main := AtLoop [] |}).
    reflexivity.
  - eapply steps_head.
    + apply (step_go keywords
               {| allResults := results; wg := counter; goroutines := gs;
                  main := AtLoop (p :: rest) |} p rest).
      reflexivity.
    + cbn [allResults wg goroutines]. cbn [map].
      replace (gs ++ AtCall p :: map AtCall rest)%list
        with ((gs ++ [AtCall p]) ++ map AtCall rest)%list
        by (rewrite <- app_assoc; reflexivity).
      apply IH.
Qed.

Lemma reach_all_started registry :
  reachable keywords registry
    (Running {| allResults := [];
                wg := Z.of_nat (List.length (providerList registry));
                goroutines := map AtCall (providerList registry);
                main := AtWait |}).
Proof.
  unfold reachable, init.
  apply (steps_start_all (providerList registry) [] _ []).
Qed.

End Runs.
End RegistryRuns.


Module RegistrySingleFacts.
Import RegistrySearch RegistryInv RegistrySingle.

Section Facts.
Variable keywords : list string.

Lemma app_cons_singleton {A : Type} (before : list A) g after g0 :
  (before ++ g :: after)%list = [g0] -> before = [] /\ g = g0 /\ after = [].
Proof.
  destruct before as [|b before]; cbn.
  - intros H. injection H as -> ->. repeat split.
  - intros H. injection H as _ H. destruct before; discriminate H.
Qed.

Lemma single_inv_step p res st st' :
  Search p keywords = Ret (res, None) ->
  single_inv p res st ->
  step keywords (Running st) (Running st') ->
  single_inv p res st'.
Proof.
  intros Hs Hinv Hstep.
  inversion Hstep
    as [st0 q rest Hm | st0 Hm | st0 Hm Hz
       | st0 before g after g' results' counter' Hg Hgs
       | | ]; subst; unfold single_inv in *;
    cbn [main goroutines allResults] in *.
  - destruct Hinv as [(Hmain & Hgs & Hres)|(Hun & _)].
    + rewrite Hm in Hmain. injection Hmain as -> ->.
      right. split; [reflexivity|]. exists (AtCall p). rewrite Hgs.
      split; [reflexivity|]. split; [reflexivity|exact Hres].
    + rewrite Hm in Hun. discriminate Hun.
  - destruct Hinv as [(Hmain & _)|(_ & Hg)].
    + rewrite Hm in Hmain. discriminate Hmain.
    + right. split; [reflexivity|exact Hg].
  - destruct Hinv as [(Hmain & _)|(_ & Hg)].
    + rewrite Hm in Hmain. discriminate Hmain.
    + right. split; [reflexivity|exact Hg].
  - destruct Hinv as [(_ & Hnil & _)|(Hun & g0 & Hg0 & Hal)].
    + rewrite Hnil in Hg. destruct before; discriminate Hg.
    + rewrite Hg0 in Hg. symmetry in Hg.
      apply app_cons_singleton in Hg. destruct Hg as (-> & -> & ->).
      right. split; [exact Hun|]. exists g'. split; [reflexivity|].
      destruct Hgs as [p0 r err Hp|p0 r Hp|r|new|]; cbn [alone] in *.
      * destruct Hal as [-> _]. rewrite Hs in Hp. discriminate Hp.
      * destruct Hal as [-> Hres]. rewrite Hs in Hp. injection Hp as <-.
        split; [reflexivity|exact Hres].
      * destruct Hal as [-> ->]. reflexivity.
      * exact Hal.
      * exact Hal.
Qed.

Lemma single_inv_reachable p res registry st :
  Search p keywords = Ret (res, None) ->
  providerList registry = [p] ->
  reachable keywords registry (Running st) ->
  single_inv p res st.
Proof.
  intros Hs Hl. unfold reachable. intros H.
  remember (Running (init registry)) as c0 eqn:E0.
  remember (Running st) as c eqn:E. revert st E.
  induction H as [c|c1 c2 c3 H12 IH H23]; intros st E.
  - subst c. injection E as <-. left. unfold init. cbn. rewrite Hl.
    repeat split.
  - subst c3. destruct c2 as [st2|panic code].
    + apply (single_inv_step p res st2 st Hs); [|exact H23].
      apply IH; [exact E0|reflexivity].
    + inversion H23.
Qed.

(** The run of a single source. *)
Lemma run_single p res registry :
  Search p keywords = Ret (res, None) ->
  providerList registry = [p] ->
  reachable keywords registry
    (Running {| allResults := res; wg := 0; goroutines := [Finished];
                main := Returned (res, None) |}).
Proof.
  intros Hs Hl.
  pose proof (RegistryRuns.reach_all_started keywords registry) as Hall.
  rewrite Hl in Hall. cbn [map List.length] in Hall.
  eapply RegistryRuns.steps_trans; [exact Hall|].
  eapply RegistryRuns.steps_head.
  { eapply step_goroutine with (before := []) (after := []) (g := AtCall p);
      [reflexivity|]. apply step_call_ok. exact Hs. }
  cbn [allResults wg main app].
  eapply RegistryRuns.steps_head.
  { eapply step_goroutine with (before := []) (after := []) (g := AtLoad res);
      [reflexivity|]. apply step_load. }
  cbn [allResults wg main app].
  eapply RegistryRuns.steps_head.
  { eapply step_goroutine with (before := []) (after := [])
                               (g := AtStore res);
      [reflexivity|]. apply step_store. }
  cbn [allResults wg main app].
  eapply RegistryRuns.steps_head.
  { eapply step_goroutine with (before := []) (after := []) (g := AtDone);
      [reflexivity|]. apply step_done. }
  cbn [allResults wg main app].
  eapply RegistryRuns.steps_head; [|apply steps_refl].
  apply (step_wait keywords
           {| allResults := res; wg := 0; goroutines := [Finished];
              main := AtWait |}); reflexivity.
Qed.

End Facts.
End RegistrySingleFacts.

(** ** The provider: rows one by one *)

Section RowFacts.
Variable unrepresentable : spec_float -> Z.
Variable TrimSpace : string -> string.

Let rowcb := row_callback unrepresentable TrimSpace.

(** What the row callback does past the header, by the shape of the row. *)
Lemma rowcb_cases j (s : Row) infos :
  (seven_cells s = false /\ rowcb (S j) s infos = Ret infos)
  \/ (gets_missing TrimSpace s = true
      /\ rowcb (S j) s infos = Panic slice_panic)
  \/ (seven_cells s = true /\ gets_missing TrimSpace s = false /\
      exists info,
        rowcb (S j) s infos = Ret (infos ++ [info])%list /\
        rowcb (S j) s [] = Ret [info] /\
        Url info
        = GoString.Replace (href_or (nth_error s 1) "") "irc://" "http://" 1).
Proof.
  unfold seven_cells, gets_missing, seven_cells, xdccEuNumberOfEntries.
  destruct (Nat.eqb_spec (List.length s) 7) as [Hlen|Hlen].
  - right.
    destruct (length7 s Hlen) as (a0 & a1 & a2 & a3 & a4 & a5 & a6 & ->).
    cbn [nth_error andb].
    unfold rowcb, row_callback, Each. cbn [Nat.eqb].
    rewrite !Each_cells. cbn [bind app map url_after href_or nth_error].
    destruct (TrimSpace (Text a4)) as [|c g] eqn:E4.
    + left. split; [reflexivity|].
      rewrite parseFields_seven_empty. reflexivity.
    + right. split; [reflexivity|]. split; [reflexivity|].
      rewrite parseFields_seven. cbn [bind].
      eexists. split; [reflexivity|]. split; reflexivity.
  - left. split; [reflexivity|].
    apply rowcb_wrong_count. exact Hlen.
Qed.

(** The rows past the header: the records are appended to those gathered
    so far. *)
Lemma Each_rows_append rows j infos :
  Each_from rowcb (S j) rows infos
  = (l <- Each_from rowcb (S j) rows [] ;; Ret (infos ++ l)%list).
Proof.
  revert j infos. induction rows as [|s rows IH]; intros j infos.
  - cbn. rewrite app_nil_r. reflexivity.
  - cbn [Each_from].
    destruct (rowcb_cases j s infos)
      as [(H7 & E)|[(Hg & E)|(H7 & Hg & info & E & E0 & _)]];
      rewrite E.
    + destruct (rowcb_cases j s []) as [(_ & E')|[(Hg' & _)|(H7' & _)]].
      * rewrite E'. cbn [bind]. apply IH.
      * unfold gets_missing in Hg'. rewrite H7 in Hg'. discriminate Hg'.
      * rewrite H7 in H7'. discriminate H7'.
    + destruct (rowcb_cases j s []) as [(H7' & _)|[(_ & E')|(_ & Hg' & _)]].
      * unfold gets_missing in Hg. rewrite H7' in Hg. discriminate Hg.
      * rewrite E'. reflexivity.
      * rewrite Hg in Hg'. discriminate Hg'.
    + rewrite E0. cbn [bind].
      rewrite (IH (S j) (infos ++ [info])%list), (IH (S j) [info]).
      destruct (Each_from rowcb (S (S j)) rows []) as [l| |]; cbn [bind];
        try reflexivity.
      rewrite <- app_assoc. reflexivity.
Qed.

Lemma Each_rows_count rows j infos :
  Each_from rowcb (S j) rows [] = Ret infos ->
  List.length infos = List.length (filter seven_cells rows).
Proof.
  revert j infos. induction rows as [|s rows IH]; intros j infos.
  - cbn. intros H. injection H as <-. reflexivity.
  - cbn [Each_from filter].
    destruct (rowcb_cases j s [])
      as [(H7 & E)|[(Hg & E)|(H7 & Hg & info & E & _ & _)]];
      rewrite E; cbn [bind].
    + rewrite H7. apply IH.
    + discriminate.
    + rewrite H7. cbn [app]. rewrite Each_rows_append.
      destruct (Each_from rowcb (S (S j)) rows []) as [l| |] eqn:El;
        cbn [bind]; try discriminate.
      intros H. injection H as <-. cbn [List.length app].
      f_equal. exact (IH (S j) l El).
Qed.

Lemma Each_rows_panic rows j :
  (existsb (gets_missing TrimSpace) rows = true ->
   Each_from rowcb (S j) rows [] = Panic slice_panic)
  /\ (existsb (gets_missing TrimSpace) rows = false ->
      exists infos, Each_from rowcb (S j) rows [] = Ret infos).
Proof.
  revert j. induction rows as [|s rows IH]; intros j.
  - split; [discriminate|]. intros _. exists []. reflexivity.
  - cbn [Each_from existsb].
    destruct (rowcb_cases j s [])
      as [(H7 & E)|[(Hg & E)|(H7 & Hg & info & E & _ & _)]];
      rewrite E; cbn [bind].
    + assert (Hg : gets_missing TrimSpace s = false)
        by (unfold gets_missing; rewrite H7; reflexivity).
      rewrite Hg. cbn [orb]. apply IH.
    + rewrite Hg. cbn [orb]. split; [reflexivity|discriminate].
    + rewrite Hg. cbn [orb app]. rewrite Each_rows_append.
      destruct (IH (S j)) as [IH1 IH2]. split.
      * intros H. rewrite (IH1 H). reflexivity.
      * intros H. destruct (IH2 H) as (l & ->). cbn [bind].
        eexists. reflexivity.
Qed.

End RowFacts.

(** ** The URL of a record *)

Lemma replace_from_unfold old new n c s :
  GoString.replace_from old new n O (String c s)
  = if n =? 0 then String c s
    else if GoString.HasPrefix (String c s) old then
      new ++ GoString.replace_from old new (n - 1)
               (Nat.pred (String.length old)) s
    else String c (GoString.replace_from old new n O s).
Proof. reflexivity. Qed.

Lemma absent_before_tail old c s n :
  absent_before old (String c s) (S n) -> absent_before old s n.
Proof.
  intros H k Hk. apply (H (S k)). lia.
Qed.

Lemma replace_first_scheme pre post :
  absent_before "irc://" (pre ++ "irc://" ++ post) (String.length pre) ->
  GoString.Replace (pre ++ "irc://" ++ post) "irc://" "http://" 1
  = pre ++ "http://" ++ post.
Proof.
  unfold GoString.Replace. cbn [String.eqb Ascii.eqb Bool.eqb].
  induction pre as [|c pre IH]; intros Habs.
  - apply Replace_scheme.
  - change (String c pre ++ "irc://" ++ post)
      with (String c (pre ++ "irc://" ++ post)) in *.
    change (String c pre ++ "http://" ++ post)
      with (String c (pre ++ "http://" ++ post)).
    cbn [String.length] in Habs.
    rewrite replace_from_unfold. cbn [Z.eqb].
    pose proof (Habs O (Nat.lt_0_succ _)) as H0. cbn [GoString.drop] in H0.
    rewrite H0. f_equal.
    apply IH. exact (absent_before_tail _ _ _ _ Habs).
Qed.

Lemma replace_absent_scheme s :
  absent_before "irc://" s (S (String.length s)) ->
  GoString.Replace s "irc://" "http://" 1 = s.
Proof.
  unfold GoString.Replace. cbn [String.eqb Ascii.eqb Bool.eqb].
  induction s as [|c s IH]; intros Habs.
  - reflexivity.
  - cbn [String.length] in Habs.
    rewrite replace_from_unfold. cbn [Z.eqb].
    pose proof (Habs O (Nat.lt_0_succ _)) as H0. cbn [GoString.drop] in H0.
    rewrite H0. f_equal.
    apply IH. exact (absent_before_tail _ _ _ _ Habs).
Qed.

(** ** Strings of decimal digits *)

Lemma is_digit_val c :
  GoString.is_digit c = true -> 0 <= GoString.digit_val c <= 9.
Proof.
  unfold GoString.is_digit, GoString.byte_in, GoString.digit_val.
  intros H. apply andb_true_iff in H. destruct H as [H1 H2].
  apply N.leb_le in H1. apply N.leb_le in H2.
  change (N_of_ascii "0") with 48%N in *.
  change (N_of_ascii "9") with 57%N in *. lia.
Qed.

(** A digit is none of the bytes that [strconv] treats apart. *)
Lemma is_digit_plain c :
  GoString.is_digit c = true ->
  Ascii.eqb c "+" = false /\ Ascii.eqb c "-" = false /\
  Ascii.eqb c "_" = false /\ Ascii.eqb c "." = false /\
  Ascii.eqb c "i" = false /\ Ascii.eqb c "I" = false /\
  Ascii.eqb c "n" = false /\ Ascii.eqb c "N" = false /\
  Ascii.eqb (GoString.lower c) "x" = false /\
  Ascii.eqb (GoString.lower c) "e" = false.
Proof.
  destruct c as [[] [] [] [] [] [] [] []]; intros H;
    try discriminate H; repeat split.
Qed.

Lemma decimal_from_ge s acc :
  all_digits s = true -> 0 <= acc -> acc <= decimal_from acc s.
Proof.
  revert acc. induction s as [|c s IH]; intros acc Hd Hacc; cbn in *.
  - lia.
  - apply andb_true_iff in Hd. destruct Hd as [Hc Hs].
    pose proof (is_digit_val c Hc).
    specialize (IH (acc * 10 + GoString.digit_val c) Hs). lia.
Qed.

Lemma parseUint_loop_digits s0 s acc :
  all_digits s = true -> 0 <= acc ->
  decimal_from acc s <= Strconv.maxUint64 ->
  Strconv.parseUint_loop s0 s acc = (decimal_from acc s, None).
Proof.
  revert acc. induction s as [|c s IH]; intros acc Hd Hacc Hmax.
  - reflexivity.
  - cbn [all_digits] in Hd. apply andb_true_iff in Hd.
    destruct Hd as [Hc Hs]. pose proof (is_digit_val c Hc) as Hv.
    cbn [Strconv.parseUint_loop decimal_from] in *. rewrite Hc. cbn [negb].
    pose proof (decimal_from_ge s (acc * 10 + GoString.digit_val c) Hs) as Hge.
    unfold Strconv.maxUint64 in *.
    change (2 ^ 64 - 1) with 18446744073709551615 in *.
    change (18446744073709551615 / 10 + 1) with 1844674407370955162.
    destruct (Z.leb_spec 1844674407370955162 acc); [lia|].
    destruct (Z.ltb_spec 18446744073709551615
                (acc * 10 + GoString.digit_val c)); [lia|].
    apply IH; [exact Hs|lia|exact Hmax].
Qed.

Lemma Atoi_digits c s :
  all_digits (String c s) = true ->
  decimal_value (String c s) < 2 ^ 63 ->
  Strconv.Atoi (String c s) = (decimal_value (String c s), None).
Proof.
  intros Hd Hmax. unfold Strconv.Atoi, Strconv.ParseInt.
  pose proof Hd as Hd'. cbn [all_digits] in Hd'.
  apply andb_true_iff in Hd'. destruct Hd' as [Hc _].
  destruct (is_digit_plain c Hc) as (-> & -> & _). cbn [orb].
  unfold Strconv.ParseUint.
  assert (H0 : 0 <= decimal_value (String c s))
    by (apply (decimal_from_ge (String c s) 0 Hd); lia).
  rewrite (parseUint_loop_digits (String c s) (String c s) 0 Hd)
    by (unfold Strconv.maxUint64; fold (decimal_value (String c s)); lia).
  fold (decimal_value (String c s)).
  unfold Strconv.IntSize. change (2 ^ (64 - 1)) with (2 ^ 63).
  cbn [negb andb].
  destruct (Z.leb_spec (2 ^ 63) (decimal_value (String c s))); [lia|].
  reflexivity.
Qed.

(** The mantissa loop on a string of digits reads all of it. *)
Lemma readMantissa_digits s st :
  all_digits s = true ->
  0 <= Strconv.nd st ->
  (Strconv.nd st = 0 -> Strconv.mantissa st = 0) ->
  exists st',
    Strconv.readMantissa 10 st s = (st', "")
    /\ Strconv.mantissa st' = decimal_from (Strconv.mantissa st) s
    /\ Strconv.sawdot st' = Strconv.sawdot st
    /\ Strconv.underscores st' = Strconv.underscores st
    /\ (s <> "" -> Strconv.sawdigits st' = true).
Proof.
  revert st. induction s as [|c s IH]; intros st Hd Hnd Hm.
  - exists st. repeat split. intros H. contradiction.
  - cbn [all_digits] in Hd. apply andb_true_iff in Hd.
    destruct Hd as [Hc Hs].
    destruct (is_digit_plain c Hc) as (_ & _ & Hu & Hp & _).
    cbn [Strconv.readMantissa decimal_from]. rewrite Hu, Hp, Hc.
    destruct (Ascii.eqb_spec c "0") as [->|Hc0];
      [destruct (Z.eqb_spec (Strconv.nd st) 0) as [Hz|Hz]|]; cbn [andb].
    + (* a leading zero *)
      destruct (IH {| Strconv.mantissa := Strconv.mantissa st;
                      Strconv.nd := Strconv.nd st;
                      Strconv.dp := Strconv.dp st - 1;
                      Strconv.sawdot := Strconv.sawdot st;
                      Strconv.sawdigits := true;
                      Strconv.underscores := Strconv.underscores st |}
                  Hs Hnd Hm) as (st' & E & Hm' & Hd' & Hu' & Hs').
      exists st'. cbn in Hm', Hd', Hu'. rewrite (Hm Hz) in *.
      repeat split; try assumption.
      intros _.
      destruct s as [|c' s']; [cbn in E; injection E as <-; reflexivity|].
      apply Hs'. discriminate.
    + destruct (IH {| Strconv.mantissa :=
                        Strconv.mantissa st * 10 + GoString.digit_val "0";
                      Strconv.nd := Strconv.nd st + 1;
                      Strconv.dp := Strconv.dp st;
                      Strconv.sawdot := Strconv.sawdot st;
                      Strconv.sawdigits := true;
                      Strconv.underscores := Strconv.underscores st |}
                  Hs) as (st' & E & Hm' & Hd' & Hu' & Hs');
        [cbn; lia|cbn; lia|].
      exists st'. cbn in Hm', Hd', Hu'. repeat split; try assumption.
      intros _.
      destruct s as [|c' s']; [cbn in E; injection E as <-; reflexivity|].
      apply Hs'. discriminate.
    + destruct (IH {| Strconv.mantissa :=
                        Strconv.mantissa st * 10 + GoString.digit_val c;
                      Strconv.nd := Strconv.nd st + 1;
                      Strconv.dp := Strconv.dp st;
                      Strconv.sawdot := Strconv.sawdot st;
                      Strconv.sawdigits := true;
                      Strconv.underscores := Strconv.underscores st |}
                  Hs) as (st' & E & Hm' & Hd' & Hu' & Hs');
        [cbn; lia|cbn; lia|].
      exists st'. cbn in Hm', Hd', Hu'. repeat split; try assumption.
      intros _.
      destruct s as [|c' s']; [cbn in E; injection E as <-; reflexivity|].
      apply Hs'. discriminate.
Qed.

Lemma readFloat_digits c s :
  all_digits (String c s) = true ->
  Strconv.readFloat (String c s)
  = Some {| Strconv.rf_neg := false;
            Strconv.rf_mantissa := decimal_value (String c s);
            Strconv.rf_exp := 0; Strconv.rf_hex := false;
            Strconv.rf_rest := "" |}.
Proof.
  intros Hd. pose proof Hd as Hd'. cbn [all_digits] in Hd'.
  apply andb_true_iff in Hd'. destruct Hd' as [Hc Hs].
  destruct (is_digit_plain c Hc) as (Hplus & Hminus & _).
  unfold Strconv.readFloat. rewrite Hplus, Hminus. cbn [orb].
  assert (Hhex : match s with
                 | String b (String _ _) =>
                     (Ascii.eqb c "0" && Ascii.eqb (GoString.lower b) "x")%bool
                 | _ => false
                 end = false).
  { destruct s as [|b [|b' s']]; try reflexivity.
    cbn [all_digits] in Hs. apply andb_true_iff in Hs. destruct Hs as [Hb _].
    destruct (is_digit_plain b Hb) as (_ & _ & _ & _ & _ & _ & _ & _ & -> & _).
    apply andb_false_r. }
  rewrite !Hhex.
  destruct (readMantissa_digits (String c s) Strconv.mant_init Hd)
    as (st & E & Hm & Hdot & Hus & Hsaw);
    [cbn; lia|reflexivity|].
  rewrite E. rewrite Hsaw by discriminate. cbn [negb].
  rewrite Hus, Hdot. cbn [Strconv.underscores Strconv.sawdot
                           Strconv.mant_init andb].
  rewrite Hm. cbn [Strconv.mantissa Strconv.mant_init].
  fold (decimal_value (String c s)).
  rewrite Z.sub_diag.
  destruct (decimal_value (String c s) =? 0); reflexivity.
Qed.

Lemma special_digits c s :
  GoString.is_digit c = true -> Strconv.special (String c s) = None.
Proof.
  intros Hc.
  destruct (is_digit_plain c Hc)
    as (H1 & H2 & _ & _ & H3 & H4 & H5 & H6 & _).
  unfold Strconv.special. rewrite H1, H2, H3, H4, H5, H6. reflexivity.
Qed.

(** ** Rounding a number of at most 24 bits *)

Lemma binary_round_aux_canonical s m e :
  Zdigits2 (Zpos m) = 24 -> -149 <= e <= 104 ->
  binary_round_aux Strconv.prec32 Strconv.emax32 s (Zpos m) e loc_Exact
  = S754_finite s m e.
Proof.
  intros Hd He. unfold binary_round_aux, shr_fexp. rewrite Hd.
  assert (Hf : fexp Strconv.prec32 Strconv.emax32 (24 + e) - e = 0).
  { unfold fexp, emin, Strconv.prec32, Strconv.emax32. lia. }
  rewrite Hf. cbn [shr shr_record_of_loc shr_m loc_of_shr_record
                   round_nearest_even].
  rewrite Hd, Hf. cbn [shr shr_record_of_loc shr_m].
  unfold Strconv.emax32, Strconv.prec32.
  destruct (Z.leb_spec e (128 - 24)); [reflexivity|lia].
Qed.

(** A positive integer below 2^24 is a binary32 number. *)
Lemma binary_round_small p :
  Zpos p < 2 ^ 24 ->
  exists m e,
    binary_round Strconv.prec32 Strconv.emax32 false p 0
    = S754_finite false m e
    /\ -24 < e <= 0 /\ Zpos m = Zpos p * 2 ^ (- e).
Proof.
  intros Hp.
  pose proof (digits2_pos_bounds p) as [Dlo Dhi].
  set (d := Zpos (digits2_pos p)) in *.
  assert (Hd : 1 <= d <= 24).
  { split; [unfold d; lia|].
    destruct (Z.leb_spec d 24) as [H|H]; [exact H|].
    assert (2 ^ 24 <= 2 ^ (d - 1)) by (apply Z.pow_le_mono_r; lia). lia. }
  unfold binary_round. fold d.
  assert (Hf : fexp Strconv.prec32 Strconv.emax32 (d + 0) = d - 24).
  { unfold fexp, emin, Strconv.prec32, Strconv.emax32. lia. }
  rewrite Hf. unfold shl_align.
  destruct (d - 24 - 0) as [|q|q] eqn:Eq; try lia.
  - (* 24 bits already *)
    exists p, 0. split; [|split; [lia|cbn; lia]].
    apply binary_round_aux_canonical; [|lia].
    cbn [Zdigits2]. fold d. lia.
  - exists (Pos.iter xO p q), (d - 24).
    assert (Hq : Zpos q = 24 - d) by lia.
    split; [|split; [lia|]].
    + apply binary_round_aux_canonical; [|lia].
      apply Zdigits2_unique; [lia|]. rewrite iter_xO, Hq.
      replace (24 - 1) with (d - 1 + (24 - d)) by lia.
      replace (2 ^ 24) with (2 ^ (d + (24 - d))) by (f_equal; lia).
      rewrite !Z.pow_add_r by lia.
      assert (0 < 2 ^ (24 - d)) by (apply Z.pow_pos_nonneg; lia).
      split.
      * apply Z.mul_le_mono_nonneg_r; lia.
      * apply Z.mul_lt_mono_pos_r; lia.
    + rewrite iter_xO, Hq. f_equal. f_equal. lia.
Qed.

(** [ParseFloat] on the digits of a number below 2^24: the number. *)
Lemma ParseFloat32_small_integer c s k :
  all_digits (String c s) = true ->
  decimal_value (String c s) < 2 ^ 24 ->
  exists f,
    Strconv.ParseFloat32 (String c s) = (f, None)
    /\ scaled_integer_part f k = Some (decimal_value (String c s) * k).
Proof.
  intros Hd Hlt.
  pose proof Hd as Hd'. cbn [all_digits] in Hd'.
  apply andb_true_iff in Hd'. destruct Hd' as [Hc _].
  unfold Strconv.ParseFloat32.
  rewrite (special_digits c s Hc), (readFloat_digits c s Hd).
  cbn [Strconv.rf_rest Strconv.rf_neg Strconv.rf_mantissa Strconv.rf_exp
       Strconv.rf_hex].
  unfold Strconv.round32.
  assert (H0 : 0 <= decimal_value (String c s))
    by (apply (decimal_from_ge (String c s) 0 Hd); lia).
  destruct (decimal_value (String c s)) as [|p|p] eqn:Ev; try lia.
  - exists (S754_zero false). split; reflexivity.
  - cbn [Z.leb Z.compare]. change (Z.to_pos (10 ^ 0)) with 1%positive.
    rewrite Pos.mul_1_r.
    destruct (binary_round_small p Hlt) as (m & e & -> & He & Hm).
    exists (S754_finite false m e). split; [reflexivity|].
    unfold scaled_integer_part. f_equal. rewrite Hm.
    destruct (Z.leb_spec 0 e) as [H|H].
    + replace e with 0 by lia. cbn [Z.opp]. change (2 ^ 0) with 1. lia.
    + replace (Zpos p * 2 ^ (- e) * k) with (Zpos p * k * 2 ^ (- e)) by lia.
      apply Z.div_mul. apply Z.pow_nonzero; lia.
Qed.

Lemma Atoi_minus_digits c s :
  all_digits (String c s) = true ->
  decimal_value (String c s) <= 2 ^ 63 ->
  Strconv.Atoi (String "-" (String c s))
  = (- decimal_value (String c s), None).
Proof.
  intros Hd Hmax. unfold Strconv.Atoi, Strconv.ParseInt.
  cbn [Ascii.eqb Bool.eqb orb andb negb].
  unfold Strconv.ParseUint.
  assert (H0 : 0 <= decimal_value (String c s))
    by (apply (decimal_from_ge (String c s) 0 Hd); lia).
  rewrite (parseUint_loop_digits (String c s) (String c s) 0 Hd)
    by (unfold Strconv.maxUint64; fold (decimal_value (String c s)); lia).
  fold (decimal_value (String c s)).
  unfold Strconv.IntSize. change (2 ^ (64 - 1)) with (2 ^ 63).
  destruct (Z.ltb_spec (2 ^ 63) (decimal_value (String c s))); [lia|].
  reflexivity.
Qed.

(** ** Further properties *)

(** X1. The barrier of line 66.  When the registry's [Search] returns, one
    goroutine was started for every provider and every one of them has
    called [wg.Done()]; the [Search] of every provider returned a nil
    error, and the value returned is the shared slice with a nil error. *)
Theorem Search_returns_after_all_goroutines keywords registry st out :
  RegistrySearch.reachable keywords registry (RegistrySearch.Running st) ->
  RegistrySearch.main st = RegistrySearch.Returned out ->
  List.length (RegistrySearch.goroutines st)
  = List.length (providerList registry) /\
  Forall (fun g => g = RegistrySearch.Finished) (RegistrySearch.goroutines st) /\
  Forall (RegistryTrack.succeeds keywords) (providerList registry) /\
  out = (RegistrySearch.allResults st, None).
Proof.
  intros Hreach Hmain.
  destruct (RegistryTrackFacts.track_inv_reachable keywords registry st Hreach)
    as (Hwg & (started & Hl & Ht) & _ & _ & Hret).
  rewrite Hmain in Hret. destruct Hret as [-> Hz].
  unfold RegistryInv.owed in Hwg. rewrite Hmain in Hwg, Hl.
  cbn [RegistryInv.unstarted List.length] in Hwg, Hl.
  rewrite app_nil_r in Hl. subst started.
  assert (Hfin : Forall (fun g => g = RegistrySearch.Finished)
                   (RegistrySearch.goroutines st)).
  { apply RegistryTrackFacts.sum_pending_zero. lia. }
  split; [symmetry; exact (Forall2_length Ht)|].
  split; [exact Hfin|]. split; [|reflexivity].
  clear Hwg Hz Hmain Hreach.
  induction Ht as [|p g ps gs Hp Ht IH]; constructor.
  - inversion Hfin as [|g' gs' Hg Hgs]; subst. exact Hp.
  - apply IH. inversion Hfin; assumption.
Qed.

(** X3. A registry without providers: [Search] returns, and all it can
    return is the empty list with a nil error. *)
Theorem Search_of_empty_registry keywords out :
  RegistrySearch.may_return keywords NewProviderRegistry ([], None) /\
  (RegistrySearch.may_return keywords NewProviderRegistry out ->
   out = ([], None)).
Proof.
  split.
  - eexists. split.
    + eapply RegistrySearch.steps_step.
      * apply (RegistryRuns.reach_all_started keywords NewProviderRegistry).
      * apply RegistrySearch.step_wait; reflexivity.
    + reflexivity.
  - intros (st & Hreach & Hmain).
    destruct (RegistryTrackFacts.track_inv_reachable keywords _ st Hreach)
      as (_ & _ & Hres & _ & Hret).
    rewrite Hmain in Hret. destruct Hret as [-> _].
    destruct (RegistrySearch.allResults st) as [|x l]; [reflexivity|].
    destruct (Hres x (or_introl eq_refl)) as (p & res & [] & _).
Qed.

Lemma Search_of_empty_registry_witness :
  ([] : list XdccFileInfo, @None error) = ([], None).
Proof.
  apply (proj2 (Search_of_empty_registry ["ubuntu"] ([], None))).
  exact (proj1 (Search_of_empty_registry ["ubuntu"] ([], None))).
Defined.

(** X4. A provider whose [Search] ends the process or panics, as the
    xdcc.eu provider does on a failed request: the process can end with
    that status in the middle of the registry's [Search], and in no run
    does the registry's [Search] return. *)
Theorem Search_with_exiting_source keywords registry p :
  In p (providerList registry) ->
  (forall code,
     Search p keywords = Exit code ->
     RegistrySearch.reachable keywords registry
       (RegistrySearch.Crashed None code)) /\
  (forall msg,
     Search p keywords = Panic msg ->
     RegistrySearch.reachable keywords registry
       (RegistrySearch.Crashed (Some msg) 2)) /\
  ((forall res, Search p keywords <> Ret (res, None)) ->
   forall out, ~ RegistrySearch.may_return keywords registry out).
Proof.
  intros Hin.
  destruct (in_split p (providerList registry) Hin) as (l1 & l2 & Hl).
  pose proof (RegistryRuns.reach_all_started keywords registry) as Hall.
  rewrite Hl in Hall at 2. rewrite map_app in Hall. cbn [map] in Hall.
  split; [|split].
  - intros code Hs. eapply RegistrySearch.steps_step; [exact Hall|].
    eapply RegistrySearch.step_exit; [reflexivity|exact Hs].
  - intros msg Hs. eapply RegistrySearch.steps_step; [exact Hall|].
    eapply RegistrySearch.step_panic; [reflexivity|exact Hs].
  - intros Hno out (st & Hreach & Hmain).
    destruct (RegistryTrackFacts.track_inv_reachable keywords registry st
                Hreach) as (Hwg & (started & Hst & Ht) & _ & _ & Hret).
    rewrite Hmain in Hret. destruct Hret as [_ Hz].
    unfold RegistryInv.owed in Hwg. rewrite Hmain in Hwg, Hst.
    cbn [RegistryInv.unstarted List.length] in Hwg, Hst.
    rewrite app_nil_r in Hst. subst started.
    assert (Hfin : Forall (fun g => g = RegistrySearch.Finished)
                     (RegistrySearch.goroutines st))
      by (apply RegistryTrackFacts.sum_pending_zero; lia).
    clear Hwg Hz Hmain Hreach Hall Hl.
    induction Ht as [|q g ps gs Hq Ht IH].
    + destruct Hin.
    + inversion Hfin as [|g' gs' Hg Hgs]; subst.
      destruct Hin as [->|Hin].
      * destruct Hq as (res & Hres). exact (Hno res Hres).
      * exact (IH Hin Hgs).
Qed.

Lemma Search_with_exiting_source_witness :
  RegistrySearch.reachable ["ubuntu"; "iso"]
    {| providerList :=
         [Sample.fixed [Sample.record];
          XdccEuProvider Conv.amd64 Sample.no_trim Sample.one_field
            Sample.get_fails Sample.parse_fails] |}
    (RegistrySearch.Crashed None 1).
Proof.
  apply (proj1 (Search_with_exiting_source ["ubuntu"; "iso"]
                  {| providerList :=
                       [Sample.fixed [Sample.record];
                        XdccEuProvider Conv.amd64 Sample.no_trim
                          Sample.one_field Sample.get_fails
                          Sample.parse_fails] |}
                  (XdccEuProvider Conv.amd64 Sample.no_trim Sample.one_field
                     Sample.get_fails Sample.parse_fails)
                  (or_intror (or_introl eq_refl))) 1).
  reflexivity.
Defined.

Lemma Search_returns_after_all_goroutines_witness :
  List.length [RegistrySearch.Finished]
  = List.length [Sample.fixed [Sample.record]] /\
  Forall (fun g => g = RegistrySearch.Finished) [RegistrySearch.Finished] /\
  Forall (RegistryTrack.succeeds ["ubuntu"]) [Sample.fixed [Sample.record]] /\
  ([Sample.record], @None error) = ([Sample.record], None).
Proof.
  exact (Search_returns_after_all_goroutines ["ubuntu"]
           {| providerList := [Sample.fixed [Sample.record]] |}
           {| RegistrySearch.allResults := [Sample.record];
              RegistrySearch.wg := 0;
              RegistrySearch.goroutines := [RegistrySearch.Finished];
              RegistrySearch.main :=
                RegistrySearch.Returned ([Sample.record], None) |}
           ([Sample.record], None)
           (RegistrySingleFacts.run_single ["ubuntu"]
              (Sample.fixed [Sample.record]) [Sample.record]
              {| providerList := [Sample.fixed [Sample.record]] |}
              eq_refl eq_refl)
           eq_refl).
Defined.

(** X5. A registry of one provider whose [Search] succeeds: the registry's
    [Search] returns, and all it can return is the result of that provider
    with a nil error. *)
Theorem Search_of_single_source keywords registry p res :
  Search p keywords = Ret (res, None) ->
  providerList registry = [p] ->
  RegistrySearch.may_return keywords registry (res, None) /\
  (forall out,
     RegistrySearch.may_return keywords registry out -> out = (res, None)).
Proof.
  intros Hs Hl. split.
  - eexists. split.
    + exact (RegistrySingleFacts.run_single keywords p res registry Hs Hl).
    + reflexivity.
  - intros out (st & Hreach & Hmain).
    destruct (RegistryTrackFacts.track_inv_reachable keywords registry st
                Hreach) as (Hwg & _ & _ & _ & Hret).
    rewrite Hmain in Hret. destruct Hret as [-> Hz].
    pose proof (RegistrySingleFacts.single_inv_reachable keywords p res
                  registry st Hs Hl Hreach) as Hone.
    destruct Hone as [(Hm & _)|(_ & g & Hg & Hal)].
    + rewrite Hmain in Hm. discriminate Hm.
    + unfold RegistryInv.owed in Hwg. rewrite Hmain, Hg in Hwg.
      cbn in Hwg.
      destruct g; cbn [RegistryInv.pending RegistrySingle.alone] in *;
        try lia.
      rewrite Hal. reflexivity.
Qed.

Lemma Search_of_single_source_witness :
  RegistrySearch.may_return ["ubuntu"]
    {| providerList := [Sample.fixed [Sample.record]] |}
    ([Sample.record], None).
Proof.
  exact (proj1 (Search_of_single_source ["ubuntu"]
                  {| providerList := [Sample.fixed [Sample.record]] |}
                  (Sample.fixed [Sample.record]) [Sample.record]
                  eq_refl eq_refl)).
Defined.

(** X6. A registry of two providers whose [Search] succeed with [r1] and
    [r2].  Line 61 reads and writes the shared slice without a lock: the
    registry's [Search] can return [r1] followed by [r2], [r2] followed by
    [r1], and, when both goroutines read the slice before either writes it,
    the records of one source alone. *)
Theorem Search_of_two_sources_races keywords registry p1 p2 r1 r2 :
  Search p1 keywords = Ret (r1, None) ->
  Search p2 keywords = Ret (r2, None) ->
  providerList registry = [p1; p2] ->
  RegistrySearch.may_return keywords registry ((r1 ++ r2)%list, None) /\
  RegistrySearch.may_return keywords registry ((r2 ++ r1)%list, None) /\
  RegistrySearch.may_return keywords registry (r2, None) /\
  RegistrySearch.may_return keywords registry (r1, None).
Proof.
  intros H1 H2 Hl.
  pose proof (RegistryRuns.reach_all_started keywords registry) as Hall.
  rewrite Hl in Hall. cbn [map List.length] in Hall.
  assert (Hcalls :
            RegistrySearch.reachable keywords registry
              (RegistrySearch.Running
                 {| RegistrySearch.allResults := [];
                    RegistrySearch.wg := 2;
                    RegistrySearch.goroutines :=
                      [RegistrySearch.AtLoad r1; RegistrySearch.AtLoad r2];
                    RegistrySearch.main := RegistrySearch.AtWait |})).
  { eapply RegistrySearch.steps_step.
    - eapply RegistrySearch.steps_step; [exact Hall|].
      eapply RegistrySearch.step_goroutine
        with (before := []) (after := [RegistrySearch.AtCall p2])
             (g := RegistrySearch.AtCall p1);
        [reflexivity|]. apply RegistrySearch.step_call_ok. exact H1.
    - eapply RegistrySearch.step_goroutine
        with (before := [RegistrySearch.AtLoad r1]) (after := [])
             (g := RegistrySearch.AtCall p2);
        [reflexivity|]. apply RegistrySearch.step_call_ok. exact H2. }
  clear Hall.
  (* the end of every run below: both goroutines at line 63 *)
  assert (Hend : forall res,
            RegistrySearch.reachable keywords registry
              (RegistrySearch.Running
                 {| RegistrySearch.allResults := res;
                    RegistrySearch.wg := 2;
                    RegistrySearch.goroutines :=
                      [RegistrySearch.AtDone; RegistrySearch.AtDone];
                    RegistrySearch.main := RegistrySearch.AtWait |}) ->
            RegistrySearch.may_return keywords registry (res, None)).
  { intros res Hr.
    exists {| RegistrySearch.allResults := res;
              RegistrySearch.wg := 0;
              RegistrySearch.goroutines :=
                [RegistrySearch.Finished; RegistrySearch.Finished];
              RegistrySearch.main := RegistrySearch.Returned (res, None) |}.
    split; [|reflexivity].
    eapply RegistrySearch.steps_step.
    - eapply RegistrySearch.steps_step.
      + eapply RegistrySearch.steps_step; [exact Hr|].
        eapply RegistrySearch.step_goroutine
          with (before := []) (after := [RegistrySearch.AtDone])
               (g := RegistrySearch.AtDone);
          [reflexivity|]. apply RegistrySearch.step_done.
      + eapply RegistrySearch.step_goroutine
          with (before := [RegistrySearch.Finished]) (after := [])
               (g := RegistrySearch.AtDone);
          [reflexivity|]. apply RegistrySearch.step_done.
    - apply RegistrySearch.step_wait; reflexivity. }
  (* one goroutine moves: the first or the second of two *)
  assert (Hfst : forall results g g' g2 results',
            RegistrySearch.goroutine_step keywords results 2 g g' results' 2 ->
            RegistrySearch.reachable keywords registry
              (RegistrySearch.Running
                 {| RegistrySearch.allResults := results;
                    RegistrySearch.wg := 2;
                    RegistrySearch.goroutines := [g; g2];
                    RegistrySearch.main := RegistrySearch.AtWait |}) ->
            RegistrySearch.reachable keywords registry
              (RegistrySearch.Running
                 {| RegistrySearch.allResults := results';
                    RegistrySearch.wg := 2;
                    RegistrySearch.goroutines := [g'; g2];
                    RegistrySearch.main := RegistrySearch.AtWait |})).
  { intros results g g' g2 results' Hg Hr.
    eapply RegistrySearch.steps_step; [exact Hr|].
    eapply RegistrySearch.step_goroutine
      with (before := []) (after := [g2]) (g := g);
      [reflexivity|exact Hg]. }
  assert (Hsnd : forall results g1 g g' results',
            RegistrySearch.goroutine_step keywords results 2 g g' results' 2 ->
            RegistrySearch.reachable keywords registry
              (RegistrySearch.Running
                 {| RegistrySearch.allResults := results;
                    RegistrySearch.wg := 2;
                    RegistrySearch.goroutines := [g1; g];
                    RegistrySearch.main := RegistrySearch.AtWait |}) ->
            RegistrySearch.reachable keywords registry
              (RegistrySearch.Running
                 {| RegistrySearch.allResults := results';
                    RegistrySearch.wg := 2;
                    RegistrySearch.goroutines := [g1; g'];
                    RegistrySearch.main := RegistrySearch.AtWait |})).
  { intros results g1 g g' results' Hg Hr.
    eapply RegistrySearch.steps_step; [exact Hr|].
    eapply RegistrySearch.step_goroutine
      with (before := [g1]) (after := []) (g := g);
      [reflexivity|exact Hg]. }
  split; [|split; [|split]]; apply Hend.
  - (* the first goroutine appends, then the second *)
    eapply Hsnd; [apply RegistrySearch.step_store|].
    eapply Hsnd; [apply (RegistrySearch.step_load keywords r1 2 r2)|].
    eapply Hfst; [apply RegistrySearch.step_store|].
    eapply Hfst; [apply (RegistrySearch.step_load keywords [] 2 r1)|].
    exact Hcalls.
  - (* the second goroutine appends, then the first *)
    eapply Hfst; [apply RegistrySearch.step_store|].
    eapply Hfst; [apply (RegistrySearch.step_load keywords r2 2 r1)|].
    eapply Hsnd; [apply RegistrySearch.step_store|].
    eapply Hsnd; [apply (RegistrySearch.step_load keywords [] 2 r2)|].
    exact Hcalls.
  - (* both read the empty slice; the second writes last *)
    eapply Hsnd; [apply RegistrySearch.step_store|].
    eapply Hfst; [apply RegistrySearch.step_store|].
    eapply Hsnd; [apply (RegistrySearch.step_load keywords [] 2 r2)|].
    eapply Hfst; [apply (RegistrySearch.step_load keywords [] 2 r1)|].
    exact Hcalls.
  - (* both read the empty slice; the first writes last *)
    eapply Hfst; [apply RegistrySearch.step_store|].
    eapply Hsnd; [apply RegistrySearch.step_store|].
    eapply Hfst; [apply (RegistrySearch.step_load keywords [] 2 r1)|].
    eapply Hsnd; [apply (RegistrySearch.step_load keywords [] 2 r2)|].
    exact Hcalls.
Qed.

Lemma Search_of_two_sources_races_witness :
  RegistrySearch.may_return ["ubuntu"]
    {| providerList := [Sample.fixed [Sample.record]; Sample.fixed []] |}
    ([], None).
Proof.
  exact (proj1 (proj2 (proj2
           (Search_of_two_sources_races ["ubuntu"]
              {| providerList :=
                   [Sample.fixed [Sample.record]; Sample.fixed []] |}
              (Sample.fixed [Sample.record]) (Sample.fixed [])
              [Sample.record] [] eq_refl eq_refl eq_refl)))).
Defined.

(** X7. The first row of the table is the header: whatever it holds, it
    gives no record and changes no other; a document without rows, or of a
    header alone, gives the empty result and a nil error. *)
Theorem searchDocument_skips_header u trim (header header' : Row) rows :
  searchDocument u trim (header :: rows)
  = searchDocument u trim (header' :: rows)
  /\ searchDocument u trim [header] = Ret ([], None)
  /\ searchDocument u trim [] = Ret ([], None).
Proof.
  split; [|split]; reflexivity.
Qed.

(** X8. The rows are handled one after the other, each on its own: the
    result on the rows [rows1] followed by [rows2] is the result on
    [rows1] followed by the result on [rows2], in that order. *)
Theorem searchDocument_app u trim header rows1 rows2 l1 l2 e1 e2 :
  searchDocument u trim (header :: rows1) = Ret (l1, e1) ->
  searchDocument u trim (header :: rows2) = Ret (l2, e2) ->
  searchDocument u trim (header :: rows1 ++ rows2)
  = Ret ((l1 ++ l2)%list, None).
Proof.
  unfold searchDocument, Each. cbn [Each_from row_callback Nat.eqb bind].
  intros H1 H2. rewrite Each_from_app. cbn [Nat.add].
  destruct (Each_from (row_callback u trim) 1 rows1 []) as [a1| |];
    cbn [bind] in *; try discriminate H1.
  injection H1 as <- <-.
  rewrite (Each_rows_index u trim rows2 (List.length rows1) 0).
  rewrite Each_rows_append.
  destruct (Each_from (row_callback u trim) 1 rows2 []) as [a2| |];
    cbn [bind] in *; try discriminate H2.
  injection H2 as <- <-. reflexivity.
Qed.

Lemma searchDocument_app_witness :
  searchDocument Conv.amd64 Sample.no_trim
    (Sample.header :: [Sample.row; Sample.short_row] ++ [Sample.row])
  = Ret (([Sample.record] ++ [Sample.record])%list, None).
Proof.
  apply (searchDocument_app Conv.amd64 Sample.no_trim Sample.header
           [Sample.row; Sample.short_row] [Sample.row]
           [Sample.record] [Sample.record] None None);
    vm_compute; reflexivity.
Defined.

(** X9. When the provider's walk over the document returns, the error is
    nil and there is one record for every row of seven cells after the
    header, no more and no less. *)
Theorem searchDocument_one_record_per_row u trim doc infos e :
  searchDocument u trim doc = Ret (infos, e) ->
  e = None /\
  List.length infos = List.length (filter seven_cells (tl doc)).
Proof.
  unfold searchDocument, Each. intros H.
  destruct doc as [|header rows].
  - cbn in H. injection H as <- <-. split; reflexivity.
  - cbn [Each_from row_callback Nat.eqb bind tl] in H.
    destruct (Each_from (row_callback u trim) 1 rows []) as [l| |] eqn:El;
      cbn [bind] in H; try discriminate H.
    injection H as <- <-. split; [reflexivity|].
    exact (Each_rows_count u trim rows 0 l El).
Qed.

Lemma searchDocument_one_record_per_row_witness :
  @None error = None /\
  List.length [Sample.record]
  = List.length
      (filter seven_cells (tl [Sample.header; Sample.row; Sample.short_row])).
Proof.
  apply (searchDocument_one_record_per_row Conv.amd64 Sample.no_trim
           [Sample.header; Sample.row; Sample.short_row]
           [Sample.record] None).
  vm_compute. reflexivity.
Defined.

(** X10. The walk over the document panics, with a slice bound out of
    range, exactly when some row after the header has seven cells and a
    Gets cell that is empty once trimmed; on every other document it
    returns a list and a nil error.  It never ends the process. *)
Theorem searchDocument_panics_on_empty_gets u trim doc :
  (existsb (gets_missing trim) (tl doc) = true ->
   searchDocument u trim doc = Panic slice_panic)
  /\ (existsb (gets_missing trim) (tl doc) = false ->
      exists infos, searchDocument u trim doc = Ret (infos, None)).
Proof.
  unfold searchDocument, Each. destruct doc as [|header rows].
  - split; [discriminate|]. intros _. exists []. reflexivity.
  - cbn [Each_from row_callback Nat.eqb bind tl].
    destruct (Each_rows_panic u trim rows 0) as [H1 H2]. split.
    + intros H. rewrite (H1 H). reflexivity.
    + intros H. destruct (H2 H) as (l & ->). exists l. reflexivity.
Qed.

Lemma searchDocument_panics_on_empty_gets_witness :
  searchDocument Conv.amd64 Sample.no_trim
    [Sample.header; Sample.row; Sample.row_no_gets]
  = Panic slice_panic.
Proof.
  apply (proj1 (searchDocument_panics_on_empty_gets Conv.amd64
                  Sample.no_trim
                  [Sample.header; Sample.row; Sample.row_no_gets])).
  reflexivity.
Defined.

(** X11. The [Search] of the xdcc.eu provider never returns an error: when
    it returns, the request was answered with status 200, the body was
    loaded as a document, and the value returned is the records of that
    document with a nil error. *)
Theorem XdccEuProvider_Search_returns_nil_error
  u trim fields get parse keywords infos e :
  XdccEuProvider_Search u trim fields get parse keywords = Ret (infos, e) ->
  e = None /\
  exists res doc,
    get (XdccEuURL ++ "?searchkey="
         ++ GoString.Join (fields (GoString.Join keywords " ")) "+")
    = GetOk res
    /\ StatusCode res = 200
    /\ parse (Body res) = (doc, None)
    /\ searchDocument u trim doc = Ret (infos, None).
Proof.
  unfold XdccEuProvider_Search.
  destruct (get _) as [res|err]; [|discriminate].
  destruct (Z.eqb_spec (StatusCode res) 200) as [Hs|Hs];
    cbn [negb]; [|discriminate].
  destruct (parse (Body res)) as [doc [err|]] eqn:Ep; [discriminate|].
  intros H.
  assert (He : e = None).
  { unfold searchDocument in H.
    destruct (Each (row_callback u trim) doc []) as [l| |];
      cbn [bind] in H; try discriminate H.
    injection H as _ <-. reflexivity. }
  subst e. split; [reflexivity|]. exists res, doc. repeat split; assumption.
Qed.

Lemma XdccEuProvider_Search_returns_nil_error_witness :
  @None error = None /\
  exists res doc,
    Sample.get_status 200 "200 OK" "<table>"
      (XdccEuURL ++ "?searchkey="
       ++ GoString.Join
            (Sample.one_field (GoString.Join ["ubuntu"; "iso"] " ")) "+")
    = GetOk res
    /\ StatusCode res = 200
    /\ Sample.parse_to [Sample.header; Sample.row] (Body res) = (doc, None)
    /\ searchDocument Conv.amd64 Sample.no_trim doc
       = Ret ([Sample.record], None).
Proof.
  apply (XdccEuProvider_Search_returns_nil_error Conv.amd64 Sample.no_trim
           Sample.one_field (Sample.get_status 200 "200 OK" "<table>")
           (Sample.parse_to [Sample.header; Sample.row]) ["ubuntu"; "iso"]
           [Sample.record] None).
  vm_compute. reflexivity.
Defined.

(** X12. The URL of a record comes from the second cell alone: on a row of
    seven cells whose second cell holds no anchor with an href, the record
    is appended with an empty URL, whatever anchors the other cells hold. *)
Theorem row_url_without_anchor u trim j (s : Row) infos infos' c1 :
  List.length s = 7%nat ->
  nth_error s 1 = Some c1 ->
  AnchorHref c1 = None ->
  row_callback u trim (S j) s infos = Ret infos' ->
  exists info, infos' = (infos ++ [info])%list /\ Url info = "".
Proof.
  intros Hlen Hc1 Href H.
  destruct (rowcb_cases u trim j s infos)
    as [(H7 & _)|[(_ & E)|(_ & _ & info & E & _ & Hurl)]].
  - unfold seven_cells, xdccEuNumberOfEntries in H7. rewrite Hlen in H7.
    discriminate H7.
  - rewrite E in H. discriminate H.
  - rewrite E in H. injection H as <-. exists info.
    split; [reflexivity|]. rewrite Hurl, Hc1. cbn [href_or].
    rewrite Href. reflexivity.
Qed.

Lemma row_url_without_anchor_witness :
  exists info,
    [info] = ([] ++ [info])%list /\ Url info = "".
Proof.
  destruct (row_url_without_anchor Conv.amd64 Sample.no_trim 0
              [Sample.linked_cell "irc.example.net" "irc://elsewhere";
               Sample.cell "#chan"; Sample.cell "bot"; Sample.cell "#1";
               Sample.cell "12x"; Sample.cell "1.5M"; Sample.cell "file.iso"]
              []
              [{| Network := "irc.example.net"; Channel := "#chan";
                  BotName := "bot"; Name := "file.iso"; Gets := 12;
                  Url := ""; Command := "/msg bot xdcc send #1";
                  Size := 1572864; Slot := "#1" |}]
              (Sample.cell "#chan") eq_refl eq_refl eq_refl eq_refl)
    as (info & H & Hurl).
  exists info. split; [|exact Hurl].
  cbn in H. injection H as <-. reflexivity.
Defined.

(** X13. The URL of a record is the href of the second cell with the first
    [irc://] in it, wherever it stands, replaced by [http://] and the rest
    as it was; an href without [irc://] is the URL as it is. *)
Theorem row_url_first_scheme u trim j (s : Row) infos infos' c1 href :
  List.length s = 7%nat ->
  nth_error s 1 = Some c1 ->
  AnchorHref c1 = Some href ->
  row_callback u trim (S j) s infos = Ret infos' ->
  exists info,
    infos' = (infos ++ [info])%list /\
    (forall pre post,
       href = pre ++ "irc://" ++ post ->
       absent_before "irc://" href (String.length pre) ->
       Url info = pre ++ "http://" ++ post) /\
    (absent_before "irc://" href (S (String.length href)) ->
     Url info = href).
Proof.
  intros Hlen Hc1 Href H.
  destruct (rowcb_cases u trim j s infos)
    as [(H7 & _)|[(_ & E)|(_ & _ & info & E & _ & Hurl)]].
  - unfold seven_cells, xdccEuNumberOfEntries in H7. rewrite Hlen in H7.
    discriminate H7.
  - rewrite E in H. discriminate H.
  - rewrite E in H. injection H as <-. exists info.
    rewrite Hc1 in Hurl. cbn [href_or] in Hurl. rewrite Href in Hurl.
    split; [reflexivity|]. split.
    + intros pre post -> Habs. rewrite Hurl.
      apply replace_first_scheme. exact Habs.
    + intros Habs. rewrite Hurl. apply replace_absent_scheme. exact Habs.
Qed.

Lemma row_url_first_scheme_witness :
  exists info,
    [info] = ([] ++ [info])%list /\
    Url info = "x-" ++ "http://" ++ "h/irc://c".
Proof.
  destruct (row_url_first_scheme Conv.amd64 Sample.no_trim 0
              [Sample.cell "irc.example.net";
               Sample.linked_cell "#chan" "x-irc://h/irc://c";
               Sample.cell "bot"; Sample.cell "#1";
               Sample.cell "12x"; Sample.cell "1.5M"; Sample.cell "file.iso"]
              []
              [{| Network := "irc.example.net"; Channel := "#chan";
                  BotName := "bot"; Name := "file.iso"; Gets := 12;
                  Url := "x-http://h/irc://c";
                  Command := "/msg bot xdcc send #1";
                  Size := 1572864; Slot := "#1" |}]
              (Sample.linked_cell "#chan" "x-irc://h/irc://c")
              "x-irc://h/irc://c" eq_refl eq_refl eq_refl eq_refl)
    as (info & H & Hfirst & _).
  exists info. split; [reflexivity|].
  apply (Hfirst "x-" "h/irc://c"); [reflexivity|].
  intros k Hk. cbn in Hk.
  destruct k as [|[|k]]; [reflexivity|reflexivity|lia].
Defined.

(** X14. [parseFields] drops the last byte of the Gets cell whatever it
    is: two lists of seven fields that differ in that byte alone give the
    same record. *)
Theorem parseFields_ignores_last_byte_of_gets
  u f0 f1 f2 f3 digits c c' f5 f6 :
  parseFields u [f0; f1; f2; f3; digits ++ String c ""; f5; f6]
  = parseFields u [f0; f1; f2; f3; digits ++ String c' ""; f5; f6].
Proof.
  destruct (snoc_last digits c) as (a & s & -> & _ & Hb).
  destruct (snoc_last digits c') as (a' & s' & -> & _ & Hb').
  rewrite !parseFields_seven, Hb, Hb'. reflexivity.
Qed.

(** X15. GetCount is the number written before the last byte of the Gets
    cell: when those bytes are decimal digits, one at least, of a value
    below 2^63, [parseFields] returns a record whose Gets is that value. *)
Theorem parseFields_gets_value u f0 f1 f2 f3 digits c f5 f6 :
  digits <> "" ->
  all_digits digits = true ->
  decimal_value digits < 2 ^ 63 ->
  exists info,
    parseFields u [f0; f1; f2; f3; digits ++ String c ""; f5; f6]
    = Ret (Some info, None)
    /\ Gets info = decimal_value digits.
Proof.
  intros Hne Hd Hmax.
  destruct (snoc_last digits c) as (a & s & -> & _ & Hb).
  rewrite parseFields_seven, Hb.
  destruct digits as [|d ds]; [contradiction|].
  rewrite (Atoi_digits d ds Hd Hmax).
  eexists. split; reflexivity.
Qed.

Lemma parseFields_gets_value_witness :
  exists info,
    parseFields Conv.amd64
      ["irc.example.net"; "#chan"; "bot"; "#1"; "123" ++ "4"; "1.5M";
       "file.iso"]
    = Ret (Some info, None)
    /\ Gets info = decimal_value "123".
Proof.
  apply (parseFields_gets_value Conv.amd64 "irc.example.net" "#chan" "bot"
           "#1" "123" "4"%char "1.5M" "file.iso").
  - discriminate.
  - reflexivity.
  - vm_compute. reflexivity.
Defined.

(** X16. A size whose last byte is none of [G], [M] and [K] (a lower-case
    unit, a digit, any other byte) does not decode: [parseFileSize] returns
    -1 and an error, whatever stands before that byte. *)
Theorem parseFileSize_unknown_unit u prefix c :
  unit_multiplier c = None ->
  fst (parseFileSize u (prefix ++ String c "")) = -1
  /\ snd (parseFileSize u (prefix ++ String c "")) <> None.
Proof.
  intros Hc. apply parseFileSize_undecoded.
  destruct (snoc_last prefix c) as (a & s & -> & Hl & Hb).
  unfold size_product. rewrite Hl, Hc.
  destruct (Strconv.ParseFloat32 (GoString.but_last a s)) as [f [err|]];
    reflexivity.
Qed.

Lemma parseFileSize_unknown_unit_witness :
  fst (parseFileSize Conv.amd64 ("700" ++ "m")) = -1
  /\ snd (parseFileSize Conv.amd64 ("700" ++ "m")) <> None.
Proof.
  apply (parseFileSize_unknown_unit Conv.amd64 "700" "m"%char).
  reflexivity.
Defined.

(** X17. Whole sizes decode exactly: for a prefix of decimal digits of a
    value below 2^24 and a unit [G], [M] or [K], [parseFileSize] returns
    the value times the multiplier and a nil error. *)
Theorem parseFileSize_whole_number u digits c k :
  digits <> "" ->
  all_digits digits = true ->
  decimal_value digits < 2 ^ 24 ->
  unit_multiplier c = Some k ->
  parseFileSize u (digits ++ String c "") = (decimal_value digits * k, None).
Proof.
  intros Hne Hd Hlt Hk.
  destruct digits as [|d ds]; [contradiction|].
  destruct (ParseFloat32_small_integer d ds k Hd Hlt) as (f & Hf & Hz).
  pose proof (ParseFloat32_binary32 _ f None Hf) as Hb.
  destruct (snoc_last (String d ds) c) as (a & s & -> & Hl & Hp).
  rewrite (parseFileSize_decoded u (String a s)
             (Conv.mul64 f (Conv.float64_of_const k)))
    by (unfold size_product; rewrite Hl, Hp, Hf, Hk; reflexivity).
  f_equal. unfold Conv.int64_of_float64.
  rewrite (truncate_product f c k Hb Hk), Hz.
  assert (H0 : 0 <= decimal_value (String d ds))
    by (apply (decimal_from_ge (String d ds) 0 Hd); lia).
  destruct (unit_multiplier_float c k Hk) as (j & Hj & -> & _).
  assert (Hk30 : 0 < 2 ^ j <= 2 ^ 30).
  { split; [apply Z.pow_pos_nonneg; lia|apply Z.pow_le_mono_r; lia]. }
  assert (Hprod : 0 <= decimal_value (String d ds) * 2 ^ j < 2 ^ 24 * 2 ^ 30).
  { split; [apply Z.mul_nonneg_nonneg; lia|].
    apply Z.le_lt_trans with (decimal_value (String d ds) * 2 ^ 30).
    - apply Z.mul_le_mono_nonneg_l; lia.
    - apply Z.mul_lt_mono_pos_r; [reflexivity|exact Hlt]. }
  unfold Conv.minInt64, Conv.maxInt64.
  change (2 ^ 24 * 2 ^ 30) with 18014398509481984 in Hprod.
  destruct (Z.leb_spec (- 2 ^ 63) (decimal_value (String d ds) * 2 ^ j));
    [|lia].
  destruct (Z.leb_spec (decimal_value (String d ds) * 2 ^ j) (2 ^ 63 - 1));
    [|lia].
  reflexivity.
Qed.

Lemma parseFileSize_whole_number_witness :
  parseFileSize Conv.amd64 ("16777215" ++ "G")
  = (decimal_value "16777215" * GigaByte, None).
Proof.
  apply (parseFileSize_whole_number Conv.amd64 "16777215" "G"%char GigaByte).
  - discriminate.
  - reflexivity.
  - vm_compute. reflexivity.
  - reflexivity.
Defined.

(** X18. The Gets cell may carry a sign: when the bytes before its last
    byte are a minus sign and decimal digits, one at least, of a value of
    2^63 at most, [parseFields] returns a record whose Gets is the negative
    of that value. *)
Theorem parseFields_gets_negative u f0 f1 f2 f3 digits c f5 f6 :
  digits <> "" ->
  all_digits digits = true ->
  decimal_value digits <= 2 ^ 63 ->
  exists info,
    parseFields u [f0; f1; f2; f3; String "-" digits ++ String c ""; f5; f6]
    = Ret (Some info, None)
    /\ Gets info = - decimal_value digits.
Proof.
  intros Hne Hd Hmax.
  destruct (snoc_last (String "-" digits) c) as (a & s & -> & _ & Hb).
  rewrite parseFields_seven, Hb.
  destruct digits as [|d ds]; [contradiction|].
  rewrite (Atoi_minus_digits d ds Hd Hmax).
  eexists. split; reflexivity.
Qed.

Lemma parseFields_gets_negative_witness :
  exists info,
    parseFields Conv.amd64
      ["irc.example.net"; "#chan"; "bot"; "#1"; String "-" "5" ++ "x";
       "1.5M"; "file.iso"]
    = Ret (Some info, None)
    /\ Gets info = - decimal_value "5".
Proof.
  apply (parseFields_gets_negative Conv.amd64 "irc.example.net" "#chan"
           "bot" "#1" "5" "x"%char "1.5M" "file.iso").
  - discriminate.
  - reflexivity.
  - vm_compute. discriminate.
Defined.
